(** * s3-sync: the synchronization engine of [main.go]

    A shallow embedding of [main.go]: the bucket-configuration
    synchronizer [syncBucketConfig], the copy-verify worker
    [copyAndVerifyObject], the per-object closure handed to [g.Go]
    (here [syncObject]) and the coordinator built from
    [errgroup.Group], [semaphore.Weighted] and [sync.Mutex].

    Conventions.
    - A Go [error] is represented by its [Error()] text; the [nil]
      error is [None].  [fmt.Errorf("... %w", err)] is concatenation.
    - Remote calls, semaphore and mutex operations and the counter
      updates are the operations of a free monad [Prog]; a program is
      the tree of what the Go code does with each possible answer.
      The service is any function from its state and a request to an
      answer and a new state, so every theorem holds whatever the
      two accounts answer, failures and cancelled requests included.
    - The pointer fields the code dereferences without a test
      ([obj.Key], [obj.Size], [obj.ETag], [headOutput.ContentLength],
      [headOutput.ETag]) are taken as populated, as the service
      guarantees; the fields the code does test ([Policy], [Rules],
      [NextContinuationToken]) keep their optional form.
    - The closure of [main] sees the [obj] of its own iteration (the
      loop variable is per iteration, as from Go 1.22).
    - [MetadataDirective] and [TaggingDirective] of the copy request
      are the constant [COPY] and are left out of the request.
    - [log.Printf] lines are not modelled. *)

From Stdlib Require Import ZArith String Ascii List Bool Lia DecimalString.
From stdpp Require Import base list strings.

Local Open Scope string_scope.
Local Open Scope Z_scope.

(** ** Go strings and errors *)

Definition error := string.

(** [strings.Contains(s, substr)]. *)
Fixpoint Contains (s substr : string) : bool :=
  String.prefix substr s
  || match s with
     | EmptyString => false
     | String _ s' => Contains s' substr
     end.

(** The [%d] verb on an [int64]. *)
Definition fmt_d (n : Z) : string := NilZero.string_of_int (Z.to_int n).

(** What the Go runtime reports when a method is called on a nil
    interface value. *)
Definition nilDereference : string :=
  "runtime error: invalid memory address or nil pointer dereference".

(** ** The SDK's data, as far as [main.go] touches it *)

Module types.
Record Object := { Key : string; Size : Z; ETag : string }.
(** Lifecycle rules are only passed through. *)
Record LifecycleRule := { ID : string; Status : string }.
End types.

Module s3.
Record CreateBucketOutput := { Location : option string }.
Record GetBucketPolicyOutput := { Policy : option string }.
Record GetBucketVersioningOutput := { Status : string }.
Record GetBucketLifecycleConfigurationOutput :=
  { Rules : list types.LifecycleRule }.
Record ListObjectsV2Output :=
  { Contents : list types.Object;
    NextContinuationToken : option string }.
Record HeadObjectOutput :=
  { ContentLength : Z;
    ETag : string;
    StorageClass : string;
    Metadata : list (string * string) }.
Record GetObjectTaggingOutput := { TagSet : list (string * string) }.
End s3.

Record AccountConfig :=
  { AccessKey : string; SecretKey : string; Region : string; Bucket : string }.

Record Config :=
  { Source : AccountConfig;
    Destination : AccountConfig;
    Concurrency : Z;
    MaxRetries : Z }.

(** ** Operations *)

Inductive Client := sourceClient | destClient.

Inductive Request :=
| CreateBucket (bucket : string)
| GetBucketPolicy (bucket : string)
| PutBucketPolicy (bucket policy : string)
| GetBucketVersioning (bucket : string)
| PutBucketVersioning (bucket status : string)
| GetBucketLifecycleConfiguration (bucket : string)
| PutBucketLifecycleConfiguration (bucket : string)
                                  (rules : list types.LifecycleRule)
| ListObjectsV2 (bucket : string) (token : option string)
| HeadObject (bucket key : string)
| GetObjectTagging (bucket key : string)
| CopyObject (bucket copySource key storageClass : string)
             (metadata : list (string * string)).

Definition Output (r : Request) : Type :=
  match r with
  | CreateBucket _ => s3.CreateBucketOutput
  | GetBucketPolicy _ => s3.GetBucketPolicyOutput
  | GetBucketVersioning _ => s3.GetBucketVersioningOutput
  | GetBucketLifecycleConfiguration _ => s3.GetBucketLifecycleConfigurationOutput
  | ListObjectsV2 _ _ => s3.ListObjectsV2Output
  | HeadObject _ _ => s3.HeadObjectOutput
  | GetObjectTagging _ _ => s3.GetObjectTaggingOutput
  | PutBucketPolicy _ _ | PutBucketVersioning _ _
  | PutBucketLifecycleConfiguration _ _ | CopyObject _ _ _ _ _ => unit
  end.

(** What a goroutine of the program can do to the outside: a call on
    one of the two clients, [sem.Acquire(ctx, 1)], [sem.Release(1)],
    [mu.Lock()], [mu.Unlock()], [copied++], [skipped++],
    [bar.Increment()]. *)
Inductive Op :=
| Call (c : Client) (r : Request)
| SemAcquire
| SemRelease
| MuLock
| MuUnlock
| IncCopied
| IncSkipped
| BarIncrement.

(** The answer to an operation: [(output, err)] for a call, the error
    of [Acquire], nothing otherwise. *)
Definition Resp (o : Op) : Type :=
  match o with
  | Call _ r => (Output r + error)%type
  | SemAcquire => option error
  | _ => unit
  end.

Inductive Prog (A : Type) : Type :=
| Ret (a : A)
| Vis (o : Op) (k : Resp o -> Prog A).
Arguments Ret {A} a.
Arguments Vis {A} o k.

Fixpoint bind {A B : Type} (p : Prog A) (f : A -> Prog B) : Prog B :=
  match p with
  | Ret a => f a
  | Vis o k => Vis o (fun r => bind (k r) f)
  end.

Definition perform (o : Op) : Prog (Resp o) := Vis o Ret.

Notation "x <- p ;; q" := (bind p (fun x => q))
  (at level 100, p at next level, right associativity).
Notation "p ;;; q" := (bind p (fun _ => q))
  (at level 100, right associativity).

(** [defer op] at the head of a function body whose remainder is [body]. *)
Definition defer {A : Type} (o : Op) (body : Prog A) : Prog A :=
  a <- body ;; perform o ;;; Ret a.

(** ** Events and the two readings of a program *)

Record Event := Ev { ev_op : Op; ev_resp : Resp ev_op }.

(** A service is a state [W] and an answer to every operation. *)
Definition Handler (W : Type) : Type := forall o : Op, W -> Resp o * W.

(** Sequential run of a program against a service: result, final
    state and the events in the order they happened. *)
Fixpoint run {W A : Type} (h : Handler W) (p : Prog A) (w : W)
  : A * W * list Event :=
  match p with
  | Ret a => (a, w, [])
  | Vis o k =>
      let '(r, w1) := h o w in
      let '(a, w2, evs) := run h (k r) w1 in
      (a, w2, Ev o r :: evs)
  end.

(** [path p evs a]: answered as in [evs], [p] performs exactly the
    operations of [evs] and returns [a]. *)
Fixpoint path {A : Type} (p : Prog A) (evs : list Event) (a : A) : Prop :=
  match p with
  | Ret a' => evs = [] /\ a = a'
  | Vis o k => exists (r : Resp o) (evs' : list Event),
      evs = Ev o r :: evs' /\ path (k r) evs' a
  end.

(** ** [syncBucketConfig] *)

(** How a Go function that returns [error] can end. *)
Inductive Outcome :=
| Returned (err : option error)
| Panicked (msg : string).

(** A block of statements either falls through to the next statement
    or leaves the function. *)
Inductive Flow :=
| Next
| Exit (o : Outcome).

Definition andThen (p q : Prog Flow) : Prog Flow :=
  f <- p ;;
  match f with
  | Next => q
  | Exit o => Ret (Exit o)
  end.

Definition fail (msg : string) : Prog Flow := Ret (Exit (Returned (Some msg))).

(** "Create destination bucket if it doesn't exist" *)
Definition createBucketStep (destBucket : string) : Prog Flow :=
  r <- perform (Call destClient (CreateBucket destBucket)) ;;
  match r with
  | inr err =>
      if negb (Contains err "BucketAlreadyOwnedByYou")
         && negb (Contains err "BucketAlreadyExists")
      then fail ("failed to create destination bucket " +:+ destBucket
                 +:+ ": " +:+ err)
      else Ret Next
  | inl _ => Ret Next
  end.

(** "Sync bucket policy".  The [else if] branch is entered whenever
    [err == nil && policyOutput.Policy != nil] is false, and calls
    [err.Error()] there. *)
Definition policyStep (sourceBucket destBucket : string) : Prog Flow :=
  r <- perform (Call sourceClient (GetBucketPolicy sourceBucket)) ;;
  match r with
  | inl policyOutput =>
      match s3.Policy policyOutput with
      | Some policy =>
          r' <- perform (Call destClient (PutBucketPolicy destBucket policy)) ;;
          match r' with
          | inr err => fail ("failed to sync bucket policy for " +:+ destBucket
                             +:+ ": " +:+ err)
          | inl _ => Ret Next
          end
      | None => Ret (Exit (Panicked nilDereference))
      end
  | inr err =>
      if negb (Contains err "NoSuchBucketPolicy")
      then fail ("failed to get source bucket policy for " +:+ sourceBucket
                 +:+ ": " +:+ err)
      else Ret Next
  end.

(** "Sync bucket versioning" *)
Definition versioningStep (sourceBucket destBucket : string) : Prog Flow :=
  r <- perform (Call sourceClient (GetBucketVersioning sourceBucket)) ;;
  match r with
  | inr err => fail ("failed to get source bucket versioning for "
                     +:+ sourceBucket +:+ ": " +:+ err)
  | inl versioningOutput =>
      r' <- perform (Call destClient
               (PutBucketVersioning destBucket (s3.Status versioningOutput))) ;;
      match r' with
      | inr err => fail ("failed to sync bucket versioning for " +:+ destBucket
                         +:+ ": " +:+ err)
      | inl _ => Ret Next
      end
  end.

(** "Sync lifecycle rules".  Same shape as the policy block, with
    [len(lifecycleOutput.Rules) > 0] as the second conjunct. *)
Definition lifecycleStep (sourceBucket destBucket : string) : Prog Flow :=
  r <- perform (Call sourceClient
          (GetBucketLifecycleConfiguration sourceBucket)) ;;
  match r with
  | inl lifecycleOutput =>
      match s3.Rules lifecycleOutput with
      | _ :: _ =>
          r' <- perform (Call destClient
                  (PutBucketLifecycleConfiguration destBucket
                     (s3.Rules lifecycleOutput))) ;;
          match r' with
          | inr err => fail ("failed to sync lifecycle rules for " +:+ destBucket
                             +:+ ": " +:+ err)
          | inl _ => Ret Next
          end
      | [] => Ret (Exit (Panicked nilDereference))
      end
  | inr err =>
      if negb (Contains err "NoSuchLifecycleConfiguration")
      then fail ("failed to get source lifecycle configuration for "
                 +:+ sourceBucket +:+ ": " +:+ err)
      else Ret Next
  end.

Definition finish (f : Flow) : Outcome :=
  match f with
  | Next => Returned None
  | Exit o => o
  end.

Definition syncBucketConfig (sourceBucket destBucket : string) : Prog Outcome :=
  f <- andThen (createBucketStep destBucket)
         (andThen (policyStep sourceBucket destBucket)
            (andThen (versioningStep sourceBucket destBucket)
               (lifecycleStep sourceBucket destBucket))) ;;
  Ret (finish f).

(** ** [copyAndVerifyObject] *)

(** The error of the "Check Size and ETag" block. *)
Definition verificationFailed (key : string) (sourceSize destSize : Z)
    (sourceETag destETag : string) : error :=
  "verification failed for object " +:+ key
  +:+ ": size (source: " +:+ fmt_d sourceSize
  +:+ ", dest: " +:+ fmt_d destSize
  +:+ "), ETag (source: " +:+ sourceETag
  +:+ ", dest: " +:+ destETag +:+ ")".

Definition copyAndVerifyObject (sourceBucket destBucket key : string)
    (sourceSize : Z) (sourceETag : string) : Prog (option error) :=
  r1 <- perform (Call sourceClient (HeadObject sourceBucket key)) ;;
  match r1 with
  | inr err => Ret (Some ("failed to head source object " +:+ key
                          +:+ ": " +:+ err))
  | inl headOutput =>
  r2 <- perform (Call sourceClient (GetObjectTagging sourceBucket key)) ;;
  match r2 with
  | inr err => Ret (Some ("failed to get source object tags for " +:+ key
                          +:+ ": " +:+ err))
  | inl _ =>
  let copySource := sourceBucket +:+ "/" +:+ key in
  r3 <- perform (Call destClient
          (CopyObject destBucket copySource key
             (s3.StorageClass headOutput) (s3.Metadata headOutput))) ;;
  match r3 with
  | inr err => Ret (Some ("failed to copy object " +:+ key +:+ ": " +:+ err))
  | inl _ =>
  r4 <- perform (Call destClient (HeadObject destBucket key)) ;;
  match r4 with
  | inr err => Ret (Some ("failed to verify copied object " +:+ key
                          +:+ ": " +:+ err))
  | inl verifyOutput =>
      if negb (s3.ContentLength verifyOutput =? sourceSize)
         || negb (String.eqb (s3.ETag verifyOutput) sourceETag)
      then Ret (Some (verificationFailed key sourceSize
                        (s3.ContentLength verifyOutput)
                        sourceETag (s3.ETag verifyOutput)))
      else Ret None
  end end end end.

(** ** The closure given to [g.Go] *)

(** [mu.Lock(); copied++; bar.Increment(); mu.Unlock()] *)
Definition countCopied : Prog unit :=
  perform MuLock ;;; perform IncCopied ;;; perform BarIncrement ;;;
  perform MuUnlock.

(** [mu.Lock(); skipped++; bar.Increment(); mu.Unlock()] *)
Definition countSkipped : Prog unit :=
  perform MuLock ;;; perform IncSkipped ;;; perform BarIncrement ;;;
  perform MuUnlock.

(** Either arm that copies: [copyAndVerifyObject], then the counter. *)
Definition copyAndCount (cfg : Config) (obj : types.Object)
  : Prog (option error) :=
  e <- copyAndVerifyObject (Bucket (Source cfg)) (Bucket (Destination cfg))
         (types.Key obj) (types.Size obj) (types.ETag obj) ;;
  match e with
  | Some err => Ret (Some err)
  | None => countCopied ;;; Ret None
  end.

(** The statements after [defer sem.Release(1)]. *)
Definition syncBody (cfg : Config) (obj : types.Object)
  : Prog (option error) :=
  let key := types.Key obj in
  r <- perform (Call destClient (HeadObject (Bucket (Destination cfg)) key)) ;;
  match r with
  | inr err =>
      if Contains err "NotFound" || Contains err "404"
      then copyAndCount cfg obj
      else Ret (Some ("failed to head destination object " +:+ key
                      +:+ ": " +:+ err))
  | inl headOutput =>
      if negb (s3.ContentLength headOutput =? types.Size obj)
         || negb (String.eqb (s3.ETag headOutput) (types.ETag obj))
      then copyAndCount cfg obj
      else countSkipped ;;; Ret None
  end.

Definition syncObject (cfg : Config) (obj : types.Object)
  : Prog (option error) :=
  a <- perform SemAcquire ;;
  match a with
  | Some err => Ret (Some ("failed to acquire semaphore for "
                           +:+ types.Key obj +:+ ": " +:+ err))
  | None => defer SemRelease (syncBody cfg obj)
  end.

(** ** [main] up to the fan-out *)

(** The two defaults applied after parsing. *)
Definition withDefaults (cfg : Config) : Config :=
  {| Source := Source cfg;
     Destination := Destination cfg;
     Concurrency := if Concurrency cfg <=? 0 then 10 else Concurrency cfg;
     MaxRetries := if MaxRetries cfg <=? 0 then 3 else MaxRetries cfg |}.

(** How the sequential part of [main] can end: [log.Fatalf], a panic,
    the listing loop still turning when the fuel is spent, or the
    complete list. *)
Inductive Startup :=
| Fatal (msg : string)
| Crashed (msg : string)
| Spinning
| Listed (objects : list types.Object).

(** The [for] loop over the pages of [ListObjectsV2]. *)
Fixpoint listObjects (fuel : nat) (bucket : string) (token : option string)
    (objects : list types.Object) : Prog Startup :=
  match fuel with
  | O => Ret Spinning
  | S fuel' =>
      r <- perform (Call sourceClient (ListObjectsV2 bucket token)) ;;
      match r with
      | inr err => Ret (Fatal ("Failed to list source objects: " +:+ err))
      | inl output =>
          let objects := (objects ++ s3.Contents output)%list in
          match s3.NextContinuationToken output with
          | None => Ret (Listed objects)
          | Some t =>
              if String.eqb t "" then Ret (Listed objects)
              else listObjects fuel' bucket (Some t) objects
          end
      end
  end.

Definition startup (fuel : nat) (cfg : Config) : Prog Startup :=
  o <- syncBucketConfig (Bucket (Source cfg)) (Bucket (Destination cfg)) ;;
  match o with
  | Returned (Some err) =>
      Ret (Fatal ("Failed to sync bucket configurations: " +:+ err))
  | Panicked msg => Ret (Crashed msg)
  | Returned None => listObjects fuel (Bucket (Source cfg)) None []
  end.

(** ** The fan-out: goroutines under [errgroup], [semaphore], [sync.Mutex]

    [g.Go] starts one goroutine per object at once; what bounds the
    work is the semaphore each closure acquires first.  A state of the
    run holds what the goroutines share and, for each goroutine, what
    it still has to do.  One step is one operation of one goroutine;
    the order of steps is left to a schedule.

    The library semantics follow the documentation of
    golang.org/x/sync and sync:
    - [Acquire(ctx, 1)] on a done context returns [ctx.Err()] and
      leaves the semaphore unchanged ("On failure, returns ctx.Err()
      and leaves the semaphore unchanged"); otherwise it takes a slot
      when one is free and blocks when none is;
    - [Release(1)] panics when more is released than is held;
    - [Lock] blocks while the mutex is held; [Unlock] of an unlocked
      mutex is a fatal error;
    - when the function of a goroutine returns a non-nil error for
      the first time, the group keeps it and cancels the context;
      [Wait] returns once every goroutine has returned. *)

Inductive Goroutine :=
| Running (p : Prog (option error))
| Finished (r : option error).

(** What a goroutine is seen doing: an operation with its answer, or
    returning from its function. *)
Inductive Obs :=
| Did (e : Event)
| Left (r : option error).

(** [copied], [skipped] and the bar's position never exceed
    [len(objects)], itself an [int]: no wrap-around arises and they
    are kept in [nat]. *)
Record Coord (W : Type) :=
  { world : W;
    sem_cur : Z;
    mu : bool;
    copied : nat;
    skipped : nat;
    bar : nat;
    g_err : option error;
    ctx_done : bool;
    crash : option string;
    goroutines : list Goroutine;
    trace : list (nat * Obs) (* newest first *) }.
Arguments world {W} _.
Arguments sem_cur {W} _.
Arguments mu {W} _.
Arguments copied {W} _.
Arguments skipped {W} _.
Arguments bar {W} _.
Arguments g_err {W} _.
Arguments ctx_done {W} _.
Arguments crash {W} _.
Arguments goroutines {W} _.
Arguments trace {W} _.

Definition contextCanceled : error := "context canceled".

Section Coordinator.
Context {W : Type} (h : Handler W).
(** The weight given to [semaphore.NewWeighted]. *)
Variable N : Z.

Definition with_world (w : W) (st : Coord W) : Coord W :=
  {| world := w; sem_cur := sem_cur st; mu := mu st; copied := copied st;
     skipped := skipped st; bar := bar st; g_err := g_err st;
     ctx_done := ctx_done st; crash := crash st;
     goroutines := goroutines st; trace := trace st |}.

Definition with_sem (c : Z) (st : Coord W) : Coord W :=
  {| world := world st; sem_cur := c; mu := mu st; copied := copied st;
     skipped := skipped st; bar := bar st; g_err := g_err st;
     ctx_done := ctx_done st; crash := crash st;
     goroutines := goroutines st; trace := trace st |}.

Definition with_mu (b : bool) (st : Coord W) : Coord W :=
  {| world := world st; sem_cur := sem_cur st; mu := b; copied := copied st;
     skipped := skipped st; bar := bar st; g_err := g_err st;
     ctx_done := ctx_done st; crash := crash st;
     goroutines := goroutines st; trace := trace st |}.

Definition with_counters (c s b : nat) (st : Coord W) : Coord W :=
  {| world := world st; sem_cur := sem_cur st; mu := mu st; copied := c;
     skipped := s; bar := b; g_err := g_err st;
     ctx_done := ctx_done st; crash := crash st;
     goroutines := goroutines st; trace := trace st |}.

Definition with_crash (msg : string) (st : Coord W) : Coord W :=
  {| world := world st; sem_cur := sem_cur st; mu := mu st;
     copied := copied st; skipped := skipped st; bar := bar st;
     g_err := g_err st; ctx_done := ctx_done st; crash := Some msg;
     goroutines := goroutines st; trace := trace st |}.

(** The effect of one operation on what is shared, and its answer;
    [None] when the operation blocks. *)
Definition exec (o : Op) (st : Coord W) : option (Resp o * Coord W) :=
  match o return option (Resp o * Coord W) with
  | Call c r =>
      let '(a, w) := h (Call c r) (world st) in Some (a, with_world w st)
  | SemAcquire =>
      if ctx_done st then Some (Some contextCanceled, st)
      else if sem_cur st + 1 <=? N
           then Some (None, with_sem (sem_cur st + 1) st)
           else None
  | SemRelease =>
      if sem_cur st - 1 <? 0
      then Some (tt, with_crash "semaphore: released more than held" st)
      else Some (tt, with_sem (sem_cur st - 1) st)
  | MuLock =>
      if mu st then None else Some (tt, with_mu true st)
  | MuUnlock =>
      if mu st then Some (tt, with_mu false st)
      else Some (tt, with_crash "fatal error: sync: unlock of unlocked mutex" st)
  | IncCopied =>
      Some (tt, with_counters (S (copied st)) (skipped st) (bar st) st)
  | IncSkipped =>
      Some (tt, with_counters (copied st) (S (skipped st)) (bar st) st)
  | BarIncrement =>
      Some (tt, with_counters (copied st) (skipped st) (S (bar st)) st)
  end.

(** Goroutine [i] goes on as [g], and [o] is recorded. *)
Definition advance (i : nat) (g : Goroutine) (o : Obs) (st : Coord W)
  : Coord W :=
  {| world := world st; sem_cur := sem_cur st; mu := mu st;
     copied := copied st; skipped := skipped st; bar := bar st;
     g_err := g_err st; ctx_done := ctx_done st; crash := crash st;
     goroutines := <[i := g]> (goroutines st);
     trace := (i, o) :: trace st |}.

(** The group's part when a function returns [r]: the first non-nil
    error is kept and the context cancelled. *)
Definition report (r : option error) (st : Coord W) : Coord W :=
  match r, g_err st with
  | Some e, None =>
      {| world := world st; sem_cur := sem_cur st; mu := mu st;
         copied := copied st; skipped := skipped st; bar := bar st;
         g_err := Some e; ctx_done := true; crash := crash st;
         goroutines := goroutines st; trace := trace st |}
  | _, _ => st
  end.

Definition step (i : nat) (st : Coord W) : option (Coord W) :=
  match crash st with
  | Some _ => None
  | None =>
      match goroutines st !! i with
      | Some (Running (Ret r)) =>
          Some (advance i (Finished r) (Left r) (report r st))
      | Some (Running (Vis o k)) =>
          match exec o st with
          | Some (a, st') => Some (advance i (Running (k a)) (Did (Ev o a)) st')
          | None => None
          end
      | _ => None
      end
  end.

(** A schedule names the goroutine to move next; a goroutine that
    cannot move lets its turn pass. *)
Fixpoint schedule (sched : list nat) (st : Coord W) : Coord W :=
  match sched with
  | [] => st
  | i :: sched' =>
      schedule sched' (match step i st with Some st' => st' | None => st end)
  end.

Definition finished (g : Goroutine) : bool :=
  match g with Finished _ => true | Running _ => false end.

(** [g.Wait()]: nothing until every goroutine has returned, then
    the group's error. *)
Definition wait (st : Coord W) : option (option error) :=
  if forallb finished (goroutines st) then Some (g_err st) else None.
End Coordinator.

(** The state right after the [for _, obj := range objects] loop. *)
Definition fanout {W : Type} (cfg : Config) (objects : list types.Object)
    (w : W) : Coord W :=
  {| world := w; sem_cur := 0; mu := false;
     copied := O; skipped := O; bar := O;
     g_err := None; ctx_done := false; crash := None;
     goroutines := map (fun obj => Running (syncObject cfg obj)) objects;
     trace := [] |}.

(** How [main] ends. *)
Inductive Result :=
| Stopped (s : Startup)     (* before the fan-out *)
| Waiting                   (* [g.Wait] has not returned yet *)
| Died (msg : string)       (* a panic inside the fan-out *)
| Failed (msg : string)     (* [log.Fatalf("Error during synchronization")] *)
| Completed (copied skipped : nat).

Definition conclude {W : Type} (st : Coord W) : Result :=
  match crash st with
  | Some msg => Died msg
  | None =>
      match wait st with
      | None => Waiting
      | Some (Some err) => Failed ("Error during synchronization: " +:+ err)
      | Some None => Completed (copied st) (skipped st)
      end
  end.

(** [main], from the parsed configuration on: the result, the events
    of the sequential part in order, and the trace of the fan-out. *)
Definition main {W : Type} (h : Handler W) (fuel : nat) (sched : list nat)
    (parsed : Config) (w : W) : Result * list Event * list (nat * Obs) :=
  let cfg := withDefaults parsed in
  let '(s, w1, evs) := run h (startup fuel cfg) w in
  match s with
  | Listed objects =>
      let st := schedule h (Concurrency cfg) sched (fanout cfg objects w1) in
      (conclude st, evs, trace st)
  | _ => (Stopped s, evs, [])
  end.

(** ** A small service to run the program against

    Two buckets held in memory, with the faults a test needs: what the
    source answers for its policy and its lifecycle rules, an optional
    error for every write of bucket configuration, and an optional
    entity tag that a server-side copy stamps on the new object in
    place of the source's. *)
Module Sim.
Record World :=
  { src : list types.Object;
    dst : list types.Object;
    policy : s3.GetBucketPolicyOutput + error;
    lifecycle : s3.GetBucketLifecycleConfigurationOutput + error;
    put_fault : option error;
    copy_tag : option string }.

Definition lookup (key : string) (b : list types.Object)
  : option types.Object :=
  find (fun o => String.eqb (types.Key o) key) b.

Definition store (o : types.Object) (b : list types.Object)
  : list types.Object :=
  o :: filter (fun o' => negb (String.eqb (types.Key o') (types.Key o))) b.

Definition head (key : string) (b : list types.Object)
  : s3.HeadObjectOutput + error :=
  match lookup key b with
  | Some o => inl {| s3.ContentLength := types.Size o;
                     s3.ETag := types.ETag o;
                     s3.StorageClass := "STANDARD";
                     s3.Metadata := [] |}
  | None => inr "api error NotFound: Not Found"
  end.

Definition put (w : World) : unit + error :=
  match put_fault w with
  | Some e => inr e
  | None => inl tt
  end.

Definition with_dst (b : list types.Object) (w : World) : World :=
  {| src := src w; dst := b; policy := policy w; lifecycle := lifecycle w;
     put_fault := put_fault w; copy_tag := copy_tag w |}.

Definition bucket (c : Client) (w : World) : list types.Object :=
  match c with sourceClient => src w | destClient => dst w end.

Definition call (c : Client) (r : Request) (w : World)
  : (Output r + error) * World :=
  match r return (Output r + error) * World with
  | CreateBucket _ => (inl {| s3.Location := None |}, w)
  | GetBucketPolicy _ => (policy w, w)
  | PutBucketPolicy _ _ => (put w, w)
  | GetBucketVersioning _ => (inl {| s3.Status := "Enabled" |}, w)
  | PutBucketVersioning _ _ => (put w, w)
  | GetBucketLifecycleConfiguration _ => (lifecycle w, w)
  | PutBucketLifecycleConfiguration _ _ => (put w, w)
  | ListObjectsV2 _ _ =>
      (inl {| s3.Contents := bucket c w; s3.NextContinuationToken := None |}, w)
  | HeadObject _ key => (head key (bucket c w), w)
  | GetObjectTagging _ _ => (inl {| s3.TagSet := [] |}, w)
  | CopyObject _ _ key _ _ =>
      match lookup key (src w) with
      | Some o =>
          let tag := match copy_tag w with
                     | Some t => t
                     | None => types.ETag o
                     end in
          (inl tt,
           with_dst (store {| types.Key := key; types.Size := types.Size o;
                              types.ETag := tag |} (dst w)) w)
      | None => (inr "api error NoSuchKey: The specified key does not exist.", w)
      end
  end.

(** For a program run on its own the semaphore is free and the
    mutex unlocked. *)
Definition handler : Handler World :=
  fun o =>
    match o return World -> Resp o * World with
    | Call c r => call c r
    | SemAcquire => fun w => (None, w)
    | _ => fun w => (tt, w)
    end.

Definition noPolicy : s3.GetBucketPolicyOutput + error :=
  inr "api error NoSuchBucketPolicy: The bucket policy does not exist".

Definition noLifecycle : s3.GetBucketLifecycleConfigurationOutput + error :=
  inr "api error NoSuchLifecycleConfiguration: The lifecycle configuration does not exist".

Definition account (bucket : string) : AccountConfig :=
  {| AccessKey := "AK"; SecretKey := "SK"; Region := "eu-west-1";
     Bucket := bucket |}.

Definition cfg : Config :=
  {| Source := account "src"; Destination := account "dst";
     Concurrency := 2; MaxRetries := 0 |}.

Definition obj (key : string) (size : Z) (tag : string) : types.Object :=
  {| types.Key := key; types.Size := size; types.ETag := tag |}.

(** The scenario of the specification: [a] absent, [b] current,
    [c] stale. *)
Definition abc : World :=
  {| src := [obj "a" 10 "t1"; obj "b" 20 "t2"; obj "c" 30 "t3"];
     dst := [obj "b" 20 "t2"; obj "c" 30 "old"];
     policy := noPolicy; lifecycle := noLifecycle;
     put_fault := None; copy_tag := None |}.
End Sim.

(** ** Classifying events *)

Definition requestOf (e : Event) : option (Client * Request) :=
  match ev_op e with
  | Call c r => Some (c, r)
  | _ => None
  end.

Definition writesPolicy (e : Event) : bool :=
  match requestOf e with
  | Some (_, PutBucketPolicy _ _) => true
  | _ => false
  end.

Definition writesLifecycle (e : Event) : bool :=
  match requestOf e with
  | Some (_, PutBucketLifecycleConfiguration _ _) => true
  | _ => false
  end.

Definition isCopy (e : Event) : bool :=
  match requestOf e with
  | Some (_, CopyObject _ _ _ _ _) => true
  | _ => false
  end.

(** Listing and everything done per object. *)
Definition objectWork (e : Event) : bool :=
  match requestOf e with
  | Some (_, ListObjectsV2 _ _) | Some (_, HeadObject _ _)
  | Some (_, GetObjectTagging _ _) | Some (_, CopyObject _ _ _ _ _) => true
  | _ => false
  end.

Definition isOp (o : Op) (e : Event) : bool :=
  match o, ev_op e with
  | SemAcquire, SemAcquire | SemRelease, SemRelease | MuLock, MuLock
  | MuUnlock, MuUnlock | IncCopied, IncCopied | IncSkipped, IncSkipped
  | BarIncrement, BarIncrement => true
  | _, _ => false
  end.

(** How often [o] (not a call) occurs in [evs]. *)
Fixpoint count (o : Op) (evs : list Event) : nat :=
  match evs with
  | [] => O
  | e :: evs' => ((if isOp o e then 1 else 0) + count o evs')%nat
  end.

(** The blocks of [syncBucketConfig] before the lifecycle block. *)
Definition beforeLifecycle (sourceBucket destBucket : string) : Prog Flow :=
  andThen (createBucketStep destBucket)
    (andThen (policyStep sourceBucket destBucket)
       (versioningStep sourceBucket destBucket)).

(** ** Worlds with one fault each *)
Module Faults.
Import Sim.

(** The source has a policy and the destination refuses the write. *)
Definition deniedPut : World :=
  {| src := src abc; dst := dst abc;
     policy := inl {| s3.Policy := Some "{}" |}; lifecycle := noLifecycle;
     put_fault := Some "api error AccessDenied: Access Denied";
     copy_tag := None |}.

(** The lifecycle fetch fails, and not for want of a configuration. *)
Definition brokenLifecycle : World :=
  {| src := src abc; dst := dst abc;
     policy := noPolicy;
     lifecycle := inr "api error InternalError: please retry";
     put_fault := None; copy_tag := None |}.

(** [GetBucketPolicy] succeeds and carries no policy document. *)
Definition emptyPolicy : World :=
  {| src := src abc; dst := dst abc;
     policy := inl {| s3.Policy := None |}; lifecycle := noLifecycle;
     put_fault := None; copy_tag := None |}.

(** [GetBucketLifecycleConfiguration] succeeds with no rule. *)
Definition emptyRules : World :=
  {| src := src abc; dst := dst abc;
     policy := noPolicy; lifecycle := inl {| s3.Rules := [] |};
     put_fault := None; copy_tag := None |}.

(** A copy that lands with another entity tag than the source's,
    as a multipart copy can. *)
Definition retagged : World :=
  {| src := src abc; dst := dst abc;
     policy := noPolicy; lifecycle := noLifecycle;
     put_fault := None; copy_tag := Some "t1-2" |}.
End Faults.

(** ** Vocabulary for the per-object unit *)

(** The four requests of a copy that got as far as the re-head, with
    the answer [r] of the re-head. *)
Definition copyEvents (sb db key : string) (h : s3.HeadObjectOutput)
    (t : s3.GetObjectTaggingOutput) (r : s3.HeadObjectOutput + error)
  : list Event :=
  [Ev (Call sourceClient (HeadObject sb key)) (inl h);
   Ev (Call sourceClient (GetObjectTagging sb key)) (inl t);
   Ev (Call destClient
         (CopyObject db (sb +:+ "/" +:+ key) key
            (s3.StorageClass h) (s3.Metadata h))) (inl tt);
   Ev (Call destClient (HeadObject db key)) r].

Definition countedCopied : list Event :=
  [Ev MuLock tt; Ev IncCopied tt; Ev BarIncrement tt; Ev MuUnlock tt].

Definition countedSkipped : list Event :=
  [Ev MuLock tt; Ev IncSkipped tt; Ev BarIncrement tt; Ev MuUnlock tt].

(** Counters and progress bar are touched only between [Lock] and
    [Unlock], and the mutex is free at the end. *)
Fixpoint guarded (locked : bool) (evs : list Event) : bool :=
  match evs with
  | [] => negb locked
  | e :: evs' =>
      match ev_op e with
      | MuLock => negb locked && guarded true evs'
      | MuUnlock => locked && guarded false evs'
      | IncCopied | IncSkipped | BarIncrement => locked && guarded locked evs'
      | _ => guarded locked evs'
      end
  end.

(** The change detector in the words of the specification: the
    decision for one object from the answer to the head request on
    the destination, or the hard error. *)
Inductive SyncDecision := Absent | Stale | Current.

Definition notFoundSignal (err : error) : Prop :=
  Contains err "NotFound" = true ∨ Contains err "404" = true.

#[global] Instance notFoundSignal_dec err : Decision (notFoundSignal err).
Proof. unfold notFoundSignal. apply _. Defined.

Definition detect (obj : types.Object) (r : s3.HeadObjectOutput + error)
  : SyncDecision + error :=
  match r with
  | inr err => if decide (notFoundSignal err) then inl Absent else inr err
  | inl out =>
      if decide (s3.ContentLength out ≠ types.Size obj
                 ∨ s3.ETag out ≠ types.ETag obj)
      then inl Stale
      else inl Current
  end.

(** Requests and operations can be told apart. *)
#[global] Instance LifecycleRule_eq_dec : EqDecision types.LifecycleRule.
Proof. solve_decision. Defined.
#[global] Instance Client_eq_dec : EqDecision Client.
Proof. solve_decision. Defined.
#[global] Instance Request_eq_dec : EqDecision Request.
Proof. solve_decision. Defined.
#[global] Instance Op_eq_dec : EqDecision Op.
Proof. solve_decision. Defined.

(** ** Reading a trace of the fan-out *)

(** A successful [Acquire]. *)
Definition acquired (e : Event) : bool :=
  match ev_op e as o return Resp o → bool with
  | SemAcquire => fun r => match r with None => true | Some _ => false end
  | _ => fun _ => false
  end (ev_resp e).

(** Goroutine [i] holds a slot of the semaphore: its last successful
    [Acquire] has not been followed by its [Release]. *)
Fixpoint holds (i : nat) (tr : list (nat * Obs)) : bool :=
  match tr with
  | [] => false
  | (j, o) :: tr' =>
      if Nat.eqb j i then
        match o with
        | Did e =>
            if acquired e then true
            else if isOp SemRelease e then false
            else holds i tr'
        | Left _ => holds i tr'
        end
      else holds i tr'
  end.

(** Goroutine [i] holds the mutex. *)
Fixpoint locked_by (i : nat) (tr : list (nat * Obs)) : bool :=
  match tr with
  | [] => false
  | (j, o) :: tr' =>
      if Nat.eqb j i then
        match o with
        | Did e =>
            if isOp MuLock e then true
            else if isOp MuUnlock e then false
            else locked_by i tr'
        | Left _ => locked_by i tr'
        end
      else locked_by i tr'
  end.

(** How many of the goroutines [0 .. n-1] hold a slot. *)
Fixpoint holders (n : nat) (tr : list (nat * Obs)) : nat :=
  match n with
  | O => O
  | S n' => ((if holds n' tr then 1 else 0) + holders n' tr)%nat
  end.

(** The events of goroutine [i], oldest first. *)
Fixpoint events_of (i : nat) (tr : list (nat * Obs)) : list Event :=
  match tr with
  | [] => []
  | (j, o) :: tr' =>
      (events_of i tr' ++
       match o with
       | Did e => if Nat.eqb j i then [e] else []
       | Left _ => []
       end)%list
  end.

(** All events, oldest first. *)
Fixpoint events (tr : list (nat * Obs)) : list Event :=
  match tr with
  | [] => []
  | (_, o) :: tr' =>
      (events tr' ++ match o with Did e => [e] | Left _ => [] end)%list
  end.

(** The error of the goroutine that was first to return one. *)
Fixpoint first_error (tr : list (nat * Obs)) : option error :=
  match tr with
  | [] => None
  | (_, o) :: tr' =>
      match first_error tr', o with
      | Some e, _ => Some e
      | None, Left (Some e) => Some e
      | None, _ => None
      end
  end.

(** ** The discipline of a goroutine

    Where a goroutine stands with respect to semaphore and mutex, and
    what it may do there: acquire outside, call the service and lock
    inside, count in the critical section, return outside. *)
Inductive Phase := Outside | Inside | Critical.

Definition next_phase (ph : Phase) (o : Op) : Resp o → option Phase :=
  match o return Resp o → option Phase with
  | SemAcquire => fun r =>
      match ph, r with
      | Outside, None => Some Inside
      | Outside, Some _ => Some Outside
      | _, _ => None
      end
  | SemRelease => fun _ =>
      match ph with Inside => Some Outside | _ => None end
  | MuLock => fun _ =>
      match ph with Inside => Some Critical | _ => None end
  | MuUnlock => fun _ =>
      match ph with Critical => Some Inside | _ => None end
  | IncCopied | IncSkipped | BarIncrement => fun _ =>
      match ph with Critical => Some Critical | _ => None end
  | Call _ _ => fun _ =>
      match ph with Inside => Some Inside | _ => None end
  end.

(** [p] started in phase [ph] keeps to the discipline and returns in
    phase [ph']. *)
Fixpoint moves {A : Type} (ph ph' : Phase) (p : Prog A) : Prop :=
  match p with
  | Ret _ => ph = ph'
  | Vis o k =>
      ∀ r, match next_phase ph o r with
           | Some ph1 => moves ph1 ph' (k r)
           | None => False
           end
  end.

(** A goroutine has to return outside. *)
Definition disciplined (ph : Phase) (p : Prog (option error)) : Prop :=
  moves ph Outside p.

(** The phase of goroutine [i] as the trace shows it. *)
Definition phase (i : nat) (tr : list (nat * Obs)) : Phase :=
  if locked_by i tr then Critical
  else if holds i tr then Inside
  else Outside.

(** [p] makes at most [n] operations. *)
Fixpoint within {A : Type} (n : nat) (p : Prog A) {struct p} : Prop :=
  match p with
  | Ret _ => True
  | Vis o k =>
      match n with
      | O => False
      | S n' => ∀ r, within n' (k r)
      end
  end.

(** The destination already holds every listed object with the
    listed size and entity tag, and goes on saying so when asked:
    [P] describes the states of the service in which it does. *)
Definition populated {W : Type} (h : Handler W) (cfg : Config)
    (objects : list types.Object) (P : W → Prop) : Prop :=
  ∀ obj w, P w → In obj objects →
    ∃ out w',
      h (Call destClient (HeadObject (Bucket (Destination cfg)) (types.Key obj))) w
      = (inl out, w') ∧
      P w' ∧
      s3.ContentLength out = types.Size obj ∧
      s3.ETag out = types.ETag obj.

(** The answers a run can get while the context is not done and the
    service is in a state of [P]. *)
Definition answers {W : Type} (h : Handler W) (P : W → Prop) (o : Op)
  : Resp o → Prop :=
  match o return Resp o → Prop with
  | Call c r => fun a => ∃ w, P w ∧ a = fst (h (Call c r) w)
  | SemAcquire => fun a => a = None
  | _ => fun _ => True
  end.

(** An operation that neither copies nor counts a copy, and leaves
    the service in a state of [P]. *)
Definition calm {W : Type} (h : Handler W) (P : W → Prop) (o : Op) : Prop :=
  match o with
  | Call c r =>
      (∀ w, P w → P (snd (h (Call c r) w)))
      ∧ match r with CopyObject _ _ _ _ _ => False | _ => True end
  | IncCopied => False
  | _ => True
  end.

(** [p] returns nil after [m] increments of [skipped] and calm
    operations only. *)
Fixpoint skips {W : Type} (h : Handler W) (P : W → Prop) (m : nat)
    (p : Prog (option error)) {struct p} : Prop :=
  match p with
  | Ret r => r = None ∧ m = O
  | Vis o k =>
      calm h P o
      ∧ ∀ a, answers h P o a →
             if isOp IncSkipped (Ev o a)
             then ∃ m', m = S m' ∧ skips h P m' (k a)
             else skips h P m (k a)
  end.

(** What the goroutines together still owe to [skipped]. *)
Inductive Owed {W : Type} (h : Handler W) (P : W → Prop)
  : list Goroutine → nat → Prop :=
| Owed_nil : Owed h P [] O
| Owed_running p m gs t :
    skips h P m p → Owed h P gs t → Owed h P (Running p :: gs) (m + t)
| Owed_finished gs t :
    Owed h P gs t → Owed h P (Finished None :: gs) t.

(** A run in which nothing has failed and nothing was copied. *)
Definition Idle {W : Type} (h : Handler W) (P : W → Prop) (n : nat)
    (st : Coord W) : Prop :=
  P (world st) ∧ ctx_done st = false ∧ g_err st = None ∧ copied st = O
  ∧ existsb isCopy (events (trace st)) = false
  ∧ ∃ owed, Owed h P (goroutines st) owed ∧ (skipped st + owed = n)%nat.

(** ** What holds in every state of the fan-out

    [n] goroutines under a semaphore of weight [N]. *)
Record Inv {W : Type} (N : Z) (n : nat) (st : Coord W) : Prop :=
  { inv_len : length (goroutines st) = n;
    inv_crash : crash st = None;
    inv_sem : sem_cur st = Z.of_nat (holders n (trace st));
    inv_cap : sem_cur st ≤ N;
    inv_mu_free : mu st = false → ∀ i, locked_by i (trace st) = false;
    inv_mu_held : mu st = true →
      ∃ i, locked_by i (trace st) = true
           ∧ ∀ j, locked_by j (trace st) = true → j = i;
    inv_lock_holds : ∀ i, locked_by i (trace st) = true →
                          holds i (trace st) = true;
    inv_gor : ∀ i,
      match goroutines st !! i with
      | Some (Running p) => disciplined (phase i (trace st)) p
      | Some (Finished _) | None => phase i (trace st) = Outside
      end }.

(** Whatever a goroutine did other than trying to acquire, it did
    while holding a slot. *)
Definition served (tr : list (nat * Obs)) : Prop :=
  ∀ later i e earlier,
    tr = (later ++ (i, Did e) :: earlier)%list →
    isOp SemAcquire e = false → holds i earlier = true.

(** A bound on the moves the goroutines still have to make: one per
    operation left and one for the return. *)
Inductive Budget : list Goroutine → nat → Prop :=
| Budget_nil : Budget [] O
| Budget_running p d gs m :
    within d p → Budget gs m → Budget (Running p :: gs) (S d + m)
| Budget_finished r gs m :
    Budget gs m → Budget (Finished r :: gs) m.

(** What the group and the counters record agrees with the trace. *)
Definition Booked {W : Type} (st : Coord W) : Prop :=
  g_err st = first_error (trace st)
  ∧ ctx_done st = match g_err st with Some _ => true | None => false end
  ∧ copied st = count IncCopied (events (trace st))
  ∧ skipped st = count IncSkipped (events (trace st))
  ∧ bar st = count BarIncrement (events (trace st)).

(** The destination mirrors the source of the scenario. *)
Definition synced : Sim.World :=
  {| Sim.src := Sim.src Sim.abc; Sim.dst := Sim.src Sim.abc;
     Sim.policy := Sim.noPolicy; Sim.lifecycle := Sim.noLifecycle;
     Sim.put_fault := None; Sim.copy_tag := None |}.

(** ** Tallies over the goroutines [0 .. n-1] *)

Fixpoint sum_upto (n : nat) (f : nat → nat) : nat :=
  match n with
  | O => O
  | S n' => (f n' + sum_upto n' f)%nat
  end.

(** Goroutine [i] has returned an error. *)
Definition failed (gs : list Goroutine) (i : nat) : bool :=
  match gs !! i with
  | Some (Finished (Some _)) => true
  | _ => false
  end.

(** How many goroutines have returned an error. *)
Definition failures (gs : list Goroutine) : nat :=
  sum_upto (length gs) (fun i => if failed gs i then 1%nat else O).

(** Every goroutine is somewhere on a path of the closure it was
    started with: what it has done so far, followed by anything it
    can still do, is a path of [syncObject] for its object; and only
    the goroutines of the run appear in the trace. *)
Definition Follows {W : Type} (cfg : Config) (objects : list types.Object)
    (st : Coord W) : Prop :=
  Forall (fun x => (fst x < length objects)%nat) (trace st)
  ∧ ∀ i obj, objects !! i = Some obj →
      match goroutines st !! i with
      | Some (Running p) =>
          ∀ evs r, path p evs r →
                   path (syncObject cfg obj) (events_of i (trace st) ++ evs) r
      | Some (Finished r) =>
          path (syncObject cfg obj) (events_of i (trace st)) r
      | None => False
      end.

(** ** Further vocabulary *)

(** The blocks of [syncBucketConfig] before the versioning block. *)
Definition beforeVersioning (sourceBucket destBucket : string) : Prog Flow :=
  andThen (createBucketStep destBucket) (policyStep sourceBucket destBucket).

(** Requests that change what they address. *)
Definition isWrite (r : Request) : bool :=
  match r with
  | CreateBucket _ | PutBucketPolicy _ _ | PutBucketVersioning _ _
  | PutBucketLifecycleConfiguration _ _ | CopyObject _ _ _ _ _ => true
  | _ => false
  end.

(** The bucket a request addresses. *)
Definition bucketOf (r : Request) : string :=
  match r with
  | CreateBucket b | GetBucketPolicy b | PutBucketPolicy b _
  | GetBucketVersioning b | PutBucketVersioning b _
  | GetBucketLifecycleConfiguration b
  | PutBucketLifecycleConfiguration b _ | ListObjectsV2 b _
  | HeadObject b _ | GetObjectTagging b _ | CopyObject b _ _ _ _ => b
  end.

(** An event that respects the direction of the synchronization: the
    source client only reads, and reads the source bucket; the
    destination client is only asked about the destination bucket. *)
Definition oneWay (sb db : string) (e : Event) : Prop :=
  match requestOf e with
  | None => True
  | Some (sourceClient, r) => isWrite r = false ∧ bucketOf r = sb
  | Some (destClient, r) => bucketOf r = db
  end.

(** Every operation [p] can make satisfies [Q]. *)
Fixpoint only {A : Type} (Q : Event → Prop) (p : Prog A) : Prop :=
  match p with
  | Ret _ => True
  | Vis o k => ∀ a, Q (Ev o a) ∧ only Q (k a)
  end.

(** How many events of [evs] satisfy [Q]. *)
Fixpoint tally (Q : Event → bool) (evs : list Event) : nat :=
  match evs with
  | [] => O
  | e :: evs' => ((if Q e then 1 else 0) + tally Q evs')%nat
  end.

Definition isCall (e : Event) : bool :=
  match requestOf e with Some _ => true | None => false end.

(** The requests of a listing whose pages were [outs], from the
    cursor [token] on: each request carries the cursor the page
    before it returned. *)
Fixpoint pages (bucket : string) (token : option string)
    (outs : list s3.ListObjectsV2Output) : list Event :=
  match outs with
  | [] => []
  | out :: outs' =>
      Ev (Call sourceClient (ListObjectsV2 bucket token)) (inl out)
      :: pages bucket (s3.NextContinuationToken out) outs'
  end.

(** The cursor after the pages [outs]. *)
Fixpoint cursor (token : option string) (outs : list s3.ListObjectsV2Output)
  : option string :=
  match outs with
  | [] => token
  | out :: outs' => cursor (s3.NextContinuationToken out) outs'
  end.

(** The page announces another one: its cursor is neither nil nor
    empty. *)
Definition continues (out : s3.ListObjectsV2Output) : bool :=
  match s3.NextContinuationToken out with
  | Some t => negb (String.eqb t "")
  | None => false
  end.

(** A counter or bar increment. *)
Definition isCount (e : Event) : bool :=
  isOp IncCopied e || isOp IncSkipped e || isOp BarIncrement e.

(** Whatever was counted was counted by the goroutine that held the
    mutex. *)
Definition countedLocked (tr : list (nat * Obs)) : Prop :=
  ∀ later i e earlier,
    tr = (later ++ (i, Did e) :: earlier)%list →
    isCount e = true → locked_by i earlier = true.

(** ** A source that lists in two pages *)
Module Paging.
Definition page (k : nat) : s3.ListObjectsV2Output :=
  match k with
  | O => {| s3.Contents := [Sim.obj "a" 10 "t1"; Sim.obj "b" 20 "t2"];
            s3.NextContinuationToken := Some "p2" |}
  | _ => {| s3.Contents := [Sim.obj "c" 30 "t3"];
            s3.NextContinuationToken := None |}
  end.

(** The state is the number of pages served so far. *)
Definition call (r : Request) (k : nat) : (Output r + error) * nat :=
  match r return (Output r + error) * nat with
  | ListObjectsV2 _ _ => (inl (page k), S k)
  | _ => (inr "api error NotImplemented", k)
  end.

Definition handler : Handler nat :=
  fun o =>
    match o return nat → Resp o * nat with
    | Call _ r => call r
    | SemAcquire => fun k => (None, k)
    | _ => fun k => (tt, k)
    end.
End Paging.

(** Some answer to each operation. *)
Definition anyResp (o : Op) : Resp o :=
  match o return Resp o with
  | Call _ _ => inr ""
  | SemAcquire => None
  | _ => tt
  end.

(** While the group has kept no error, whoever has returned has
    returned nil. *)
Definition Unfailed {W : Type} (st : Coord W) : Prop :=
  g_err st = None →
  ∀ i r, goroutines st !! i = Some (Finished r) → r = None.

(** The destination was seen to hold the object as listed, and no
    request followed. *)
Definition seenAsListed (db : string) (obj : types.Object)
    (evs : list Event) : Prop :=
  ∃ pre v post,
    evs = (pre ++ Ev (Call destClient (HeadObject db (types.Key obj))) (inl v)
           :: post)%list ∧
    s3.ContentLength v = types.Size obj ∧
    s3.ETag v = types.ETag obj ∧
    tally isCall post = O.

(** A request about one object. *)
Definition perObject (e : Event) : bool :=
  match requestOf e with
  | Some (_, HeadObject _ _) | Some (_, GetObjectTagging _ _)
  | Some (_, CopyObject _ _ _ _ _) => true
  | _ => false
  end.

(** The event is no request, or a request about the object [key]
    (and, for a copy, from [sb/key]). *)
Definition aboutKey (sb key : string) (e : Event) : Prop :=
  match requestOf e with
  | None => True
  | Some (_, HeadObject _ k) | Some (_, GetObjectTagging _ k) => k = key
  | Some (_, CopyObject _ from k _ _) =>
      k = key ∧ from = sb +:+ "/" +:+ key
  | Some _ => False
  end.

(** * Properties *)

(** ** Reading programs *)

Lemma run_path {W A : Type} (h : Handler W) (p : Prog A) (w w' : W)
    (a : A) (evs : list Event) :
  run h p w = (a, w', evs) → path p evs a.
Proof.
  revert w w' a evs.
  induction p as [a0 | o k IH]; intros w w' a evs; simpl.
  - intros [= <- _ <-]. split; reflexivity.
  - destruct (h o w) as [r w1].
    destruct (run h (k r) w1) as [[a1 w2] evs1] eqn:E.
    intros [= <- _ <-]. exists r, evs1. split; [reflexivity |].
    eapply IH, E.
Qed.

Lemma path_bind {A B : Type} (p : Prog A) (f : A → Prog B)
    (evs : list Event) (b : B) :
  path (bind p f) evs b ↔
  ∃ evs1 a evs2, path p evs1 a ∧ path (f a) evs2 b ∧ evs = (evs1 ++ evs2)%list.
Proof.
  revert evs. induction p as [a0 | o k IH]; intros evs; simpl.
  - split.
    + intros H. exists [], a0, evs. repeat split; assumption.
    + intros (evs1 & a & evs2 & [-> ->] & H & ->). exact H.
  - split.
    + intros (r & evs' & -> & H). apply IH in H.
      destruct H as (evs1 & a & evs2 & H1 & H2 & ->).
      exists (Ev o r :: evs1), a, evs2. repeat split; try assumption.
      exists r, evs1. split; [reflexivity | assumption].
    + intros (evs1 & a & evs2 & (r & evs' & -> & H1) & H2 & ->).
      exists r, (evs' ++ evs2)%list. split; [reflexivity |].
      apply IH. exists evs', a, evs2. repeat split; assumption.
Qed.

Lemma path_andThen (p q : Prog Flow) (evs : list Event) (f : Flow) :
  path (andThen p q) evs f ↔
  (∃ o, path p evs (Exit o) ∧ f = Exit o)
  ∨ (∃ evs1 evs2, path p evs1 Next ∧ path q evs2 f ∧ evs = (evs1 ++ evs2)%list).
Proof.
  unfold andThen. rewrite path_bind. split.
  - intros (evs1 & [| o] & evs2 & H1 & H2 & ->).
    + right. exists evs1, evs2. repeat split; assumption.
    + left. simpl in H2. destruct H2 as [-> ->].
      rewrite app_nil_r. exists o. split; [assumption | reflexivity].
  - intros [(o & H & ->) | (evs1 & evs2 & H1 & H2 & ->)].
    + exists evs, (Exit o), []. rewrite app_nil_r. repeat split; assumption.
    + exists evs1, Next, evs2. repeat split; assumption.
Qed.

(** Breaks a hypothesis [path (Vis o k) evs a] into the answer and
    the rest of the path. *)
Ltac path_step H :=
  let r := fresh "r" in
  let evs := fresh "evs" in
  cbn [path bind perform] in H;
  destruct H as (r & evs & -> & H).

(** The same for an operation that answers nothing. *)
Ltac path_unit H :=
  let r := fresh "r" in
  let evs := fresh "evs" in
  cbn [path bind perform] in H;
  destruct H as (r & evs & -> & H); destruct r.

Ltac path_end H :=
  cbn [path bind perform fail] in H; destruct H as [-> ->].
Lemma run_bind {W A B : Type} (h : Handler W) (p : Prog A) (f : A → Prog B)
    (w : W) :
  run h (bind p f) w =
  let '(a, w1, evs1) := run h p w in
  let '(b, w2, evs2) := run h (f a) w1 in
  (b, w2, (evs1 ++ evs2)%list).
Proof.
  revert w. induction p as [a | o k IH]; intros w; simpl.
  - destruct (run h (f a) w) as [[b w2] evs2]. reflexivity.
  - destruct (h o w) as [r w1]. rewrite IH.
    destruct (run h (k r) w1) as [[a w2] evs1].
    destruct (run h (f a) w2) as [[b w3] evs2]. reflexivity.
Qed.

Lemma path_andThen_assoc (p q r : Prog Flow) (evs : list Event) (f : Flow) :
  path (andThen p (andThen q r)) evs f ↔ path (andThen (andThen p q) r) evs f.
Proof.
  rewrite !path_andThen. split.
  - intros [(o & H & ->) | (evs1 & evs2 & H1 & H2 & ->)].
    + left. exists o. split; [| reflexivity].
      apply path_andThen. left. exists o. split; [assumption | reflexivity].
    + apply path_andThen in H2.
      destruct H2 as [(o & H2 & ->) | (evs3 & evs4 & H2 & H3 & ->)].
      * left. exists o. split; [| reflexivity].
        apply path_andThen. right. exists evs1, evs2. repeat split; assumption.
      * right. exists (evs1 ++ evs3)%list, evs4.
        split; [| split; [assumption | apply app_assoc]].
        apply path_andThen. right. exists evs1, evs3. repeat split; assumption.
  - intros [(o & H & ->) | (evs1 & evs2 & H1 & H2 & ->)].
    + apply path_andThen in H.
      destruct H as [(o' & H & [= <-]) | (evs3 & evs4 & H & H' & ->)].
      * left. exists o. split; [assumption | reflexivity].
      * right. exists evs3, evs4. split; [assumption |]. split; [| reflexivity].
        apply path_andThen. left. exists o. split; [assumption | reflexivity].
    + apply path_andThen in H1.
      destruct H1 as [(o' & H & [=]) | (evs3 & evs4 & H & H' & ->)].
      right. exists evs3, (evs4 ++ evs2)%list.
      split; [assumption |]. split; [| symmetry; apply app_assoc].
      apply path_andThen. right. exists evs4, evs2. repeat split; assumption.
Qed.

Lemma main_stops {W : Type} (h : Handler W) (fuel : nat) (sched : list nat)
    (parsed : Config) (w w' : W) (o : Outcome) (evs : list Event) :
  run h (syncBucketConfig (Bucket (Source (withDefaults parsed)))
           (Bucket (Destination (withDefaults parsed)))) w = (o, w', evs) →
  o ≠ Returned None →
  main h fuel sched parsed w =
  (Stopped match o with
           | Returned (Some err) =>
               Fatal ("Failed to sync bucket configurations: " +:+ err)
           | Returned None => Spinning
           | Panicked msg => Crashed msg
           end, evs, []).
Proof.
  intros Hrun Ho. unfold main, startup. rewrite run_bind, Hrun.
  destruct o as [[err |] | msg]; simpl; try reflexivity.
  - rewrite app_nil_r. reflexivity.
  - congruence.
  - rewrite app_nil_r. reflexivity.
Qed.

(** ** The blocks of [syncBucketConfig] *)

Lemma createBucketStep_path db evs f :
  path (createBucketStep db) evs f →
  ∃ r, evs = [Ev (Call destClient (CreateBucket db)) r].
Proof.
  unfold createBucketStep. intros H. path_step H.
  exists r. destruct r as [out | err].
  - path_end H. reflexivity.
  - destruct (_ && _); path_end H; reflexivity.
Qed.

Lemma policyStep_path sb db evs f :
  path (policyStep sb db) evs f →
  ∃ r rest,
    evs = Ev (Call sourceClient (GetBucketPolicy sb)) r :: rest ∧
    match r with
    | inr err =>
        rest = [] ∧
        f = if Contains err "NoSuchBucketPolicy" then Next
            else Exit (Returned (Some ("failed to get source bucket policy for "
                                       +:+ sb +:+ ": " +:+ err)))
    | inl out =>
        match s3.Policy out with
        | Some policy =>
            ∃ r', rest = [Ev (Call destClient (PutBucketPolicy db policy)) r'] ∧
                  f = match r' with
                      | inr err =>
                          Exit (Returned (Some ("failed to sync bucket policy for "
                                                +:+ db +:+ ": " +:+ err)))
                      | inl _ => Next
                      end
        | None => rest = [] ∧ f = Exit (Panicked nilDereference)
        end
    end.
Proof.
  unfold policyStep. intros H. path_step H.
  exists r, evs0. split; [reflexivity |].
  destruct r as [out | err].
  - destruct (s3.Policy out) as [policy |].
    + path_step H. exists r. destruct r; path_end H; split; reflexivity.
    + path_end H. split; reflexivity.
  - destruct (Contains err "NoSuchBucketPolicy"); path_end H; split; reflexivity.
Qed.

Lemma versioningStep_path sb db evs f :
  path (versioningStep sb db) evs f →
  ∃ r rest,
    evs = Ev (Call sourceClient (GetBucketVersioning sb)) r :: rest ∧
    match r with
    | inr err =>
        rest = [] ∧
        f = Exit (Returned (Some ("failed to get source bucket versioning for "
                                  +:+ sb +:+ ": " +:+ err)))
    | inl out =>
        ∃ r', rest = [Ev (Call destClient
                            (PutBucketVersioning db (s3.Status out))) r'] ∧
              f = match r' with
                  | inr err =>
                      Exit (Returned (Some ("failed to sync bucket versioning for "
                                            +:+ db +:+ ": " +:+ err)))
                  | inl _ => Next
                  end
    end.
Proof.
  unfold versioningStep. intros H. path_step H.
  exists r, evs0. split; [reflexivity |].
  destruct r as [out | err].
  - path_step H. exists r. destruct r; path_end H; split; reflexivity.
  - path_end H. split; reflexivity.
Qed.

Lemma lifecycleStep_path sb db evs f :
  path (lifecycleStep sb db) evs f →
  ∃ r rest,
    evs = Ev (Call sourceClient (GetBucketLifecycleConfiguration sb)) r :: rest ∧
    match r with
    | inr err =>
        rest = [] ∧
        f = if Contains err "NoSuchLifecycleConfiguration" then Next
            else Exit (Returned (Some
                   ("failed to get source lifecycle configuration for "
                    +:+ sb +:+ ": " +:+ err)))
    | inl out =>
        match s3.Rules out with
        | _ :: _ =>
            ∃ r', rest = [Ev (Call destClient
                     (PutBucketLifecycleConfiguration db (s3.Rules out))) r'] ∧
                  f = match r' with
                      | inr err =>
                          Exit (Returned (Some ("failed to sync lifecycle rules for "
                                                +:+ db +:+ ": " +:+ err)))
                      | inl _ => Next
                      end
        | [] => rest = [] ∧ f = Exit (Panicked nilDereference)
        end
    end.
Proof.
  unfold lifecycleStep. intros H. path_step H.
  exists r, evs0. split; [reflexivity |].
  destruct r as [out | err].
  - destruct (s3.Rules out) as [| rule rules].
    + path_end H. split; reflexivity.
    + path_step H. exists r. destruct r; path_end H; split; reflexivity.
  - destruct (Contains err "NoSuchLifecycleConfiguration"); path_end H;
      split; reflexivity.
Qed.

(** Which requests each block can make. *)
Lemma createBucketStep_quiet db evs f (P : Event → bool) :
  (∀ r, P (Ev (Call destClient (CreateBucket db)) r) = false) →
  path (createBucketStep db) evs f → existsb P evs = false.
Proof.
  intros HP H. apply createBucketStep_path in H. destruct H as [r ->].
  simpl. rewrite HP. reflexivity.
Qed.

Lemma policyStep_quiet sb db evs f (P : Event → bool) :
  (∀ r, P (Ev (Call sourceClient (GetBucketPolicy sb)) r) = false) →
  (∀ p r, P (Ev (Call destClient (PutBucketPolicy db p)) r) = false) →
  path (policyStep sb db) evs f → existsb P evs = false.
Proof.
  intros HG HP H. apply policyStep_path in H.
  destruct H as (r & rest & -> & H). simpl. rewrite HG. simpl.
  destruct r as [out | err].
  - destruct (s3.Policy out).
    + destruct H as (r' & -> & _). simpl. rewrite HP. reflexivity.
    + destruct H as [-> _]. reflexivity.
  - destruct H as [-> _]. reflexivity.
Qed.

Lemma versioningStep_quiet sb db evs f (P : Event → bool) :
  (∀ r, P (Ev (Call sourceClient (GetBucketVersioning sb)) r) = false) →
  (∀ s r, P (Ev (Call destClient (PutBucketVersioning db s)) r) = false) →
  path (versioningStep sb db) evs f → existsb P evs = false.
Proof.
  intros HG HP H. apply versioningStep_path in H.
  destruct H as (r & rest & -> & H). simpl. rewrite HG. simpl.
  destruct r as [out | err].
  - destruct H as (r' & -> & _). simpl. rewrite HP. reflexivity.
  - destruct H as [-> _]. reflexivity.
Qed.

Lemma lifecycleStep_quiet sb db evs f (P : Event → bool) :
  (∀ r, P (Ev (Call sourceClient (GetBucketLifecycleConfiguration sb)) r) = false) →
  (∀ l r, P (Ev (Call destClient (PutBucketLifecycleConfiguration db l)) r) = false) →
  path (lifecycleStep sb db) evs f → existsb P evs = false.
Proof.
  intros HG HP H. apply lifecycleStep_path in H.
  destruct H as (r & rest & -> & H). simpl. rewrite HG. simpl.
  destruct r as [out | err].
  - destruct (s3.Rules out).
    + destruct H as [-> _]. reflexivity.
    + destruct H as (r' & -> & _). simpl. rewrite HP. reflexivity.
  - destruct H as [-> _]. reflexivity.
Qed.

Lemma andThen_quiet (p q : Prog Flow) (P : Event → bool) :
  (∀ evs f, path p evs f → existsb P evs = false) →
  (∀ evs f, path q evs f → existsb P evs = false) →
  ∀ evs f, path (andThen p q) evs f → existsb P evs = false.
Proof.
  intros Hp Hq evs f H. apply path_andThen in H.
  destruct H as [(o & H & _) | (evs1 & evs2 & H1 & H2 & ->)].
  - eapply Hp, H.
  - rewrite existsb_app, (Hp _ _ H1), (Hq _ _ H2). reflexivity.
Qed.

(** ** Bucket configuration *)

Lemma syncBucketConfig_path sb db evs o :
  path (syncBucketConfig sb db) evs o ↔
  ∃ f, path (andThen (createBucketStep db)
               (andThen (policyStep sb db)
                  (andThen (versioningStep sb db) (lifecycleStep sb db)))) evs f
       ∧ o = finish f.
Proof.
  unfold syncBucketConfig. rewrite path_bind. split.
  - intros (evs1 & f & evs2 & H & [-> ->] & ->). rewrite app_nil_r. eauto.
  - intros (f & H & ->). exists evs, f, []. rewrite app_nil_r.
    repeat split. assumption.
Qed.

(** C7.  The bucket-policy block of [syncBucketConfig], once the
    create-bucket block has fallen through, and whatever the service
    answers.  When the fetch fails with an error that mentions
    [NoSuchBucketPolicy], no policy is written anywhere in the run and
    the function goes on with the versioning block.  When the fetch
    yields a policy document, the next request writes that very
    document to the destination bucket; if the write fails the
    function returns an error, otherwise it goes on.  Any other fetch
    error makes the function return an error.  An error returned by
    [syncBucketConfig] ends [main] in [log.Fatalf] with nothing done
    after it. *)
Theorem policy_step_contract {W : Type} (h : Handler W) (fuel : nat)
    (sched : list nat) (parsed : Config) (w w' : W) (o : Outcome)
    (evs : list Event) :
  let sb := Bucket (Source (withDefaults parsed)) in
  let db := Bucket (Destination (withDefaults parsed)) in
  run h (syncBucketConfig sb db) w = (o, w', evs) →
  ((∃ o', path (createBucketStep db) evs (Exit o') ∧ o = o')
   ∨ ∃ evs0 r rest,
       path (createBucketStep db) evs0 Next ∧
       evs = (evs0 ++ Ev (Call sourceClient (GetBucketPolicy sb)) r :: rest)%list ∧
       match r with
       | inr err =>
           if Contains err "NoSuchBucketPolicy"
           then existsb writesPolicy evs = false ∧
                ∃ f, path (andThen (versioningStep sb db) (lifecycleStep sb db))
                       rest f ∧ o = finish f
           else rest = [] ∧
                o = Returned (Some ("failed to get source bucket policy for "
                                    +:+ sb +:+ ": " +:+ err))
       | inl out =>
           match s3.Policy out with
           | Some policy =>
               ∃ r' rest',
                 rest = Ev (Call destClient (PutBucketPolicy db policy)) r' :: rest' ∧
                 match r' with
                 | inr err =>
                     rest' = [] ∧
                     o = Returned (Some ("failed to sync bucket policy for "
                                         +:+ db +:+ ": " +:+ err))
                 | inl _ =>
                     ∃ f, path (andThen (versioningStep sb db)
                                  (lifecycleStep sb db)) rest' f ∧ o = finish f
                 end
           | None => rest = [] ∧ o = Panicked nilDereference
           end
       end)
  ∧ ∀ err, o = Returned (Some err) →
      main h fuel sched parsed w =
      (Stopped (Fatal ("Failed to sync bucket configurations: " +:+ err)), evs, []).
Proof.
  intros sb db Hrun. split.
  2: { intros err ->. apply (main_stops h fuel sched parsed w w' _ evs Hrun).
       discriminate. }
  apply run_path, syncBucketConfig_path in Hrun.
  destruct Hrun as (f & H & ->).
  apply path_andThen in H.
  destruct H as [(o' & H & ->) | (evs0 & evs1 & H0 & H & ->)].
  { left. exists o'. split; [assumption | reflexivity]. }
  right. apply path_andThen in H.
  destruct H as [(o' & H & ->) | (evs2 & evs3 & H1 & H & ->)].
  - apply policyStep_path in H. destruct H as (r & rest & -> & H).
    exists evs0, r, rest. split; [assumption |]. split; [reflexivity |].
    destruct r as [out | err].
    + destruct (s3.Policy out) as [policy |].
      * destruct H as (r' & -> & H). exists r', []. split; [reflexivity |].
        destruct r' as [u | err]; [discriminate |].
        injection H as <-. split; reflexivity.
      * destruct H as [-> [= <-]]. split; reflexivity.
    + destruct H as [-> H].
      destruct (Contains err "NoSuchBucketPolicy"); [discriminate |].
      injection H as <-. split; reflexivity.
  - pose proof H1 as H1'. apply policyStep_path in H1.
    destruct H1 as (r & rest & -> & H1).
    exists evs0, r, (rest ++ evs3)%list. split; [assumption |].
    split; [reflexivity |].
    destruct r as [out | err].
    + destruct (s3.Policy out) as [policy |].
      * destruct H1 as (r' & -> & H1). exists r', evs3. split; [reflexivity |].
        destruct r' as [u | err]; [| discriminate]. eauto.
      * destruct H1 as [_ [=]].
    + destruct H1 as [-> H1].
      destruct (Contains err "NoSuchBucketPolicy"); [| discriminate].
      split; [| eauto].
      rewrite existsb_app.
      rewrite (createBucketStep_quiet db evs0 Next writesPolicy); [| reflexivity | assumption].
      simpl.
      eapply andThen_quiet; [| | exact H].
      * intros evs' f'. apply versioningStep_quiet; reflexivity.
      * intros evs' f'. apply lifecycleStep_quiet; reflexivity.
Qed.

Lemma beforeLifecycle_quiet sb db evs f :
  path (beforeLifecycle sb db) evs f → existsb writesLifecycle evs = false.
Proof.
  unfold beforeLifecycle.
  apply andThen_quiet; [| apply andThen_quiet].
  - intros evs' f'. apply createBucketStep_quiet. reflexivity.
  - intros evs' f'. apply policyStep_quiet; reflexivity.
  - intros evs' f'. apply versioningStep_quiet; reflexivity.
Qed.

(** C8.  The lifecycle block of [syncBucketConfig], once the blocks
    before it have fallen through, and whatever the service answers.
    When the fetch fails with an error that mentions
    [NoSuchLifecycleConfiguration], the function returns nil and the
    whole run of it contains no lifecycle write.  When the fetch
    yields a non-empty rule list, the next and last request writes
    that very list to the destination bucket, and the function returns
    an error exactly when the write fails.  Any other fetch error
    makes the function return an error.  An error returned by
    [syncBucketConfig] ends [main] in [log.Fatalf] with nothing done
    after it. *)
Theorem lifecycle_step_contract {W : Type} (h : Handler W) (fuel : nat)
    (sched : list nat) (parsed : Config) (w w' : W) (o : Outcome)
    (evs : list Event) :
  let sb := Bucket (Source (withDefaults parsed)) in
  let db := Bucket (Destination (withDefaults parsed)) in
  run h (syncBucketConfig sb db) w = (o, w', evs) →
  ((∃ o', path (beforeLifecycle sb db) evs (Exit o') ∧ o = o')
   ∨ ∃ evs0 r rest,
       path (beforeLifecycle sb db) evs0 Next ∧
       evs = (evs0 ++ Ev (Call sourceClient
                            (GetBucketLifecycleConfiguration sb)) r :: rest)%list ∧
       match r with
       | inr err =>
           if Contains err "NoSuchLifecycleConfiguration"
           then rest = [] ∧ existsb writesLifecycle evs = false ∧
                o = Returned None
           else rest = [] ∧
                o = Returned (Some
                      ("failed to get source lifecycle configuration for "
                       +:+ sb +:+ ": " +:+ err))
       | inl out =>
           match s3.Rules out with
           | _ :: _ =>
               ∃ r',
                 rest = [Ev (Call destClient
                          (PutBucketLifecycleConfiguration db (s3.Rules out))) r'] ∧
                 o = match r' with
                     | inr err =>
                         Returned (Some ("failed to sync lifecycle rules for "
                                         +:+ db +:+ ": " +:+ err))
                     | inl _ => Returned None
                     end
           | [] => rest = [] ∧ o = Panicked nilDereference
           end
       end)
  ∧ ∀ err, o = Returned (Some err) →
      main h fuel sched parsed w =
      (Stopped (Fatal ("Failed to sync bucket configurations: " +:+ err)), evs, []).
Proof.
  intros sb db Hrun. split.
  2: { intros err ->. apply (main_stops h fuel sched parsed w w' _ evs Hrun).
       discriminate. }
  apply run_path, syncBucketConfig_path in Hrun.
  destruct Hrun as (f & H & ->).
  assert (H' : path (andThen (beforeLifecycle sb db) (lifecycleStep sb db)) evs f).
  { unfold beforeLifecycle. apply path_andThen_assoc.
    apply path_andThen in H. apply path_andThen.
    destruct H as [(o' & H & ->) | (evs0 & evs1 & H0 & H & ->)].
    - left. eauto.
    - right. exists evs0, evs1. split; [assumption |]. split; [| reflexivity].
      apply path_andThen_assoc, H. }
  clear H. apply path_andThen in H'.
  destruct H' as [(o' & H & ->) | (evs0 & evs1 & H0 & H & ->)].
  { left. exists o'. split; [assumption | reflexivity]. }
  right. apply lifecycleStep_path in H. destruct H as (r & rest & -> & H).
  exists evs0, r, rest. split; [assumption |]. split; [reflexivity |].
  destruct r as [out | err].
  - destruct (s3.Rules out) as [| rule rules].
    + destruct H as [-> ->]. split; reflexivity.
    + destruct H as (r' & -> & ->). exists r'. split; [reflexivity |].
      destruct r'; reflexivity.
  - destruct H as [-> ->].
    destruct (Contains err "NoSuchLifecycleConfiguration").
    + split; [reflexivity |]. split; [| reflexivity].
      rewrite existsb_app, (beforeLifecycle_quiet sb db evs0 Next H0).
      reflexivity.
    + split; reflexivity.
Qed.

Lemma policy_step_contract_witness :
  run Sim.handler (syncBucketConfig "src" "dst") Faults.deniedPut =
  (Returned (Some "failed to sync bucket policy for dst: api error AccessDenied: Access Denied"),
   Faults.deniedPut,
   snd (run Sim.handler (syncBucketConfig "src" "dst") Faults.deniedPut))
  ∧ main Sim.handler 5 [] Sim.cfg Faults.deniedPut =
    (Stopped (Fatal "Failed to sync bucket configurations: failed to sync bucket policy for dst: api error AccessDenied: Access Denied"),
     snd (run Sim.handler (syncBucketConfig "src" "dst") Faults.deniedPut), []).
Proof.
  split; [reflexivity |].
  exact (proj2 (policy_step_contract Sim.handler 5 [] Sim.cfg
                  Faults.deniedPut Faults.deniedPut _ _ eq_refl) _ eq_refl).
Defined.

Lemma lifecycle_step_contract_witness :
  run Sim.handler (syncBucketConfig "src" "dst") Faults.brokenLifecycle =
  (Returned (Some "failed to get source lifecycle configuration for src: api error InternalError: please retry"),
   Faults.brokenLifecycle,
   snd (run Sim.handler (syncBucketConfig "src" "dst") Faults.brokenLifecycle))
  ∧ main Sim.handler 5 [] Sim.cfg Faults.brokenLifecycle =
    (Stopped (Fatal "Failed to sync bucket configurations: failed to get source lifecycle configuration for src: api error InternalError: please retry"),
     snd (run Sim.handler (syncBucketConfig "src" "dst") Faults.brokenLifecycle), []).
Proof.
  split; [reflexivity |].
  exact (proj2 (lifecycle_step_contract Sim.handler 5 [] Sim.cfg
                  Faults.brokenLifecycle Faults.brokenLifecycle _ _ eq_refl)
           _ eq_refl).
Defined.

(** C10.  [syncBucketConfig] does not return on every answer of the
    optional fetches.  When [GetBucketPolicy] succeeds without a
    policy document, or [GetBucketLifecycleConfiguration] succeeds
    with an empty rule list, the [else if] branch calls [err.Error()]
    on the nil [err]: the function panics and [main] dies with it. *)
Theorem syncBucketConfig_nil_error :
  run Sim.handler (syncBucketConfig "src" "dst") Faults.emptyPolicy =
  (Panicked nilDereference, Faults.emptyPolicy,
   [Ev (Call destClient (CreateBucket "dst")) (inl {| s3.Location := None |});
    Ev (Call sourceClient (GetBucketPolicy "src")) (inl {| s3.Policy := None |})])
  ∧ fst (fst (run Sim.handler (syncBucketConfig "src" "dst") Faults.emptyRules)) =
    Panicked nilDereference
  ∧ fst (fst (main Sim.handler 5 [] Sim.cfg Faults.emptyPolicy)) =
    Stopped (Crashed nilDereference)
  ∧ fst (fst (main Sim.handler 5 [] Sim.cfg Faults.emptyRules)) =
    Stopped (Crashed nilDereference).
Proof. repeat split. Qed.

(** ** The per-object unit *)

Lemma copyAndVerifyObject_path sb db key size tag evs res :
  path (copyAndVerifyObject sb db key size tag) evs res →
  (∃ err, evs = [Ev (Call sourceClient (HeadObject sb key)) (inr err)] ∧
          res = Some ("failed to head source object " +:+ key +:+ ": " +:+ err))
  ∨ (∃ h err,
       evs = [Ev (Call sourceClient (HeadObject sb key)) (inl h);
              Ev (Call sourceClient (GetObjectTagging sb key)) (inr err)] ∧
       res = Some ("failed to get source object tags for " +:+ key
                   +:+ ": " +:+ err))
  ∨ (∃ h t err,
       evs = [Ev (Call sourceClient (HeadObject sb key)) (inl h);
              Ev (Call sourceClient (GetObjectTagging sb key)) (inl t);
              Ev (Call destClient
                    (CopyObject db (sb +:+ "/" +:+ key) key
                       (s3.StorageClass h) (s3.Metadata h))) (inr err)] ∧
       res = Some ("failed to copy object " +:+ key +:+ ": " +:+ err))
  ∨ (∃ h t err,
       evs = copyEvents sb db key h t (inr err) ∧
       res = Some ("failed to verify copied object " +:+ key +:+ ": " +:+ err))
  ∨ (∃ h t v,
       evs = copyEvents sb db key h t (inl v) ∧
       (s3.ContentLength v ≠ size ∨ s3.ETag v ≠ tag) ∧
       res = Some (verificationFailed key size (s3.ContentLength v)
                     tag (s3.ETag v)))
  ∨ (∃ h t v,
       evs = copyEvents sb db key h t (inl v) ∧
       s3.ContentLength v = size ∧ s3.ETag v = tag ∧ res = None).
Proof.
  unfold copyAndVerifyObject. intros H.
  path_step H. destruct r as [h | err].
  2: { path_end H. left. eauto. }
  path_step H. destruct r as [t | err].
  2: { path_end H. right; left. eauto. }
  path_step H. destruct r as [[] | err].
  2: { path_end H. do 2 right; left. eauto. }
  path_step H. destruct r as [v | err].
  2: { path_end H. do 3 right; left. exists h, t, err. split; reflexivity. }
  destruct (Z.eqb_spec (s3.ContentLength v) size) as [Hs | Hs];
    destruct (String.eqb_spec (s3.ETag v) tag) as [Ht | Ht];
    cbn [negb orb] in H; path_end H.
  - do 5 right. exists h, t, v. repeat split; assumption.
  - do 4 right; left. exists h, t, v. split; [reflexivity |]. split; auto.
  - do 4 right; left. exists h, t, v. split; [reflexivity |]. split; auto.
  - do 4 right; left. exists h, t, v. split; [reflexivity |]. split; auto.
Qed.

Lemma countCopied_path evs u : path countCopied evs u → evs = countedCopied.
Proof.
  unfold countCopied. intros H.
  do 4 path_unit H.
  path_end H. reflexivity.
Qed.

Lemma countSkipped_path evs u : path countSkipped evs u → evs = countedSkipped.
Proof.
  unfold countSkipped. intros H.
  do 4 path_unit H.
  path_end H. reflexivity.
Qed.

Lemma copyAndCount_path cfg obj evs res :
  path (copyAndCount cfg obj) evs res →
  ∃ cp e,
    path (copyAndVerifyObject (Bucket (Source cfg)) (Bucket (Destination cfg))
            (types.Key obj) (types.Size obj) (types.ETag obj)) cp e ∧
    match e with
    | Some err => evs = cp ∧ res = Some err
    | None => evs = (cp ++ countedCopied)%list ∧ res = None
    end.
Proof.
  unfold copyAndCount. intros H. apply path_bind in H.
  destruct H as (cp & e & evs2 & H1 & H2 & ->).
  exists cp, e. split; [assumption |].
  destruct e as [err |].
  - path_end H2. rewrite app_nil_r. split; reflexivity.
  - apply path_bind in H2. destruct H2 as (evs3 & u & evs4 & H2 & H3 & ->).
    apply countCopied_path in H2. subst evs3. path_end H3.
    rewrite app_nil_r. split; reflexivity.
Qed.

Lemma syncBody_path cfg obj evs res :
  path (syncBody cfg obj) evs res →
  ∃ r work,
    evs = Ev (Call destClient
                (HeadObject (Bucket (Destination cfg)) (types.Key obj))) r :: work ∧
    match detect obj r with
    | inr err =>
        work = [] ∧
        res = Some ("failed to head destination object " +:+ types.Key obj
                    +:+ ": " +:+ err)
    | inl Current => work = countedSkipped ∧ res = None
    | inl _ => path (copyAndCount cfg obj) work res
    end.
Proof.
  unfold syncBody. intros H. path_step H. exists r, evs0.
  split; [reflexivity |]. unfold detect. destruct r as [out | err].
  - destruct (Z.eqb_spec (s3.ContentLength out) (types.Size obj)) as [Hs | Hs];
      destruct (String.eqb_spec (s3.ETag out) (types.ETag obj)) as [Ht | Ht];
      cbn [negb orb] in H.
    + rewrite decide_False by tauto.
      apply path_bind in H. destruct H as (e1 & u & e2 & H1 & H2 & ->).
      apply countSkipped_path in H1. subst e1. path_end H2.
      rewrite app_nil_r. split; reflexivity.
    + rewrite decide_True by tauto. assumption.
    + rewrite decide_True by tauto. assumption.
    + rewrite decide_True by tauto. assumption.
  - destruct (decide (notFoundSignal err)) as [Hn | Hn].
    + replace (Contains err "NotFound" || Contains err "404") with true in H;
        [assumption |].
      destruct Hn as [-> | ->]; [reflexivity | symmetry; apply orb_true_r].
    + replace (Contains err "NotFound" || Contains err "404") with false in H.
      * path_end H. split; reflexivity.
      * unfold notFoundSignal in Hn.
        destruct (Contains err "NotFound"), (Contains err "404");
          try reflexivity; exfalso; apply Hn; auto.
Qed.

Lemma syncObject_path cfg obj evs res :
  path (syncObject cfg obj) evs res →
  (∃ err, evs = [Ev SemAcquire (Some err)] ∧
          res = Some ("failed to acquire semaphore for " +:+ types.Key obj
                      +:+ ": " +:+ err))
  ∨ ∃ body, evs = (Ev SemAcquire None :: body ++ [Ev SemRelease tt])%list ∧
            path (syncBody cfg obj) body res.
Proof.
  unfold syncObject. intros H. path_step H. destruct r as [err |].
  - path_end H. left. eauto.
  - right. unfold defer in H. apply path_bind in H.
    destruct H as (body & a & evs2 & H1 & H2 & ->).
    path_unit H2. path_end H2. eauto.
Qed.

(** Every way a unit can go, as event lists. *)
Lemma syncObject_shapes cfg obj evs res :
  path (syncObject cfg obj) evs res →
  let sb := Bucket (Source cfg) in
  let db := Bucket (Destination cfg) in
  let key := types.Key obj in
  (∃ err, evs = [Ev SemAcquire (Some err)] ∧
          res = Some ("failed to acquire semaphore for " +:+ key +:+ ": " +:+ err))
  ∨ ∃ r work,
      evs = (Ev SemAcquire None :: Ev (Call destClient (HeadObject db key)) r
             :: work ++ [Ev SemRelease tt])%list ∧
      match detect obj r with
      | inr err =>
          work = [] ∧
          res = Some ("failed to head destination object " +:+ key
                      +:+ ": " +:+ err)
      | inl Current => work = countedSkipped ∧ res = None
      | inl _ =>
          ∃ cp e,
            path (copyAndVerifyObject sb db key (types.Size obj) (types.ETag obj))
              cp e ∧
            match e with
            | Some err => work = cp ∧ res = Some err
            | None => work = (cp ++ countedCopied)%list ∧ res = None
            end
      end.
Proof.
  intros H sb db key. apply syncObject_path in H.
  destruct H as [H | (body & -> & H)]; [left; exact H | right].
  apply syncBody_path in H. destruct H as (r & work & -> & H).
  exists r, work. split; [reflexivity |].
  destruct (detect obj r) as [[| |] | err]; try exact H;
    apply copyAndCount_path, H.
Qed.

Lemma Ev_inj (o : Op) (r r' : Resp o) : Ev o r = Ev o r' → r = r'.
Proof.
  intros H. injection H as H.
  apply (Eqdep_dec.inj_pair2_eq_dec _ (λ x y : Op, decide (x = y))) in H.
  exact H.
Qed.

(** Matches a known event list against [pre ++ ...]. *)
Ltac align pre :=
  unfold copyEvents in *;
  repeat (destruct pre as [| ? pre]; simplify_eq /=);
  repeat match goal with
         | H : Ev ?o _ = Ev ?o _ |- _ => apply Ev_inj in H
         end;
  simplify_eq /=.

Ltac copy_cases H :=
  apply copyAndVerifyObject_path in H;
  destruct H as [(?err & -> & ->) | [(?h & ?err & -> & ->)
    | [(?h & ?t & ?err & -> & ->) | [(?h & ?t & ?err & -> & ->)
    | [(?h & ?t & ?v & -> & ?Hne & ->) | (?h & ?t & ?v & -> & ?Hs & ?Ht & ->)]]]]].

(** The three ways a unit of work can go, in counts. *)
Lemma unit_outcomes cfg obj evs res :
  path (syncObject cfg obj) evs res →
  guarded false evs = true
  ∧ ((res = None ∧ count IncCopied evs = 1%nat ∧ count IncSkipped evs = 0%nat
      ∧ count BarIncrement evs = 1%nat
      ∧ ∃ pre, evs = (pre ++ countedCopied ++ [Ev SemRelease tt])%list)
     ∨ (res = None ∧ count IncCopied evs = 0%nat ∧ count IncSkipped evs = 1%nat
        ∧ count BarIncrement evs = 1%nat
        ∧ ∃ pre, evs = (pre ++ countedSkipped ++ [Ev SemRelease tt])%list)
     ∨ (∃ err, res = Some err ∧ count IncCopied evs = 0%nat
        ∧ count IncSkipped evs = 0%nat ∧ count BarIncrement evs = 0%nat)).
Proof.
  intros H. apply syncObject_shapes in H.
  destruct H as [(err & -> & ->) | (r & work & -> & H)].
  { split; [reflexivity |]. right; right. eexists. repeat split. }
  destruct (detect obj r) as [[| |] | err].
  - destruct H as (cp & e & Hcp & H). copy_cases Hcp; destruct H as [-> ->];
      (split; [reflexivity |]).
    1-5: right; right; eexists; repeat split.
    left. repeat split. eexists (_ :: _ :: copyEvents _ _ _ h t (inl v)). reflexivity.
  - destruct H as (cp & e & Hcp & H). copy_cases Hcp; destruct H as [-> ->];
      (split; [reflexivity |]).
    1-5: right; right; eexists; repeat split.
    left. repeat split. eexists (_ :: _ :: copyEvents _ _ _ h t (inl v)). reflexivity.
  - destruct H as [-> ->]. split; [reflexivity |].
    right; left. repeat split. exists [Ev SemAcquire None; Ev (Call destClient (HeadObject (Bucket (Destination cfg)) (types.Key obj))) r].
    reflexivity.
  - destruct H as [-> ->]. split; [reflexivity |].
    right; right. eexists. repeat split.
Qed.

(** C1.  One unit of work, whatever the answers.  If [copied] was
    incremented, then the unit's last requests were the four of
    [copyAndVerifyObject], the copy succeeded, and the re-head of the
    destination that followed it reported the size and entity tag of
    the listed object [obj], the values handed in by the caller (the
    head of the source made inside the worker, [h], plays no part).
    If a re-head after a copy reports another size or tag, the unit
    returns the verification error and touches neither counter nor
    the bar.  And no unit that returns an error increments [copied]. *)
Theorem verification_gating cfg obj evs res :
  path (syncObject cfg obj) evs res →
  let sb := Bucket (Source cfg) in
  let db := Bucket (Destination cfg) in
  let key := types.Key obj in
  (count IncCopied evs ≠ 0%nat →
   ∃ pre h t v,
     evs = (pre ++ copyEvents sb db key h t (inl v) ++ countedCopied
            ++ [Ev SemRelease tt])%list ∧
     s3.ContentLength v = types.Size obj ∧ s3.ETag v = types.ETag obj ∧
     res = None)
  ∧ (∀ pre h t v post,
       evs = (pre ++ copyEvents sb db key h t (inl v) ++ post)%list →
       s3.ContentLength v ≠ types.Size obj ∨ s3.ETag v ≠ types.ETag obj →
       res = Some (verificationFailed key (types.Size obj) (s3.ContentLength v)
                     (types.ETag obj) (s3.ETag v)) ∧
       count IncCopied evs = 0%nat ∧ count IncSkipped evs = 0%nat ∧
       count BarIncrement evs = 0%nat)
  ∧ ((∃ err, res = Some err) → count IncCopied evs = 0%nat).
Proof.
  intros H sb db key. apply syncObject_shapes in H. fold sb db key in H.
  assert (Hnone : ∀ l : list Event, count IncCopied l = 0%nat →
            (count IncCopied l ≠ 0%nat →
             ∃ pre h t v,
               l = (pre ++ copyEvents sb db key h t (inl v) ++ countedCopied
                    ++ [Ev SemRelease tt])%list ∧
               s3.ContentLength v = types.Size obj ∧
               s3.ETag v = types.ETag obj ∧ res = None)
            ∧ ((∃ err, res = Some err) → count IncCopied l = 0%nat)).
  { intros l Hl. split; [intros []; exact Hl | intros _; exact Hl]. }
  destruct H as [(err & -> & ->) | (r & work & -> & H)].
  { destruct (Hnone [Ev SemAcquire (Some err)] eq_refl) as [H1 H2].
    split; [exact H1 |]. split; [| exact H2].
    intros pre h t v post Heq _. exfalso.
    align pre. }
  destruct (detect obj r) as [[| |] | err].
  1, 2: destruct H as (cp & e & Hcp & H); copy_cases Hcp; destruct H as [-> ->].
  1-4, 7-10:
    (match goal with
     | |- (count _ ?l ≠ _ → _) ∧ _ =>
         destruct (Hnone l eq_refl) as [H1 H2]
     end;
     split; [exact H1 |]; split; [| exact H2];
     intros pre h' t' v' post Heq _; exfalso;
     align pre).
  1, 3:
    (match goal with
     | |- (count _ ?l ≠ _ → _) ∧ _ =>
         destruct (Hnone l eq_refl) as [H1 H2]
     end;
     split; [exact H1 |]; split; [| exact H2];
     intros pre h' t' v' post Heq Hne';
     align pre;
     repeat split).
  1, 2:
    (split;
     [intros _; eexists [_; _], h, t, v; repeat split; assumption |];
     split; [| intros [err [=]]];
     intros pre h' t' v' post Heq Hne'; exfalso;
     align pre;
     destruct Hne' as [Hne' | Hne']; apply Hne'; assumption).
  - destruct H as [-> ->].
    destruct (Hnone (Ev SemAcquire None
                     :: Ev (Call destClient (HeadObject db key)) r
                     :: (countedSkipped ++ [Ev SemRelease tt])%list) eq_refl)
      as [H1 H2].
    split; [exact H1 |]. split; [| exact H2].
    intros pre h t v post Heq _. exfalso.
    align pre.
  - destruct H as [-> ->].
    destruct (Hnone [Ev SemAcquire None;
                     Ev (Call destClient (HeadObject db key)) r;
                     Ev SemRelease tt] eq_refl) as [H1 H2].
    split; [exact H1 |]. split; [| exact H2].
    intros pre h t v post Heq _. exfalso.
    align pre.
Qed.

Lemma verification_gating_witness :
  path (syncObject Sim.cfg (Sim.obj "a" 10 "t1"))
    (snd (run Sim.handler (syncObject Sim.cfg (Sim.obj "a" 10 "t1"))
            Faults.retagged))
    (Some (verificationFailed "a" 10 10 "t1" "t1-2"))
  ∧ count IncCopied
      (snd (run Sim.handler (syncObject Sim.cfg (Sim.obj "a" 10 "t1"))
              Faults.retagged)) = 0%nat.
Proof.
  assert (H : path (syncObject Sim.cfg (Sim.obj "a" 10 "t1"))
                (snd (run Sim.handler (syncObject Sim.cfg (Sim.obj "a" 10 "t1"))
                        Faults.retagged))
                (Some (verificationFailed "a" 10 10 "t1" "t1-2"))).
  { eapply (run_path Sim.handler _ Faults.retagged). reflexivity. }
  split; [exact H |].
  apply (proj2 (proj2 (verification_gating _ _ _ _ H))). eexists. reflexivity.
Defined.


(** C2.  One unit of work that got its slot, whatever the answers.
    Its first request is the head of the destination object, and what
    follows is fixed by the decision the specification's change
    detector [detect] takes on the answer.  A hard error: nothing more
    is requested and the unit returns the error.  [Absent] or
    [Stale]: the unit runs [copyAndVerifyObject] on the listed size
    and tag, returns its error if it has one and otherwise counts the
    object as copied.  [Current]: the unit counts the object as
    skipped and requests no copy. *)
Theorem change_decision cfg obj evs res :
  path (syncObject cfg obj) evs res →
  let sb := Bucket (Source cfg) in
  let db := Bucket (Destination cfg) in
  let key := types.Key obj in
  (∃ err, evs = [Ev SemAcquire (Some err)] ∧
          res = Some ("failed to acquire semaphore for " +:+ key +:+ ": " +:+ err))
  ∨ ∃ r work,
      evs = (Ev SemAcquire None :: Ev (Call destClient (HeadObject db key)) r
             :: work ++ [Ev SemRelease tt])%list ∧
      match detect obj r with
      | inr err =>
          work = [] ∧
          res = Some ("failed to head destination object " +:+ key
                      +:+ ": " +:+ err)
      | inl Current =>
          work = countedSkipped ∧ res = None ∧
          existsb isCopy evs = false ∧ count IncSkipped evs = 1%nat
      | inl _ =>
          ∃ cp e,
            path (copyAndVerifyObject sb db key (types.Size obj) (types.ETag obj))
              cp e ∧
            match e with
            | Some err => work = cp ∧ res = Some err
            | None => work = (cp ++ countedCopied)%list ∧ res = None
            end
      end.
Proof.
  intros H sb db key. apply syncObject_shapes in H.
  destruct H as [H | (r & work & -> & H)]; [left; exact H | right].
  exists r, work. split; [reflexivity |].
  destruct (detect obj r) as [[| |] | err]; try exact H.
  destruct H as [-> ->]. repeat split.
Qed.

Lemma change_decision_witness :
  path (syncObject Sim.cfg (Sim.obj "c" 30 "t3"))
    (snd (run Sim.handler (syncObject Sim.cfg (Sim.obj "c" 30 "t3")) Sim.abc))
    None
  ∧ detect (Sim.obj "c" 30 "t3") (Sim.head "c" (Sim.dst Sim.abc)) = inl Stale
  ∧ ((∃ err,
        snd (run Sim.handler (syncObject Sim.cfg (Sim.obj "c" 30 "t3")) Sim.abc)
        = [Ev SemAcquire (Some err)] ∧
        None = Some ("failed to acquire semaphore for c: " +:+ err))
     ∨ ∃ r work,
         snd (run Sim.handler (syncObject Sim.cfg (Sim.obj "c" 30 "t3")) Sim.abc)
         = (Ev SemAcquire None :: Ev (Call destClient (HeadObject "dst" "c")) r
            :: work ++ [Ev SemRelease tt])%list ∧
         match detect (Sim.obj "c" 30 "t3") r with
         | inr err =>
             work = [] ∧
             None = Some ("failed to head destination object c: " +:+ err)
         | inl Current =>
             work = countedSkipped ∧ @None error = None ∧
             existsb isCopy
               (snd (run Sim.handler (syncObject Sim.cfg (Sim.obj "c" 30 "t3"))
                       Sim.abc)) = false ∧
             count IncSkipped
               (snd (run Sim.handler (syncObject Sim.cfg (Sim.obj "c" 30 "t3"))
                       Sim.abc)) = 1%nat
         | inl _ =>
             ∃ cp e,
               path (copyAndVerifyObject "src" "dst" "c" 30 "t3") cp e ∧
               match e with
               | Some err => work = cp ∧ None = Some err
               | None => work = (cp ++ countedCopied)%list ∧ @None error = None
               end
         end).
Proof.
  assert (H : path (syncObject Sim.cfg (Sim.obj "c" 30 "t3"))
                (snd (run Sim.handler (syncObject Sim.cfg (Sim.obj "c" 30 "t3"))
                        Sim.abc)) None).
  { eapply (run_path Sim.handler _ Sim.abc). reflexivity. }
  split; [exact H |]. split; [reflexivity |].
  exact (change_decision _ _ _ _ H).
Defined.

(** ** The fan-out: discipline of the goroutines *)

Lemma moves_bind {A B : Type} (ph ph1 ph2 : Phase) (p : Prog A) (f : A → Prog B) :
  moves ph ph1 p → (∀ a, moves ph1 ph2 (f a)) → moves ph ph2 (bind p f).
Proof.
  revert ph. induction p as [a | o k IH]; intros ph Hp Hf; simpl in *.
  - subst ph1. apply Hf.
  - intros r. specialize (Hp r). destruct (next_phase ph o r); [| assumption].
    apply IH; assumption.
Qed.

Lemma moves_copyAndVerifyObject sb db key size tag :
  moves Inside Inside (copyAndVerifyObject sb db key size tag).
Proof.
  unfold copyAndVerifyObject.
  cbn. intros [h | err]; [| reflexivity].
  cbn. intros [t | err]; [| reflexivity].
  cbn. intros [[] | err]; [| reflexivity].
  cbn. intros [v | err]; [| reflexivity].
  destruct (_ || _); reflexivity.
Qed.

Lemma moves_countCopied : moves Inside Inside countCopied.
Proof. cbn. intros _ _ _ _. reflexivity. Qed.

Lemma moves_countSkipped : moves Inside Inside countSkipped.
Proof. cbn. intros _ _ _ _. reflexivity. Qed.

Lemma moves_copyAndCount cfg obj : moves Inside Inside (copyAndCount cfg obj).
Proof.
  unfold copyAndCount.
  eapply moves_bind; [apply moves_copyAndVerifyObject |].
  intros [err |]; [reflexivity |].
  eapply moves_bind; [apply moves_countCopied | reflexivity].
Qed.

Lemma moves_syncBody cfg obj : moves Inside Inside (syncBody cfg obj).
Proof.
  unfold syncBody. cbn -[copyAndCount countSkipped].
  intros [out | err]; cbn -[copyAndCount countSkipped].
  - destruct (_ || _); [apply moves_copyAndCount |].
    eapply moves_bind; [apply moves_countSkipped | reflexivity].
  - destruct (_ || _); [apply moves_copyAndCount | reflexivity].
Qed.

Lemma disciplined_syncObject cfg obj : disciplined Outside (syncObject cfg obj).
Proof.
  unfold disciplined, syncObject. cbn -[defer syncBody].
  intros [err |]; [reflexivity |].
  unfold defer. eapply moves_bind; [apply moves_syncBody |].
  intros a. cbn. intros _. reflexivity.
Qed.

(** ** The fan-out: the invariant and its preservation *)

Lemma holders_same n tr tr' :
  (∀ j, (j < n)%nat → holds j tr' = holds j tr) →
  holders n tr' = holders n tr.
Proof.
  induction n as [| n IH]; intros H; simpl; [reflexivity |].
  rewrite H by lia. rewrite IH; [reflexivity |].
  intros j Hj. apply H. lia.
Qed.

Lemma holders_on n i tr tr' :
  (i < n)%nat → holds i tr = false → holds i tr' = true →
  (∀ j, j ≠ i → holds j tr' = holds j tr) →
  holders n tr' = S (holders n tr).
Proof.
  induction n as [| n IH]; intros Hi Hoff Hon Hother; [lia |].
  simpl. destruct (decide (i = n)) as [-> | Hne].
  - rewrite Hoff, Hon. simpl. f_equal. apply holders_same.
    intros j Hj. apply Hother. lia.
  - rewrite (Hother n) by congruence. rewrite IH; [lia | lia | assumption ..].
Qed.

Lemma holders_off n i tr tr' :
  (i < n)%nat → holds i tr = true → holds i tr' = false →
  (∀ j, j ≠ i → holds j tr' = holds j tr) →
  S (holders n tr') = holders n tr.
Proof.
  intros Hi Hon Hoff Hother. symmetry. apply (holders_on n i); try assumption.
  intros j Hj. symmetry. apply Hother, Hj.
Qed.

Lemma holds_other i j o tr : j ≠ i → holds j ((i, o) :: tr) = holds j tr.
Proof.
  intros H. simpl. destruct (Nat.eqb_spec i j); [congruence | reflexivity].
Qed.

Lemma locked_other i j o tr : j ≠ i → locked_by j ((i, o) :: tr) = locked_by j tr.
Proof.
  intros H. simpl. destruct (Nat.eqb_spec i j); [congruence | reflexivity].
Qed.

Lemma phase_other i j o tr : j ≠ i → phase j ((i, o) :: tr) = phase j tr.
Proof.
  intros H. unfold phase. rewrite holds_other, locked_other by assumption.
  reflexivity.
Qed.

Lemma holds_here i o tr :
  holds i ((i, o) :: tr) =
  match o with
  | Did e => if acquired e then true
             else if isOp SemRelease e then false else holds i tr
  | Left _ => holds i tr
  end.
Proof. simpl. rewrite Nat.eqb_refl. reflexivity. Qed.

Lemma locked_here i o tr :
  locked_by i ((i, o) :: tr) =
  match o with
  | Did e => if isOp MuLock e then true
             else if isOp MuUnlock e then false else locked_by i tr
  | Left _ => locked_by i tr
  end.
Proof. simpl. rewrite Nat.eqb_refl. reflexivity. Qed.

Lemma inv_fanout {W : Type} (N : Z) cfg objects (w : W) :
  0 ≤ N → Inv N (length objects) (fanout cfg objects w).
Proof.
  intros HN. split; simpl.
  - apply length_map.
  - reflexivity.
  - induction (length objects) as [| n IH]; simpl; [reflexivity | exact IH].
  - exact HN.
  - reflexivity.
  - discriminate.
  - discriminate.
  - intros i. rewrite list_lookup_fmap.
    destruct (objects !! i); simpl; [apply disciplined_syncObject | reflexivity].
Qed.

Section Steps.
Context {W : Type} (h : Handler W) (N : Z) (n : nat).

(** The goroutines other than [i] after [i] has moved. *)
Lemma inv_gor_step (st : Coord W) i g ob gs tr :
  Inv N n st → (i < n)%nat →
  gs = <[i := g]> (goroutines st) → tr = (i, ob) :: trace st →
  match g with
  | Running p => disciplined (phase i tr) p
  | Finished _ => phase i tr = Outside
  end →
  ∀ j, match gs !! j with
       | Some (Running p) => disciplined (phase j tr) p
       | Some (Finished _) | None => phase j tr = Outside
       end.
Proof.
  intros HI Hi -> -> Hg j. destruct (decide (j = i)) as [-> | Hne].
  - rewrite list_lookup_insert_eq by (rewrite (inv_len _ _ _ HI); exact Hi).
    exact Hg.
  - rewrite list_lookup_insert_ne by congruence.
    rewrite phase_other by assumption. apply (inv_gor _ _ _ HI).
Qed.

(** A move that changes neither slot nor lock of anybody. *)
Lemma inv_quiet (st st' : Coord W) i g ob :
  Inv N n st → (i < n)%nat →
  length (goroutines st') = n → crash st' = None →
  sem_cur st' = sem_cur st → mu st' = mu st →
  goroutines st' = <[i := g]> (goroutines st) →
  trace st' = (i, ob) :: trace st →
  holds i (trace st') = holds i (trace st) →
  locked_by i (trace st') = locked_by i (trace st) →
  match g with
  | Running p => disciplined (phase i (trace st)) p
  | Finished _ => phase i (trace st) = Outside
  end →
  Inv N n st'.
Proof.
  intros HI Hi Hlen Hcrash Hsem Hmu Hgs Htr Hh Hl Hg.
  assert (HH : ∀ j, holds j (trace st') = holds j (trace st)).
  { intros j. destruct (decide (j = i)) as [-> | Hne]; [exact Hh |].
    rewrite Htr. apply holds_other, Hne. }
  assert (HL : ∀ j, locked_by j (trace st') = locked_by j (trace st)).
  { intros j. destruct (decide (j = i)) as [-> | Hne]; [exact Hl |].
    rewrite Htr. apply locked_other, Hne. }
  assert (HP : ∀ j, phase j (trace st') = phase j (trace st)).
  { intros j. unfold phase. rewrite HH, HL. reflexivity. }
  split.
  - exact Hlen.
  - exact Hcrash.
  - rewrite Hsem, (inv_sem _ _ _ HI). f_equal. symmetry.
    apply holders_same. intros j _. apply HH.
  - rewrite Hsem. apply (inv_cap _ _ _ HI).
  - rewrite Hmu. intros Hf j. rewrite HL. apply (inv_mu_free _ _ _ HI Hf).
  - rewrite Hmu. intros Ht. destruct (inv_mu_held _ _ _ HI Ht) as (j & Hj & Hu).
    exists j. rewrite HL. split; [exact Hj |].
    intros j'. rewrite HL. apply Hu.
  - intros j. rewrite HH, HL. apply (inv_lock_holds _ _ _ HI).
  - eapply inv_gor_step; try eassumption.
    rewrite HP. exact Hg.
Qed.

Lemma phase_call (st : Coord W) i p :
  goroutines st !! i = Some (Running p) → Inv N n st →
  (i < n)%nat ∧ disciplined (phase i (trace st)) p.
Proof.
  intros Hi HI. split.
  - rewrite <- (inv_len _ _ _ HI). eapply lookup_lt_Some, Hi.
  - pose proof (inv_gor _ _ _ HI i) as H. rewrite Hi in H. exact H.
Qed.

Lemma step_inv (st st' : Coord W) i :
  Inv N n st → step h N i st = Some st' → Inv N n st'.
Proof.
  intros HI Hs. unfold step in Hs. rewrite (inv_crash _ _ _ HI) in Hs.
  destruct (goroutines st !! i) as [[p | r] |] eqn:Hi; try discriminate.
  destruct (phase_call st i p Hi HI) as [Hlt Hd].
  assert (Hlen : ∀ g : Goroutine, length (<[i := g]> (goroutines st)) = n).
  { intros g. rewrite length_insert. apply (inv_len _ _ _ HI). }
  destruct p as [r | o k].
  { (* the function returns *)
    injection Hs as <-. unfold disciplined in Hd; simpl in Hd.
    apply (inv_quiet st _ i (Finished r) (Left r)); try assumption;
      unfold report; destruct r, (g_err st); simpl;
      rewrite ?Nat.eqb_refl; try reflexivity;
      try apply Hlen; try apply (inv_crash _ _ _ HI). }
  destruct (exec h N o st) as [[a st1] |] eqn:He; [| discriminate].
  injection Hs as <-.
  unfold disciplined in Hd; simpl in Hd. specialize (Hd a).
  unfold phase in Hd.
  destruct (locked_by i (trace st)) eqn:Hl; [| destruct (holds i (trace st)) eqn:Hh].
  - (* in the critical section *)
    destruct o; simpl in Hd; try contradiction; simpl in He.
    + (* Unlock *)
      destruct (mu st) eqn:Hmu.
      2: { rewrite (inv_mu_free _ _ _ HI Hmu i) in Hl. discriminate. }
      injection He as <- <-.
      destruct (inv_mu_held _ _ _ HI Hmu) as (i' & Hi' & Hu).
      pose proof (inv_lock_holds _ _ _ HI i Hl) as Hh.
      assert (HH : ∀ j, holds j ((i, Did (Ev MuUnlock ())) :: trace st)
                        = holds j (trace st)).
      { intros j. destruct (decide (j = i)) as [-> | Hne].
        - rewrite holds_here. reflexivity.
        - apply holds_other, Hne. }
      assert (HL : ∀ j, locked_by j ((i, Did (Ev MuUnlock ())) :: trace st)
                        = false).
      { intros j. destruct (decide (j = i)) as [-> | Hne].
        - rewrite locked_here. reflexivity.
        - rewrite locked_other by assumption.
          destruct (locked_by j (trace st)) eqn:Hj; [| reflexivity].
          exfalso. apply Hne. rewrite (Hu j Hj), (Hu i Hl). reflexivity. }
      split; cbn -[holds locked_by holders phase disciplined].
      * apply Hlen.
      * apply (inv_crash _ _ _ HI).
      * rewrite (inv_sem _ _ _ HI). f_equal. symmetry.
        apply holders_same. intros j _. apply HH.
      * apply (inv_cap _ _ _ HI).
      * intros _ j. apply HL.
      * discriminate.
      * intros j Hj. rewrite HL in Hj. discriminate.
      * eapply inv_gor_step; try eassumption; try reflexivity.
        unfold phase. rewrite HL, HH, Hh. exact Hd.
    + injection He as <- <-.
      apply (inv_quiet st _ i (Running (k ())) (Did (Ev IncCopied ())));
        simpl; rewrite ?Nat.eqb_refl; try reflexivity; try assumption;
        try apply Hlen; try apply (inv_crash _ _ _ HI).
      unfold phase. rewrite Hl. exact Hd.
    + injection He as <- <-.
      apply (inv_quiet st _ i (Running (k ())) (Did (Ev IncSkipped ())));
        simpl; rewrite ?Nat.eqb_refl; try reflexivity; try assumption;
        try apply Hlen; try apply (inv_crash _ _ _ HI).
      unfold phase. rewrite Hl. exact Hd.
    + injection He as <- <-.
      apply (inv_quiet st _ i (Running (k ())) (Did (Ev BarIncrement ())));
        simpl; rewrite ?Nat.eqb_refl; try reflexivity; try assumption;
        try apply Hlen; try apply (inv_crash _ _ _ HI).
      unfold phase. rewrite Hl. exact Hd.
  - (* inside, mutex not held by [i] *)
    destruct o; simpl in Hd; try contradiction; simpl in He.
    + (* a call *)
      destruct (h (Call c r) (world st)) as [a' w'].
      injection He as <- <-.
      apply (inv_quiet st _ i (Running (k a')) (Did (Ev (Call c r) a')));
        simpl; rewrite ?Nat.eqb_refl; try reflexivity; try assumption;
        try apply Hlen; try apply (inv_crash _ _ _ HI).
      unfold phase. rewrite Hl, Hh. exact Hd.
    + (* Release *)
      assert (Hpos : (1 ≤ holders n (trace st))%nat).
      { clear -Hlt Hh. induction n as [| m IH]; [lia |]. simpl.
        destruct (decide (i = m)) as [-> | Hne].
        - rewrite Hh. lia.
        - assert (i < m)%nat by lia. specialize (IH H). lia. }
      pose proof (inv_sem _ _ _ HI) as Hsem.
      destruct (Z.ltb_spec (sem_cur st - 1) 0) as [Hneg | Hge]; [lia |].
      injection He as <- <-.
      assert (HH : ∀ j, j ≠ i →
                holds j ((i, Did (Ev SemRelease ())) :: trace st)
                = holds j (trace st)).
      { intros j Hne. apply holds_other, Hne. }
      assert (HL : ∀ j, locked_by j ((i, Did (Ev SemRelease ())) :: trace st)
                        = locked_by j (trace st)).
      { intros j. destruct (decide (j = i)) as [-> | Hne].
        - rewrite locked_here. reflexivity.
        - apply locked_other, Hne. }
      assert (Hoff : holds i ((i, Did (Ev SemRelease ())) :: trace st) = false).
      { rewrite holds_here. reflexivity. }
      pose proof (holders_off n i _ _ Hlt Hh Hoff HH) as Hcount.
      split; cbn -[holds locked_by holders phase disciplined].
      * apply Hlen.
      * apply (inv_crash _ _ _ HI).
      * lia.
      * pose proof (inv_cap _ _ _ HI). lia.
      * intros Hf j. rewrite HL. apply (inv_mu_free _ _ _ HI Hf).
      * intros Ht. destruct (inv_mu_held _ _ _ HI Ht) as (j & Hj & Hu).
        exists j. rewrite HL. split; [exact Hj |].
        intros j'. rewrite HL. apply Hu.
      * intros j. rewrite HL. intros Hj.
        destruct (decide (j = i)) as [-> | Hne]; [congruence |].
        rewrite HH by assumption. apply (inv_lock_holds _ _ _ HI j Hj).
      * eapply inv_gor_step; try eassumption; try reflexivity.
        unfold phase. rewrite HL, Hl, Hoff. exact Hd.
    + (* Lock *)
      destruct (mu st) eqn:Hmu; [discriminate |].
      injection He as <- <-.
      assert (HH : ∀ j, holds j ((i, Did (Ev MuLock ())) :: trace st)
                        = holds j (trace st)).
      { intros j. destruct (decide (j = i)) as [-> | Hne].
        - rewrite holds_here. reflexivity.
        - apply holds_other, Hne. }
      assert (Hon : locked_by i ((i, Did (Ev MuLock ())) :: trace st) = true).
      { rewrite locked_here. reflexivity. }
      split; cbn -[holds locked_by holders phase disciplined].
      * apply Hlen.
      * apply (inv_crash _ _ _ HI).
      * rewrite (inv_sem _ _ _ HI). f_equal. symmetry.
        apply holders_same. intros j _. apply HH.
      * apply (inv_cap _ _ _ HI).
      * discriminate.
      * intros _. exists i. split; [exact Hon |].
        intros j Hj. destruct (decide (j = i)) as [-> | Hne]; [reflexivity |].
        rewrite locked_other in Hj by assumption.
        rewrite (inv_mu_free _ _ _ HI Hmu j) in Hj. discriminate.
      * intros j Hj. rewrite HH.
        destruct (decide (j = i)) as [-> | Hne]; [exact Hh |].
        rewrite locked_other in Hj by assumption.
        apply (inv_lock_holds _ _ _ HI j Hj).
      * eapply inv_gor_step; try eassumption; try reflexivity.
        unfold phase. rewrite Hon. exact Hd.
  - (* outside *)
    destruct o; simpl in Hd; try contradiction; simpl in He.
    (* Acquire *)
    destruct (ctx_done st).
    + injection He as <- <-. simpl in Hd.
      apply (inv_quiet st _ i (Running (k (Some contextCanceled)))
               (Did (Ev SemAcquire (Some contextCanceled))));
        simpl; rewrite ?Nat.eqb_refl; try reflexivity; try assumption;
        try apply Hlen; try apply (inv_crash _ _ _ HI).
      unfold phase. rewrite Hl, Hh. exact Hd.
    + destruct (Z.leb_spec (sem_cur st + 1) N) as [Hroom | Hfull];
        [| discriminate].
      injection He as <- <-. simpl in Hd.
      assert (HH : ∀ j, j ≠ i →
                holds j ((i, Did (Ev SemAcquire None)) :: trace st)
                = holds j (trace st)).
      { intros j Hne. apply holds_other, Hne. }
      assert (HL : ∀ j, locked_by j ((i, Did (Ev SemAcquire None)) :: trace st)
                        = locked_by j (trace st)).
      { intros j. destruct (decide (j = i)) as [-> | Hne].
        - rewrite locked_here. reflexivity.
        - apply locked_other, Hne. }
      assert (Hon : holds i ((i, Did (Ev SemAcquire None)) :: trace st) = true).
      { rewrite holds_here. reflexivity. }
      pose proof (holders_on n i _ _ Hlt Hh Hon HH) as Hcount.
      pose proof (inv_sem _ _ _ HI) as Hsem.
      split; cbn -[holds locked_by holders phase disciplined].
      * apply Hlen.
      * apply (inv_crash _ _ _ HI).
      * lia.
      * exact Hroom.
      * intros Hf j. rewrite HL. apply (inv_mu_free _ _ _ HI Hf).
      * intros Ht. destruct (inv_mu_held _ _ _ HI Ht) as (j & Hj & Hu).
        exists j. rewrite HL. split; [exact Hj |].
        intros j'. rewrite HL. apply Hu.
      * intros j. rewrite HL. intros Hj.
        destruct (decide (j = i)) as [-> | Hne]; [exact Hon |].
        rewrite HH by assumption. apply (inv_lock_holds _ _ _ HI j Hj).
      * eapply inv_gor_step; try eassumption; try reflexivity.
        unfold phase. rewrite HL, Hl, Hon. exact Hd.
Qed.
End Steps.

(** ** The fan-out: runs *)

Section Runs.
Context {W : Type} (h : Handler W) (N : Z) (n : nat).

Lemma step_cases (st st' : Coord W) i :
  step h N i st = Some st' →
  crash st = None ∧
  ((∃ r, goroutines st !! i = Some (Running (Ret r)) ∧
         st' = advance i (Finished r) (Left r) (report r st))
   ∨ (∃ o k a st1,
        goroutines st !! i = Some (Running (Vis o k)) ∧
        exec h N o st = Some (a, st1) ∧
        st' = advance i (Running (k a)) (Did (Ev o a)) st1)).
Proof.
  unfold step. destruct (crash st); [discriminate |].
  destruct (goroutines st !! i) as [[[r | o k] | r] |]; try discriminate.
  - intros [= <-]. split; [reflexivity |]. left. eauto.
  - destruct (exec h N o st) as [[a st1] |] eqn:He; [| discriminate].
    intros [= <-]. split; [reflexivity |]. right. eauto 10.
Qed.

Lemma exec_trace (st st1 : Coord W) o a :
  exec h N o st = Some (a, st1) →
  trace st1 = trace st ∧ goroutines st1 = goroutines st ∧
  g_err st1 = g_err st ∧ ctx_done st1 = ctx_done st.
Proof.
  destruct o; unfold exec.
  - destruct (h (Call c r) (world st)). intros [= <- <-]. auto.
  - destruct (ctx_done st) eqn:E; [intros [= <- <-]; auto |].
    destruct (sem_cur st + 1 <=? N); [| discriminate].
    intros [= <- <-]. simpl. repeat split; try reflexivity; assumption.
  - destruct (sem_cur st - 1 <? 0); intros [= _ <-]; auto.
  - destruct (mu st); [discriminate |]. intros [= _ <-]. auto.
  - destruct (mu st); intros [= _ <-]; auto.
  - intros [= _ <-]. auto.
  - intros [= _ <-]. auto.
  - intros [= _ <-]. auto.
Qed.

Lemma report_trace (st : Coord W) r :
  trace (report r st) = trace st ∧ goroutines (report r st) = goroutines st.
Proof. unfold report. destruct r, (g_err st); auto. Qed.

(** Who is about to do anything but acquire holds a slot. *)
Lemma running_holds (st : Coord W) i o k (a : Resp o) :
  Inv N n st → goroutines st !! i = Some (Running (Vis o k)) →
  isOp SemAcquire (Ev o a) = false → holds i (trace st) = true.
Proof.
  intros HI Hi Ho. pose proof (inv_gor _ _ _ HI i) as Hd. rewrite Hi in Hd.
  unfold disciplined in Hd; simpl in Hd. specialize (Hd a). unfold phase in Hd.
  destruct (locked_by i (trace st)) eqn:Hl.
  { apply (inv_lock_holds _ _ _ HI), Hl. }
  destruct (holds i (trace st)); [reflexivity |].
  destruct o; simpl in Hd; try contradiction. discriminate.
Qed.

Lemma step_served (st st' : Coord W) i :
  Inv N n st → served (trace st) → step h N i st = Some st' →
  served (trace st').
Proof.
  intros HI Hsv Hs. pose proof Hs as Hc. apply step_cases in Hc.
  destruct Hc as [_ [(r & _ & ->) | (o & k & a & st1 & Hi & He & ->)]];
    simpl; intros later j e earlier Heq He'.
  - rewrite (proj1 (report_trace st r)) in Heq.
    destruct later as [| x later]; [discriminate |].
    injection Heq as _ Heq. eapply Hsv; eassumption.
  - rewrite (proj1 (exec_trace _ _ _ _ He)) in Heq.
    destruct later as [| x later].
    + injection Heq as <- <- <-.
      eapply running_holds; eassumption.
    + injection Heq as _ Heq. eapply Hsv; eassumption.
Qed.

Lemma schedule_inv (sched : list nat) (st : Coord W) :
  Inv N n st → served (trace st) →
  Inv N n (schedule h N sched st) ∧ served (trace (schedule h N sched st)).
Proof.
  revert st. induction sched as [| i sched IH]; intros st HI Hsv; simpl.
  - split; assumption.
  - destruct (step h N i st) as [st' |] eqn:Hs.
    + apply IH; [eapply step_inv | eapply step_served]; eassumption.
    + apply IH; assumption.
Qed.

Lemma served_nil : served [].
Proof. intros [| x later] i e earlier H; discriminate. Qed.

(** Only the goroutines of the run hold anything. *)
Lemma holds_lt (st : Coord W) i :
  Inv N n st → holds i (trace st) = true → (i < n)%nat.
Proof.
  intros HI Hh. destruct (Nat.lt_ge_cases i n) as [Hlt | Hge]; [exact Hlt |].
  pose proof (inv_gor _ _ _ HI i) as Hd.
  rewrite lookup_ge_None_2 in Hd by (rewrite (inv_len _ _ _ HI); exact Hge).
  unfold phase in Hd. rewrite Hh in Hd.
  destruct (locked_by i (trace st)); discriminate.
Qed.

Lemma finished_released (st : Coord W) i r :
  Inv N n st → goroutines st !! i = Some (Finished r) →
  holds i (trace st) = false.
Proof.
  intros HI Hi. pose proof (inv_gor _ _ _ HI i) as Hd. rewrite Hi in Hd.
  unfold phase in Hd.
  destruct (locked_by i (trace st)); [discriminate |].
  destruct (holds i (trace st)); [discriminate | reflexivity].
Qed.
End Runs.

Lemma withDefaults_concurrency parsed : 1 ≤ Concurrency (withDefaults parsed).
Proof. simpl. destruct (Z.leb_spec (Concurrency parsed) 0); lia. Qed.

(** C5.  In every state that any schedule of the fan-out reaches,
    at most [N] goroutines hold a slot of the semaphore, [N] being
    the configured concurrency when it is positive and 10 otherwise.
    Whatever a goroutine does other than [Acquire] itself (every
    call on a client, every lock and every count) it does while it
    holds a slot; a goroutine that has returned holds none, whether
    it returned nil or an error; and the semaphore is never released
    beyond what is held, nor the mutex unlocked while free. *)
Theorem concurrency_ceiling {W : Type} (h : Handler W) (parsed : Config)
    (objects : list types.Object) (w : W) (sched : list nat) :
  let cfg := withDefaults parsed in
  let N := Concurrency cfg in
  let st := schedule h N sched (fanout cfg objects w) in
  N = (if Concurrency parsed <=? 0 then 10 else Concurrency parsed)
  ∧ Z.of_nat (holders (length objects) (trace st)) ≤ N
  ∧ (∀ i, holds i (trace st) = true → (i < length objects)%nat)
  ∧ served (trace st)
  ∧ (∀ i r, goroutines st !! i = Some (Finished r) → holds i (trace st) = false)
  ∧ crash st = None.
Proof.
  intros cfg N st.
  destruct (schedule_inv h N (length objects) sched (fanout cfg objects w))
    as [HI Hsv].
  { apply inv_fanout. pose proof (withDefaults_concurrency parsed).
    unfold N, cfg. lia. }
  { apply served_nil. }
  fold st in HI, Hsv.
  split; [reflexivity |]. split.
  { rewrite <- (inv_sem _ _ _ HI). apply (inv_cap _ _ _ HI). }
  split; [intros i; apply (holds_lt N _ st i HI) |].
  split; [exact Hsv |].
  split; [intros i r; apply (finished_released N _ st i r HI) |].
  apply (inv_crash _ _ _ HI).
Qed.

(** ** The fan-out: the group's error and the counters *)

Lemma count_app o evs1 evs2 :
  count o (evs1 ++ evs2) = (count o evs1 + count o evs2)%nat.
Proof. induction evs1 as [| e evs1 IH]; simpl; [reflexivity | lia]. Qed.

Section Books.
Context {W : Type} (h : Handler W) (N : Z).

Lemma step_booked (st st' : Coord W) i :
  Booked st → step h N i st = Some st' → Booked st'.
Proof.
  intros (Hg & Hc & H1 & H2 & H3) Hs. apply step_cases in Hs.
  destruct Hs as [_ [(r & _ & ->) | (o & k & a & st1 & _ & He & ->)]].
  - unfold Booked, report. simpl.
    destruct r as [e |], (g_err st) as [e' |] eqn:Hge; simpl;
      rewrite ?app_nil_r, <- ?Hg, ?Hge; repeat split;
      try assumption; reflexivity.
  - assert (Hfe : match first_error (trace st) with
                  | Some e => Some e
                  | None => None
                  end = first_error (trace st)).
    { destruct (first_error (trace st)); reflexivity. }
    unfold Booked. simpl. rewrite !count_app.
    destruct o; unfold exec in He.
    + destruct (h (Call c r) (world st)). injection He as <- <-. simpl.
      rewrite Hfe, ?Nat.add_0_r. repeat split; assumption.
    + destruct (ctx_done st) eqn:E.
      * injection He as <- <-. simpl.
        rewrite Hfe, ?Nat.add_0_r, E. repeat split; assumption.
      * destruct (sem_cur st + 1 <=? N); [| discriminate].
        injection He as <- <-. simpl.
        rewrite Hfe, ?Nat.add_0_r, E. repeat split; assumption.
    + destruct (sem_cur st - 1 <? 0); injection He as _ <-; simpl;
        rewrite Hfe, ?Nat.add_0_r; repeat split; assumption.
    + destruct (mu st); [discriminate |]. injection He as _ <-. simpl.
      rewrite Hfe, ?Nat.add_0_r. repeat split; assumption.
    + destruct (mu st); injection He as _ <-; simpl;
        rewrite Hfe, ?Nat.add_0_r; repeat split; assumption.
    + injection He as _ <-. simpl.
      rewrite Hfe, ?Nat.add_0_r. repeat split; try assumption. lia.
    + injection He as _ <-. simpl.
      rewrite Hfe, ?Nat.add_0_r. repeat split; try assumption. lia.
    + injection He as _ <-. simpl.
      rewrite Hfe, ?Nat.add_0_r. repeat split; try assumption. lia.
Qed.

Lemma schedule_booked (sched : list nat) (st : Coord W) :
  Booked st → Booked (schedule h N sched st).
Proof.
  revert st. induction sched as [| i sched IH]; intros st HB; simpl.
  - exact HB.
  - destruct (step h N i st) as [st' |] eqn:Hs.
    + eapply IH, step_booked; eassumption.
    + apply IH, HB.
Qed.

End Books.

Lemma booked_fanout {W : Type} cfg objects (w : W) :
  Booked (fanout cfg objects w).
Proof. repeat split. Qed.

(** ** The fan-out: nobody is stuck, and the run ends *)

Lemma within_mono {A : Type} (p : Prog A) (a b : nat) :
  within a p → (a ≤ b)%nat → within b p.
Proof.
  revert a b. induction p as [x | o k IH]; intros a b Hp Hab; simpl in *.
  - exact I.
  - destruct a as [| a]; [contradiction |].
    destruct b as [| b]; [lia |].
    intros r. eapply IH; [apply Hp | lia].
Qed.

Lemma within_bind {A B : Type} (p : Prog A) (f : A → Prog B) (a b : nat) :
  within a p → (∀ x, within b (f x)) → within (a + b) (bind p f).
Proof.
  revert a. induction p as [x | o k IH]; intros a Hp Hf; simpl in *.
  - eapply within_mono; [apply Hf | lia].
  - destruct a as [| a]; [contradiction |]. simpl.
    intros r. apply IH; [apply Hp | exact Hf].
Qed.

Lemma within_copyAndVerifyObject sb db key size tag :
  within 4 (copyAndVerifyObject sb db key size tag).
Proof.
  unfold copyAndVerifyObject.
  cbn. intros [h | err]; [| exact I].
  cbn. intros [t | err]; [| exact I].
  cbn. intros [[] | err]; [| exact I].
  cbn. intros [v | err]; [| exact I].
  destruct (_ || _); exact I.
Qed.

Lemma within_syncObject cfg obj : within 11 (syncObject cfg obj).
Proof.
  assert (Hcount : within 8 (copyAndCount cfg obj)).
  { unfold copyAndCount.
    apply (within_bind _ _ 4 4); [apply within_copyAndVerifyObject |].
    intros [err |]; cbn; [exact I | intros _ _ _ _; exact I]. }
  assert (Hbody : within 9 (syncBody cfg obj)).
  { unfold syncBody. cbn -[copyAndCount].
    intros [out | err]; cbn -[copyAndCount].
    - destruct (_ || _); [exact Hcount | cbn; intros _ _ _ _; exact I].
    - destruct (_ || _); [exact Hcount | exact I]. }
  unfold syncObject. cbn -[defer syncBody]. intros [err |]; [exact I |].
  unfold defer. apply (within_bind _ _ 9 1); [exact Hbody |].
  intros a. cbn. intros _. exact I.
Qed.

Lemma budget_fanout cfg objects :
  ∃ m, Budget (map (fun obj => Running (syncObject cfg obj)) objects) m.
Proof.
  induction objects as [| obj objects [m IH]]; simpl.
  - exists O. constructor.
  - exists (12 + m)%nat. apply (Budget_running _ 11).
    + apply within_syncObject.
    + exact IH.
Qed.

(** A move of a running goroutine lowers the budget. *)
Lemma budget_advance gs m i o k (a : Resp o) :
  Budget gs m → gs !! i = Some (Running (Vis o k)) →
  ∃ m', (m' < m)%nat ∧ Budget (<[i := Running (k a)]> gs) m'.
Proof.
  intros HB. revert i. induction HB as [| p d gs m Hp HB IH | r gs m HB IH];
    intros i Hi.
  - discriminate.
  - destruct i as [| i]; simpl in *.
    + injection Hi as ->. simpl in Hp. destruct d as [| d]; [contradiction |].
      exists (S d + m)%nat. split; [lia |].
      apply Budget_running; [apply Hp | exact HB].
    + destruct (IH i Hi) as (m' & Hlt & HB').
      exists (S d + m')%nat. split; [lia |].
      apply Budget_running; assumption.
  - destruct i as [| i]; simpl in *; [discriminate |].
    destruct (IH i Hi) as (m' & Hlt & HB').
    exists m'. split; [lia |]. apply Budget_finished, HB'.
Qed.

Lemma budget_return gs m i r :
  Budget gs m → gs !! i = Some (Running (Ret r)) →
  ∃ m', (m' < m)%nat ∧ Budget (<[i := Finished r]> gs) m'.
Proof.
  intros HB. revert i. induction HB as [| p d gs m Hp HB IH | r' gs m HB IH];
    intros i Hi.
  - discriminate.
  - destruct i as [| i]; simpl in *.
    + injection Hi as ->. exists m. split; [lia |].
      apply Budget_finished, HB.
    + destruct (IH i Hi) as (m' & Hlt & HB').
      exists (S d + m')%nat. split; [lia |].
      apply Budget_running; assumption.
  - destruct i as [| i]; simpl in *; [discriminate |].
    destruct (IH i Hi) as (m' & Hlt & HB').
    exists m'. split; [lia |]. apply Budget_finished, HB'.
Qed.

Section Liveness.
Context {W : Type} (h : Handler W) (N : Z) (n : nat).
Hypothesis HN : 1 ≤ N.

Lemma step_budget (st st' : Coord W) i m :
  Budget (goroutines st) m → step h N i st = Some st' →
  ∃ m', (m' < m)%nat ∧ Budget (goroutines st') m'.
Proof.
  intros HB Hs. apply step_cases in Hs.
  destruct Hs as [_ [(r & Hi & ->) | (o & k & a & st1 & Hi & He & ->)]]; simpl.
  - rewrite (proj2 (report_trace st r)). eapply budget_return; eassumption.
  - destruct (exec_trace h N _ _ _ _ He) as (_ & -> & _).
    eapply budget_advance; eassumption.
Qed.

(** A goroutine in the critical section can always move. *)
Lemma critical_moves (st : Coord W) i :
  Inv N n st → locked_by i (trace st) = true →
  ∃ st', step h N i st = Some st'.
Proof.
  intros HI Hl. pose proof (inv_gor _ _ _ HI i) as Hd.
  unfold phase in Hd. rewrite Hl in Hd. unfold step.
  rewrite (inv_crash _ _ _ HI).
  destruct (goroutines st !! i) as [[[r | o k] | r] |]; try discriminate.
  destruct o; try (specialize (Hd tt); contradiction); simpl; eauto.
  - specialize (Hd (inr "")). contradiction.
  - specialize (Hd None). contradiction.
  - destruct (mu st); eauto.
Qed.

(** A goroutine that holds a slot can move unless it waits for the
    mutex. *)
Lemma inside_moves (st : Coord W) i :
  Inv N n st → holds i (trace st) = true → mu st = false →
  ∃ st', step h N i st = Some st'.
Proof.
  intros HI Hh Hmu. pose proof (inv_gor _ _ _ HI i) as Hd.
  unfold phase in Hd. rewrite Hh, (inv_mu_free _ _ _ HI Hmu i) in Hd.
  unfold step. rewrite (inv_crash _ _ _ HI).
  destruct (goroutines st !! i) as [[[r | o k] | r] |]; try discriminate.
  destruct o; try (specialize (Hd tt); contradiction); simpl; eauto.
  - destruct (h (Call c r) (world st)). eauto.
  - specialize (Hd None). contradiction.
  - destruct (sem_cur st - 1 <? 0); eauto.
  - rewrite Hmu. eauto.
Qed.

Lemma outside_moves (st : Coord W) i p :
  Inv N n st → holders n (trace st) = O →
  goroutines st !! i = Some (Running p) →
  ∃ st', step h N i st = Some st'.
Proof.
  intros HI H0 Hi. pose proof (inv_gor _ _ _ HI i) as Hd. rewrite Hi in Hd.
  assert (Hlt : (i < n)%nat).
  { rewrite <- (inv_len _ _ _ HI). eapply lookup_lt_Some, Hi. }
  assert (Hh : holds i (trace st) = false).
  { clear -H0 Hlt. induction n as [| m IH]; [lia |]. simpl in H0.
    destruct (decide (i = m)) as [-> | Hne].
    - destruct (holds m (trace st)); [discriminate | reflexivity].
    - apply IH; [| lia]. destruct (holds m (trace st)); [discriminate | exact H0]. }
  assert (Hl : locked_by i (trace st) = false).
  { destruct (locked_by i (trace st)) eqn:E; [| reflexivity].
    rewrite (inv_lock_holds _ _ _ HI i E) in Hh. discriminate. }
  unfold phase in Hd. rewrite Hh, Hl in Hd.
  unfold step. rewrite (inv_crash _ _ _ HI), Hi.
  destruct p as [r | o k]; [eauto |].
  destruct o; try (specialize (Hd tt); contradiction); simpl.
  - specialize (Hd (inr "")). contradiction.
  - destruct (ctx_done st); [eauto |].
    pose proof (inv_sem _ _ _ HI) as Hsem. rewrite H0 in Hsem.
    destruct (Z.leb_spec (sem_cur st + 1) N); [eauto | lia].
Qed.

Lemma some_holder (tr : list (nat * Obs)) :
  holders n tr ≠ O → ∃ i, holds i tr = true.
Proof.
  induction n as [| m IH]; simpl; [congruence |].
  destruct (holds m tr) eqn:E; [eauto |]. exact IH.
Qed.

(** While [Wait] has not returned, some goroutine can move. *)
Lemma no_deadlock (st : Coord W) :
  Inv N n st → wait st = None → ∃ i st', step h N i st = Some st'.
Proof.
  intros HI Hw. destruct (mu st) eqn:Hmu.
  { destruct (inv_mu_held _ _ _ HI Hmu) as (i & Hi & _).
    exists i. eapply critical_moves; eassumption. }
  destruct (Nat.eq_dec (holders n (trace st)) O) as [H0 | Hpos].
  2: { destruct (some_holder _ Hpos) as [i Hi].
       exists i. eapply inside_moves; eassumption. }
  unfold wait in Hw.
  destruct (forallb finished (goroutines st)) eqn:Hall; [discriminate |].
  assert (∃ i p, goroutines st !! i = Some (Running p)) as (i & p & Hi).
  { clear -Hall. induction (goroutines st) as [| g gs IH]; [discriminate |].
    simpl in Hall. destruct g as [p | r].
    - exists O, p. reflexivity.
    - destruct (IH Hall) as (i & p & Hi). exists (S i), p. exact Hi. }
  exists i. eapply outside_moves; eassumption.
Qed.

(** Every run can be brought to its end, in as many moves as the
    budget allows. *)
Lemma completion (m : nat) (st : Coord W) :
  Inv N n st → Budget (goroutines st) m →
  ∃ more, wait (schedule h N more st) ≠ None.
Proof.
  revert st. induction m as [m IH] using lt_wf_ind. intros st HI HB.
  destruct (wait st) eqn:Hw.
  { exists []. simpl. rewrite Hw. discriminate. }
  destruct (no_deadlock st HI Hw) as (i & st' & Hs).
  destruct (step_budget st st' i m HB Hs) as (m' & Hlt & HB').
  destruct (IH m' Hlt st' (step_inv h N n st st' i HI Hs) HB') as [more Hmore].
  exists (i :: more). simpl. rewrite Hs. exact Hmore.
Qed.
End Liveness.

(** ** The fan-out: the first failure *)

Lemma schedule_app {W : Type} (h : Handler W) N (s1 s2 : list nat) (st : Coord W) :
  schedule h N (s1 ++ s2) st = schedule h N s2 (schedule h N s1 st).
Proof.
  revert st. induction s1 as [| i s1 IH]; intros st; simpl; [reflexivity |].
  apply IH.
Qed.

Lemma schedule_budget {W : Type} (h : Handler W) N (sched : list nat)
    (st : Coord W) (m : nat) :
  Budget (goroutines st) m →
  ∃ m', Budget (goroutines (schedule h N sched st)) m'.
Proof.
  revert st m. induction sched as [| i sched IH]; intros st m H; simpl.
  - eauto.
  - destruct (step h N i st) as [st' |] eqn:Hs; [| eauto].
    destruct (step_budget h N st st' i m H Hs) as (m' & _ & H'). eauto.
Qed.


(** ** The fan-out: a destination that is up to date *)

Section Idempotence.
Context {W : Type} (h : Handler W) (P : W → Prop).

Lemma skips_syncObject cfg objects obj :
  populated h cfg objects P → In obj objects →
  skips h P 1 (syncObject cfg obj).
Proof.
  intros Hpop Hin. unfold syncObject. cbn -[defer syncBody].
  split; [exact I |]. intros a ->.
  unfold defer, syncBody. cbn -[copyAndCount].
  split.
  { split; [| exact I]. intros w Hw.
    destruct (Hpop obj w Hw Hin) as (out & w' & -> & HP & _). exact HP. }
  intros a (w & Hw & ->).
  destruct (Hpop obj w Hw Hin) as (out & w' & -> & _ & Hs & Ht).
  cbn -[copyAndCount]. rewrite Hs, Ht, Z.eqb_refl, String.eqb_refl.
  cbn. split; [exact I |]. intros _.
  split; [exact I |]. intros _. exists O. split; [reflexivity |].
  split; [exact I |]. intros _.
  split; [exact I |]. intros _.
  split; [exact I |]. intros _.
  split; reflexivity.
Qed.

Lemma owed_fanout cfg objects :
  populated h cfg objects P →
  ∀ l, (∀ obj, In obj l → In obj objects) →
  Owed h P (map (fun obj => Running (syncObject cfg obj)) l) (length l).
Proof.
  intros Hpop. induction l as [| obj l IH]; intros Hl; simpl.
  - constructor.
  - apply (Owed_running h P _ 1).
    + eapply skips_syncObject; [exact Hpop |]. apply Hl. left. reflexivity.
    + apply IH. intros o Ho. apply Hl. right. exact Ho.
Qed.

Lemma owed_return gs t i r :
  Owed h P gs t → gs !! i = Some (Running (Ret r)) →
  r = None ∧ Owed h P (<[i := Finished r]> gs) t.
Proof.
  intros HO. revert i. induction HO as [| p m gs t Hp HO IH | gs t HO IH];
    intros i Hi.
  - discriminate.
  - destruct i as [| i]; simpl in *.
    + injection Hi as ->. simpl in Hp. destruct Hp as [-> ->].
      split; [reflexivity |].
      apply Owed_finished, HO.
    + destruct (IH i Hi) as [-> HO']. split; [reflexivity |].
      apply Owed_running; assumption.
  - destruct i as [| i]; simpl in *; [discriminate |].
    destruct (IH i Hi) as [-> HO']. split; [reflexivity |].
    apply Owed_finished, HO'.
Qed.

Lemma owed_advance gs t i o k (a : Resp o) :
  Owed h P gs t → gs !! i = Some (Running (Vis o k)) → answers h P o a →
  calm h P o ∧
  if isOp IncSkipped (Ev o a)
  then ∃ t', t = S t' ∧ Owed h P (<[i := Running (k a)]> gs) t'
  else Owed h P (<[i := Running (k a)]> gs) t.
Proof.
  intros HO. revert i. induction HO as [| p m gs t Hp HO IH | gs t HO IH];
    intros i Hi Ha.
  - discriminate.
  - destruct i as [| i]; simpl in *.
    + injection Hi as ->. simpl in Hp. destruct Hp as [Hcalm Hp].
      split; [exact Hcalm |].
      specialize (Hp a Ha). revert Hp.
      match goal with |- context [if ?b then _ else _] => destruct b end;
        intros Hp.
      * destruct Hp as (m' & -> & Hp). exists (m' + t)%nat.
        split; [reflexivity |]. apply Owed_running; assumption.
      * apply Owed_running; assumption.
    + destruct (IH i Hi Ha) as [Hcalm HO']. split; [exact Hcalm |].
      revert HO'.
      match goal with |- context [if ?b then _ else _] => destruct b end;
        intros HO'.
      * destruct HO' as (t' & -> & HO'). exists (m + t')%nat.
        split; [lia |]. apply Owed_running; assumption.
      * apply Owed_running; assumption.
  - destruct i as [| i]; simpl in *; [discriminate |].
    destruct (IH i Hi Ha) as [Hcalm HO']. split; [exact Hcalm |].
    revert HO'.
      match goal with |- context [if ?b then _ else _] => destruct b end;
        intros HO'.
    + destruct HO' as (t' & -> & HO'). exists t'.
      split; [reflexivity |]. apply Owed_finished, HO'.
    + apply Owed_finished, HO'.
Qed.

Lemma owed_done gs t :
  Owed h P gs t → forallb finished gs = true → t = O.
Proof.
  induction 1 as [| p m gs t Hp HO IH | gs t HO IH]; simpl; intros Hall.
  - reflexivity.
  - discriminate.
  - apply IH, Hall.
Qed.

Lemma existsb_snoc {A : Type} (f : A → bool) (l : list A) (x : A) :
  existsb f (l ++ [x]) = existsb f l || f x.
Proof. rewrite existsb_app. simpl. rewrite orb_false_r. reflexivity. Qed.

Lemma step_idle N n (st st' : Coord W) i :
  Idle h P n st → step h N i st = Some st' → Idle h P n st'.
Proof.
  intros (HP & Hdone & Hg & Hcop & Hnc & owed & HO & Hsum) Hs.
  apply step_cases in Hs.
  destruct Hs as [_ [(r & Hi & ->) | (o & k & a & st1 & Hi & He & ->)]].
  - destruct (owed_return _ _ i r HO Hi) as [-> HO'].
    unfold Idle, report. simpl. rewrite app_nil_r.
    repeat split; try assumption. exists owed. split; assumption.
  - assert (Ha : answers h P o a ∧ P (world st1) ∧ ctx_done st1 = false
                 ∧ g_err st1 = None).
    { destruct o; unfold exec in He; simpl.
      - destruct (h (Call c r) (world st)) as [a' w'] eqn:Hh.
        injection He as <- <-. simpl.
        destruct (owed_advance _ _ i _ k a' HO Hi) as [[Hcalm _] _].
        { exists (world st). rewrite Hh. split; [assumption | reflexivity]. }
        specialize (Hcalm _ HP). rewrite Hh in Hcalm.
        repeat split; try assumption.
        exists (world st). rewrite Hh. split; [assumption | reflexivity].
      - rewrite Hdone in He.
        destruct (sem_cur st + 1 <=? N); [| discriminate].
        injection He as <- <-. repeat split; assumption.
      - destruct (sem_cur st - 1 <? 0); injection He as _ <-;
          repeat split; assumption.
      - destruct (mu st); [discriminate |]. injection He as _ <-.
        repeat split; assumption.
      - destruct (mu st); injection He as _ <-; repeat split; assumption.
      - injection He as _ <-. repeat split; assumption.
      - injection He as _ <-. repeat split; assumption.
      - injection He as _ <-. repeat split; assumption. }
    destruct Ha as (Ha & HP1 & Hdone1 & Hg1).
    destruct (exec_trace h N _ _ _ _ He) as (Htr & Hgs & _).
    destruct (owed_advance _ _ i _ k a HO Hi Ha) as [Hcalm HO'].
    unfold Idle. simpl. rewrite Htr, Hgs, existsb_snoc, Hnc. simpl.
    split; [exact HP1 |]. split; [exact Hdone1 |]. split; [exact Hg1 |].
    destruct o; simpl in Hcalm; try contradiction; unfold exec in He;
      simpl in HO'.
    + destruct (h (Call c r) (world st)). injection He as _ <-. simpl.
      split; [exact Hcop |]. split.
      { destruct Hcalm as [_ Hr]. destruct r; try reflexivity. contradiction. }
      exists owed. split; assumption.
    + rewrite Hdone in He. destruct (sem_cur st + 1 <=? N); [| discriminate].
      injection He as _ <-. simpl. repeat split; try assumption.
      exists owed. split; assumption.
    + destruct (sem_cur st - 1 <? 0); injection He as _ <-; simpl;
        repeat split; try assumption; exists owed; split; assumption.
    + destruct (mu st); [discriminate |]. injection He as _ <-. simpl.
      repeat split; try assumption. exists owed. split; assumption.
    + destruct (mu st); injection He as _ <-; simpl;
        repeat split; try assumption; exists owed; split; assumption.
    + destruct HO' as (t' & -> & HO'). injection He as _ <-. simpl.
      repeat split; try assumption. exists t'. split; [assumption | lia].
    + injection He as _ <-. simpl. repeat split; try assumption.
      exists owed. split; assumption.
Qed.

Lemma schedule_idle N n (sched : list nat) (st : Coord W) :
  Idle h P n st → Idle h P n (schedule h N sched st).
Proof.
  revert st. induction sched as [| i sched IH]; intros st HI; simpl.
  - exact HI.
  - destruct (step h N i st) as [st' |] eqn:Hs.
    + eapply IH, step_idle; eassumption.
    + apply IH, HI.
Qed.

Lemma idle_fanout cfg objects (w : W) :
  populated h cfg objects P → P w →
  Idle h P (length objects) (fanout cfg objects w).
Proof.
  intros Hpop Hw. unfold Idle. simpl. repeat split; try assumption.
  exists (length objects). split; [| reflexivity].
  apply (owed_fanout cfg objects Hpop objects). auto.
Qed.
End Idempotence.

(** ** [main] as a whole *)

Lemma syncBucketConfig_quiet sb db evs o (Q : Event → bool) :
  (∀ c r a, Q (Ev (Call c r) a) = true →
            match r with
            | ListObjectsV2 _ _ | HeadObject _ _ | GetObjectTagging _ _
            | CopyObject _ _ _ _ _ => True
            | _ => False
            end) →
  path (syncBucketConfig sb db) evs o → existsb Q evs = false.
Proof.
  intros HQ H. apply syncBucketConfig_path in H. destruct H as (f & H & _).
  assert (HQ' : ∀ c r a,
            match r with
            | ListObjectsV2 _ _ | HeadObject _ _ | GetObjectTagging _ _
            | CopyObject _ _ _ _ _ => False
            | _ => True
            end → Q (Ev (Call c r) a) = false).
  { intros c r a Hr. destruct (Q (Ev (Call c r) a)) eqn:E; [| reflexivity].
    apply HQ in E. destruct r; contradiction. }
  revert evs f H. repeat apply andThen_quiet; intros evs f.
  - apply createBucketStep_quiet. intros; apply HQ'; exact I.
  - apply policyStep_quiet; intros; apply HQ'; exact I.
  - apply versioningStep_quiet; intros; apply HQ'; exact I.
  - apply lifecycleStep_quiet; intros; apply HQ'; exact I.
Qed.

Lemma listObjects_quiet fuel bucket token objects evs s (Q : Event → bool) :
  (∀ t a, Q (Ev (Call sourceClient (ListObjectsV2 bucket t)) a) = false) →
  path (listObjects fuel bucket token objects) evs s → existsb Q evs = false.
Proof.
  intros HQ. revert token objects evs.
  induction fuel as [| fuel IH]; intros token objects evs H.
  - path_end H. reflexivity.
  - cbn -[listObjects] in H. simpl in H. path_step H.
    simpl. rewrite HQ. simpl. destruct r as [out | err].
    + destruct (s3.NextContinuationToken out) as [t |].
      * destruct (String.eqb t ""); [path_end H; reflexivity |].
        eapply IH, H.
      * path_end H. reflexivity.
    + path_end H. reflexivity.
Qed.

(** C6.  In every run of [main] the requests of [syncBucketConfig]
    come first and contain no listing, no head, no tagging and no
    copy of an object; everything else [main] and its goroutines do
    comes after the last of them.  When [syncBucketConfig] returns an
    error, or panics, nothing comes after: no listing, no goroutine,
    and [main] ends there. *)
Theorem config_first {W : Type} (h : Handler W) (fuel : nat)
    (sched : list nat) (parsed : Config) (w : W) :
  let cfg := withDefaults parsed in
  let conf := run h (syncBucketConfig (Bucket (Source cfg))
                       (Bucket (Destination cfg))) w in
  let r := main h fuel sched parsed w in
  existsb objectWork (snd conf) = false
  ∧ ∃ later,
      (snd (fst r) ++ events (snd r))%list = (snd conf ++ later)%list
      ∧ match fst (fst conf) with
        | Returned None => True
        | Returned (Some err) =>
            later = [] ∧
            fst (fst r) =
            Stopped (Fatal ("Failed to sync bucket configurations: " +:+ err))
        | Panicked msg => later = [] ∧ fst (fst r) = Stopped (Crashed msg)
        end.
Proof.
  intros cfg conf r.
  destruct conf as [[o w1] cevs] eqn:Hconf. simpl.
  split.
  { eapply syncBucketConfig_quiet; [| eapply run_path, Hconf].
    intros c rq a. unfold objectWork, requestOf. simpl.
    destruct rq; try discriminate; auto. }
  destruct o as [[err |] | msg].
  - exists []. unfold r.
    rewrite (main_stops h fuel sched parsed w w1 _ cevs Hconf) by discriminate.
    simpl. repeat split.
  - unfold r, main, startup. fold cfg. rewrite run_bind.
    unfold conf in Hconf. rewrite Hconf.
    destruct (run h (listObjects fuel (Bucket (Source cfg)) None []) w1)
      as [[s w2] levs].
    destruct s as [m | m | | objects]; simpl.
    + exists levs. rewrite app_nil_r. split; [reflexivity | exact I].
    + exists levs. rewrite app_nil_r. split; [reflexivity | exact I].
    + exists levs. rewrite app_nil_r. split; [reflexivity | exact I].
    + eexists. rewrite <- app_assoc. split; [reflexivity | exact I].
  - exists []. unfold r.
    rewrite (main_stops h fuel sched parsed w w1 _ cevs Hconf) by discriminate.
    simpl. repeat split.
Qed.

Lemma startup_quiet fuel cfg evs s (Q : Event → bool) :
  (∀ c r a, Q (Ev (Call c r) a) = true →
            match r with
            | HeadObject _ _ | GetObjectTagging _ _
            | CopyObject _ _ _ _ _ => True
            | _ => False
            end) →
  path (startup fuel cfg) evs s → existsb Q evs = false.
Proof.
  intros HQ H. unfold startup in H. apply path_bind in H.
  destruct H as (evs1 & o & evs2 & H1 & H2 & ->).
  rewrite existsb_app.
  rewrite (syncBucketConfig_quiet (Bucket (Source cfg))
             (Bucket (Destination cfg)) evs1 o Q); [| | exact H1].
  2: { intros c r a Hq. apply HQ in Hq. destruct r; try contradiction; exact I. }
  simpl. destruct o as [[err |] | msg].
  - path_end H2. reflexivity.
  - eapply listObjects_quiet; [| exact H2].
    intros t a. destruct (Q _) eqn:E; [| reflexivity].
    apply HQ in E. contradiction.
  - path_end H2. reflexivity.
Qed.

(** What [main] concludes from a state in which nothing has failed. *)
Lemma idle_conclude {W : Type} (h : Handler W) (P : W → Prop) N n
    (st : Coord W) :
  Inv N n st → Idle h P n st →
  (conclude st = Waiting ∧ wait st = None ∨ conclude st = Completed O n)
  ∧ existsb isCopy (events (trace st)) = false.
Proof.
  intros HI (_ & _ & Hg & Hcop & Hnc & owed & HO & Hsum).
  split; [| exact Hnc].
  unfold conclude. rewrite (inv_crash _ _ _ HI). unfold wait.
  destruct (forallb finished (goroutines st)) eqn:Hall; [| left; auto].
  right. rewrite Hg, Hcop. f_equal.
  rewrite (owed_done h P _ _ HO Hall) in Hsum. lia.
Qed.

(** C3.  Let the sequential part of [main] have listed [objects],
    and let the destination hold, for every listed key, an object of
    the listed size and entity tag (it says so whenever its head is
    requested).  Then under every schedule nothing is copied: no
    [CopyObject] is requested by [main] or any goroutine, and [main]
    is either still waiting or has completed with [copied = 0] and
    [skipped] the number of listed objects.  And the run does
    complete: every schedule has a continuation after which [main]
    reports exactly that. *)
Theorem idempotent_rerun {W : Type} (h : Handler W) (P : W → Prop)
    (fuel : nat) (parsed : Config) (w w1 : W)
    (objects : list types.Object) (evs : list Event) :
  run h (startup fuel (withDefaults parsed)) w = (Listed objects, w1, evs) →
  P w1 →
  populated h (withDefaults parsed) objects P →
  (∀ sched,
     (fst (fst (main h fuel sched parsed w)) = Waiting
      ∨ fst (fst (main h fuel sched parsed w)) = Completed O (length objects))
     ∧ existsb isCopy (snd (fst (main h fuel sched parsed w))
                       ++ events (snd (main h fuel sched parsed w))) = false)
  ∧ ∀ sched, ∃ more,
      fst (fst (main h fuel (sched ++ more)%list parsed w))
      = Completed O (length objects).
Proof.
  intros Hrun Hw Hpop.
  set (cfg := withDefaults parsed) in *.
  set (N := Concurrency cfg).
  assert (HN : 1 ≤ N) by apply withDefaults_concurrency.
  assert (Hmain : ∀ sched,
            main h fuel sched parsed w =
            (conclude (schedule h N sched (fanout cfg objects w1)), evs,
             trace (schedule h N sched (fanout cfg objects w1)))).
  { intros sched. unfold main. fold cfg. rewrite Hrun. reflexivity. }
  assert (Hinv : ∀ sched,
            Inv N (length objects) (schedule h N sched (fanout cfg objects w1))
            ∧ Idle h P (length objects)
                (schedule h N sched (fanout cfg objects w1))).
  { intros sched. split.
    - apply schedule_inv; [apply inv_fanout; lia | apply served_nil].
    - apply schedule_idle, idle_fanout; assumption. }
  split.
  - intros sched. rewrite Hmain. simpl.
    destruct (Hinv sched) as [HI Hidle].
    destruct (idle_conclude h P N _ _ HI Hidle) as [Hc Hnc].
    split; [destruct Hc as [[Hc _] | Hc]; auto |].
    rewrite existsb_app, Hnc, orb_false_r.
    eapply startup_quiet; [| eapply run_path, Hrun].
    intros c r a. unfold isCopy, requestOf. simpl.
    destruct r; try discriminate; auto.
  - intros sched. destruct (Hinv sched) as [HI _].
    destruct (budget_fanout cfg objects) as [m0 Hm0].
    destruct (schedule_budget h N sched (fanout cfg objects w1) m0 Hm0)
      as [m Hm].
    destruct (completion h N (length objects) HN m _ HI Hm) as [more Hmore].
    exists more. rewrite Hmain. simpl.
    rewrite <- schedule_app in Hmore.
    destruct (Hinv (sched ++ more)%list) as [HI' Hidle'].
    destruct (idle_conclude h P N _ _ HI' Hidle') as [[[_ Hc] | Hc] _].
    + contradiction.
    + exact Hc.
Qed.

Lemma idempotent_rerun_witness :
  run Sim.handler (startup 5 (withDefaults Sim.cfg)) synced
  = (Listed (Sim.src synced), synced,
     snd (run Sim.handler (startup 5 (withDefaults Sim.cfg)) synced))
  ∧ populated Sim.handler (withDefaults Sim.cfg) (Sim.src synced)
      (fun w => w = synced)
  ∧ fst (fst (main Sim.handler 5 ((seq 0 3 ++ seq 0 3)%list) Sim.cfg synced)) = Waiting
  ∧ ∃ more,
      fst (fst (main Sim.handler 5 ([] ++ more)%list Sim.cfg synced)) = Completed 0 3.
Proof.
  assert (Hpop : populated Sim.handler (withDefaults Sim.cfg) (Sim.src synced)
                   (fun w => w = synced)).
  { intros obj w -> Hin. simpl in Hin.
    destruct Hin as [<- | [<- | [<- | []]]];
      eexists _, synced; repeat split. }
  split; [reflexivity |]. split; [exact Hpop |]. split; [reflexivity |].
  exact (proj2 (idempotent_rerun Sim.handler (fun w => w = synced) 5 Sim.cfg
                  synced synced (Sim.src synced) _ eq_refl eq_refl Hpop) []).
Defined.

(** ** The fan-out: every goroutine follows its closure *)

Lemma sum_upto_ext n f g :
  (∀ i, (i < n)%nat → f i = g i) → sum_upto n f = sum_upto n g.
Proof.
  induction n as [| n IH]; intros H; simpl; [reflexivity |].
  rewrite H by lia. rewrite IH; [reflexivity |]. intros i Hi. apply H. lia.
Qed.

Lemma sum_upto_add n f g :
  sum_upto n (fun i => (f i + g i)%nat) = (sum_upto n f + sum_upto n g)%nat.
Proof. induction n as [| n IH]; simpl; [reflexivity | lia]. Qed.

Lemma sum_upto_at n j c :
  (j < n)%nat → sum_upto n (fun i => if Nat.eqb j i then c else O) = c.
Proof.
  induction n as [| n IH]; intros Hj; [lia |]. simpl.
  destruct (Nat.eqb_spec j n) as [-> | Hne].
  - rewrite (sum_upto_ext n _ (fun _ => O)).
    + clear. induction n as [| n IH]; simpl; lia.
    + intros i Hi. destruct (Nat.eqb_spec n i); [lia | reflexivity].
  - rewrite IH by lia. reflexivity.
Qed.

Lemma sum_upto_ones n f :
  (∀ i, (i < n)%nat → f i = 1%nat) → sum_upto n f = n.
Proof.
  induction n as [| n IH]; intros H; simpl; [reflexivity |].
  rewrite H by lia. rewrite IH; [reflexivity |]. intros i Hi. apply H. lia.
Qed.

(** The events of a run are the events of its goroutines. *)
Lemma count_events n o (tr : list (nat * Obs)) :
  Forall (fun x => (fst x < n)%nat) tr →
  count o (events tr) = sum_upto n (fun i => count o (events_of i tr)).
Proof.
  induction 1 as [| [j ob] tr Hj _ IH]; simpl.
  - clear. induction n as [| n IH]; simpl; [reflexivity | exact IH].
  - rewrite count_app, IH. simpl in Hj.
    rewrite (sum_upto_ext n
               (fun i => count o (events_of i tr ++
                                  match ob with
                                  | Did e => if Nat.eqb j i then [e] else []
                                  | Left _ => []
                                  end))
               (fun i => (count o (events_of i tr)
                          + (if Nat.eqb j i
                             then count o match ob with
                                          | Did e => [e]
                                          | Left _ => []
                                          end
                             else O))%nat)).
    + rewrite sum_upto_add, (sum_upto_at n j) by exact Hj. reflexivity.
    + intros i _. rewrite count_app.
      destruct ob as [e | r]; destruct (Nat.eqb j i); reflexivity.
Qed.

Section Following.
Context {W : Type} (h : Handler W) (N : Z).
Variable cfg : Config.
Variable objects : list types.Object.

Lemma events_of_other i j ob tr :
  j ≠ i → events_of i ((j, ob) :: tr) = events_of i tr.
Proof.
  intros Hne. simpl. destruct ob; [| apply app_nil_r].
  destruct (Nat.eqb_spec j i); [congruence | apply app_nil_r].
Qed.

Lemma step_follows (st st' : Coord W) i :
  length (goroutines st) = length objects →
  Follows cfg objects st → step h N i st = Some st' →
  Follows cfg objects st'.
Proof.
  intros Hlen [Hids HF] Hs. apply step_cases in Hs.
  destruct Hs as [_ [(r & Hi & ->) | (o & k & a & st1 & Hi & He & ->)]].
  - assert (Hlt : (i < length objects)%nat).
    { rewrite <- Hlen. eapply lookup_lt_Some, Hi. }
    destruct (report_trace st r) as [Htr Hgs].
    split; simpl; rewrite Htr, ?Hgs.
    { constructor; [exact Hlt | exact Hids]. }
    intros j obj Hj. specialize (HF j obj Hj).
    destruct (decide (j = i)) as [-> | Hne].
    + rewrite list_lookup_insert_eq by (rewrite Hlen; exact Hlt).
      rewrite Hi in HF. simpl. rewrite app_nil_r.
      specialize (HF [] r). rewrite app_nil_r in HF. apply HF.
      split; reflexivity.
    + rewrite list_lookup_insert_ne by congruence.
      change (events_of j (trace st) ++ [])%list
        with (events_of j ((i, Left r) :: trace st)).
      rewrite events_of_other by congruence. exact HF.
  - assert (Hlt : (i < length objects)%nat).
    { rewrite <- Hlen. eapply lookup_lt_Some, Hi. }
    destruct (exec_trace h N _ _ _ _ He) as (Htr & Hgs & _).
    split; simpl; rewrite Htr, ?Hgs.
    { constructor; [exact Hlt | exact Hids]. }
    intros j obj Hj. specialize (HF j obj Hj).
    destruct (decide (j = i)) as [-> | Hne].
    + rewrite list_lookup_insert_eq by (rewrite Hlen; exact Hlt).
      rewrite Hi in HF. simpl. rewrite Nat.eqb_refl.
      intros evs r Hp. rewrite <- app_assoc. apply HF.
      simpl. exists a, evs. split; [reflexivity | exact Hp].
    + rewrite list_lookup_insert_ne by congruence.
      change (events_of j (trace st) ++ (if Nat.eqb i j then [Ev o a] else []))%list
        with (events_of j ((i, Did (Ev o a)) :: trace st)).
      rewrite events_of_other by congruence. exact HF.
Qed.

Lemma follows_fanout (w : W) : Follows cfg objects (fanout cfg objects w).
Proof.
  split; simpl; [constructor |].
  intros i obj Hi. rewrite list_lookup_fmap, Hi. simpl.
  intros evs r Hp. exact Hp.
Qed.

Lemma schedule_follows n (sched : list nat) (st : Coord W) :
  n = length objects → Inv N n st → Follows cfg objects st →
  Follows cfg objects (schedule h N sched st).
Proof.
  intros ->. revert st. induction sched as [| i sched IH]; intros st HI HF; simpl.
  - exact HF.
  - destruct (step h N i st) as [st' |] eqn:Hs.
    + apply IH; [eapply step_inv; eassumption |].
      eapply step_follows; try eassumption. apply (inv_len _ _ _ HI).
    + apply IH; assumption.
Qed.
End Following.

(** ** The fan-out: every object is accounted for *)

Lemma all_finished (gs : list Goroutine) i :
  forallb finished gs = true → (i < length gs)%nat →
  ∃ r, gs !! i = Some (Finished r).
Proof.
  revert i. induction gs as [| g gs IH]; intros i Hall Hi; simpl in *; [lia |].
  apply andb_prop in Hall. destruct Hall as [Hg Hall].
  destruct i as [| i].
  - destruct g as [p | r]; [discriminate |]. exists r. reflexivity.
  - apply IH; [exact Hall | lia].
Qed.

(** C9.  One unit of work, whatever the service, the semaphore and
    the mutex answer: exactly one of three things happens.  The unit
    returns nil having incremented [copied] once and the bar once; or
    it returns nil having incremented [skipped] once and the bar once;
    or it returns an error having touched neither counter nor the bar.
    The increments sit between [mu.Lock] and [mu.Unlock], and the
    counted block is the last thing the unit does before it gives its
    slot back.  In a run, under every schedule, each goroutine that
    has returned did so along such a path of its own closure; and
    once [Wait] returns, the objects copied, skipped and failed add
    up to the objects listed, and the bar stands at copied plus
    skipped. *)
Theorem progress_once :
  (∀ cfg obj evs res,
     path (syncObject cfg obj) evs res →
     guarded false evs = true
     ∧ ((res = None ∧ count IncCopied evs = 1%nat ∧ count IncSkipped evs = 0%nat
         ∧ count BarIncrement evs = 1%nat
         ∧ ∃ pre, evs = (pre ++ countedCopied ++ [Ev SemRelease tt])%list)
        ∨ (res = None ∧ count IncCopied evs = 0%nat ∧ count IncSkipped evs = 1%nat
           ∧ count BarIncrement evs = 1%nat
           ∧ ∃ pre, evs = (pre ++ countedSkipped ++ [Ev SemRelease tt])%list)
        ∨ (∃ err, res = Some err ∧ count IncCopied evs = 0%nat
           ∧ count IncSkipped evs = 0%nat ∧ count BarIncrement evs = 0%nat)))
  ∧ ∀ (W : Type) (h : Handler W) (parsed : Config)
      (objects : list types.Object) (w : W) (sched : list nat),
      let cfg := withDefaults parsed in
      let st := schedule h (Concurrency cfg) sched (fanout cfg objects w) in
      (∀ i r, goroutines st !! i = Some (Finished r) →
         ∃ obj, objects !! i = Some obj ∧
                path (syncObject cfg obj) (events_of i (trace st)) r)
      ∧ (wait st ≠ None →
         (copied st + skipped st + failures (goroutines st))%nat = length objects
         ∧ bar st = (copied st + skipped st)%nat).
Proof.
  split; [exact unit_outcomes |].
  intros W h parsed objects w sched cfg st.
  set (N := Concurrency cfg) in *. set (n := length objects).
  assert (HN : 1 ≤ N) by apply withDefaults_concurrency.
  destruct (schedule_inv h N n sched (fanout cfg objects w)) as [HI _].
  { apply inv_fanout. lia. }
  { apply served_nil. }
  fold st in HI.
  pose proof (schedule_booked h N sched _ (booked_fanout cfg objects w)) as HB.
  fold st in HB. destruct HB as (_ & _ & Hc & Hs & Hb).
  assert (HF : Follows cfg objects st).
  { apply (schedule_follows h N cfg objects n); [reflexivity | |].
    - apply inv_fanout. lia.
    - apply follows_fanout. }
  destruct HF as [Hids HF].
  assert (Hfin : ∀ i r, goroutines st !! i = Some (Finished r) →
            ∃ obj, objects !! i = Some obj ∧
                   path (syncObject cfg obj) (events_of i (trace st)) r).
  { intros i r Hi.
    assert (Hlt : (i < length objects)%nat).
    { fold n. rewrite <- (inv_len _ _ _ HI). eapply lookup_lt_Some, Hi. }
    destruct (lookup_lt_is_Some_2 objects i Hlt) as [obj Hobj].
    exists obj. split; [exact Hobj |].
    specialize (HF i obj Hobj). rewrite Hi in HF. exact HF. }
  split; [exact Hfin |].
  intros Hw. unfold wait in Hw.
  destruct (forallb finished (goroutines st)) eqn:Hall; [| congruence].
  rewrite Hc, Hs, Hb, !(count_events n) by exact Hids.
  unfold failures. rewrite (inv_len _ _ _ HI).
  assert (Hone : ∀ i, (i < n)%nat →
            let evs := events_of i (trace st) in
            (count IncCopied evs + count IncSkipped evs
             + (if failed (goroutines st) i then 1 else 0) = 1
             ∧ count BarIncrement evs = count IncCopied evs + count IncSkipped evs)%nat).
  { intros i Hi evs.
    destruct (all_finished _ i Hall) as [r Hr].
    { rewrite (inv_len _ _ _ HI). exact Hi. }
    destruct (Hfin i r Hr) as (obj & _ & Hp).
    apply unit_outcomes in Hp. fold evs in Hp.
    unfold failed. rewrite Hr.
    destruct Hp as [_ [(-> & -> & -> & -> & _) | [(-> & -> & -> & -> & _)
                      | (err & -> & -> & -> & ->)]]]; split; reflexivity. }
  split.
  - rewrite <- !sum_upto_add. apply sum_upto_ones.
    intros i Hi. apply (Hone i Hi).
  - rewrite <- sum_upto_add. apply sum_upto_ext.
    intros i Hi. apply (Hone i Hi).
Qed.

Lemma progress_once_witness :
  path (syncObject Sim.cfg (Sim.obj "b" 20 "t2"))
    (snd (run Sim.handler (syncObject Sim.cfg (Sim.obj "b" 20 "t2")) Sim.abc))
    None
  ∧ guarded false
      (snd (run Sim.handler (syncObject Sim.cfg (Sim.obj "b" 20 "t2")) Sim.abc))
    = true.
Proof.
  assert (H : path (syncObject Sim.cfg (Sim.obj "b" 20 "t2"))
                (snd (run Sim.handler (syncObject Sim.cfg (Sim.obj "b" 20 "t2"))
                        Sim.abc)) None).
  { eapply (run_path Sim.handler _ Sim.abc). reflexivity. }
  split; [exact H |].
  exact (proj1 (proj1 progress_once _ _ _ _ H)).
Defined.

(** ** The scenario of the specification, run *)

(** [a] is absent, [b] current, [c] stale: two copies and one skip,
    with the three goroutines taking turns or one after the other. *)
Example scenario_abc :
  fst (fst (main Sim.handler 5 (concat (repeat [0; 1; 2]%nat 24)) Sim.cfg Sim.abc))
  = Completed 2 1
  ∧ fst (fst (main Sim.handler 5
                (repeat 2 12 ++ repeat 0 12 ++ repeat 1 12)%nat%list
                Sim.cfg Sim.abc))
    = Completed 2 1.
Proof. split; reflexivity. Qed.

(** With room for one goroutine only, the others wait for the slot:
    after the first has acquired, the second cannot. *)
Example scenario_one_slot :
  holders 3 (trace (schedule Sim.handler 1 [0; 1; 2; 1]%nat
                      (fanout Sim.cfg (Sim.src Sim.abc) Sim.abc))) = 1%nat.
Proof. reflexivity. Qed.

(** A copy that lands with another entity tag fails the run, and the
    error reported is the first one returned. *)
Example scenario_retagged :
  fst (fst (main Sim.handler 5 (concat (repeat [0; 1; 2]%nat 24)) Sim.cfg
              Faults.retagged))
  = Failed ("Error during synchronization: "
            +:+ verificationFailed "a" 10 10 "t1" "t1-2").
Proof. reflexivity. Qed.

(** * Further properties *)

(** ** The create-bucket and versioning blocks *)

Lemma createBucketStep_flow db evs f :
  path (createBucketStep db) evs f →
  ∃ r, evs = [Ev (Call destClient (CreateBucket db)) r] ∧
       f = match r with
           | inl _ => Next
           | inr err =>
               if Contains err "BucketAlreadyOwnedByYou"
                  || Contains err "BucketAlreadyExists"
               then Next
               else Exit (Returned (Some ("failed to create destination bucket "
                                          +:+ db +:+ ": " +:+ err)))
           end.
Proof.
  unfold createBucketStep. intros H. path_step H. exists r.
  destruct r as [out | err].
  - path_end H. split; reflexivity.
  - destruct (Contains err "BucketAlreadyOwnedByYou"),
             (Contains err "BucketAlreadyExists");
      cbn [negb andb orb] in *; path_end H; split; reflexivity.
Qed.

(** X1.  [syncBucketConfig] starts by creating the destination
    bucket.  A success, or an error that mentions
    [BucketAlreadyOwnedByYou] or [BucketAlreadyExists], lets it go on
    to fetch the source policy; any other error makes it return an
    error after that single request, and [main] ends in
    [log.Fatalf]. *)
Theorem create_bucket_contract {W : Type} (h : Handler W) (fuel : nat)
    (sched : list nat) (parsed : Config) (w w' : W) (o : Outcome)
    (evs : list Event) :
  let sb := Bucket (Source (withDefaults parsed)) in
  let db := Bucket (Destination (withDefaults parsed)) in
  run h (syncBucketConfig sb db) w = (o, w', evs) →
  ∃ r rest,
    evs = Ev (Call destClient (CreateBucket db)) r :: rest ∧
    if match r with
       | inl _ => true
       | inr err => Contains err "BucketAlreadyOwnedByYou"
                    || Contains err "BucketAlreadyExists"
       end
    then ∃ r' rest',
           rest = Ev (Call sourceClient (GetBucketPolicy sb)) r' :: rest'
    else ∃ err,
           r = inr err ∧ rest = [] ∧
           o = Returned (Some ("failed to create destination bucket "
                               +:+ db +:+ ": " +:+ err)) ∧
           main h fuel sched parsed w =
           (Stopped (Fatal ("Failed to sync bucket configurations: "
                            +:+ "failed to create destination bucket "
                            +:+ db +:+ ": " +:+ err)), evs, []).
Proof.
  intros sb db Hrun. pose proof Hrun as Hp.
  apply run_path, syncBucketConfig_path in Hp. destruct Hp as (f & H & ->).
  apply path_andThen in H.
  destruct H as [(o' & H & ->) | (evs0 & evs1 & H0 & H & ->)].
  - apply createBucketStep_flow in H. destruct H as (r & -> & Hf).
    exists r, []. split; [reflexivity |].
    destruct r as [out | err]; [discriminate |].
    destruct (Contains err "BucketAlreadyOwnedByYou"
              || Contains err "BucketAlreadyExists"); [discriminate |].
    injection Hf as ->. exists err. repeat split.
    apply (main_stops h fuel sched parsed w w' _ _ Hrun). discriminate.
  - apply createBucketStep_flow in H0. destruct H0 as (r & -> & Hf).
    exists r, evs1. split; [reflexivity |].
    assert (Hpol : ∃ r' rest',
              evs1 = Ev (Call sourceClient (GetBucketPolicy sb)) r' :: rest').
    { apply path_andThen in H.
      destruct H as [(o' & H & _) | (e1 & e2 & H & _ & ->)];
        apply policyStep_path in H; destruct H as (r' & rest' & -> & _); eauto. }
    destruct r as [out | err]; [exact Hpol |].
    destruct (Contains err "BucketAlreadyOwnedByYou"
              || Contains err "BucketAlreadyExists"); [exact Hpol | discriminate].
Qed.

Lemma create_bucket_contract_witness :
  run Sim.handler (syncBucketConfig "src" "dst") Sim.abc
  = (Returned None, Sim.abc,
     snd (run Sim.handler (syncBucketConfig "src" "dst") Sim.abc))
  ∧ ∃ r rest,
      snd (run Sim.handler (syncBucketConfig "src" "dst") Sim.abc)
      = Ev (Call destClient (CreateBucket "dst")) r :: rest.
Proof.
  split; [reflexivity |].
  destruct (create_bucket_contract Sim.handler 5 [] Sim.cfg Sim.abc Sim.abc
              _ _ eq_refl) as (r & rest & H & _).
  exists r, rest. exact H.
Defined.

(** ** The listing loop *)

(** X3.  The listing loop, from any cursor and any list gathered so
    far.  If it ends with a list, the requests were the pages of one
    chain of cursors, each request carrying the cursor of the page
    before; every page but the last announced another, the last did
    not; and the list is what was gathered before followed by the
    contents of the pages in order.  If it ends in [log.Fatalf], a
    request failed after such a chain, and nothing of the pages read
    so far is used.  The loop is still turning after [fuel] requests
    only if each of them announced another page. *)
Theorem listing_pages (fuel : nat) (bucket : string) (token : option string)
    (acc : list types.Object) (evs : list Event) (s : Startup) :
  path (listObjects fuel bucket token acc) evs s →
  match s with
  | Listed objects =>
      ∃ outs last,
        evs = pages bucket token (outs ++ [last]) ∧
        forallb continues outs = true ∧ continues last = false ∧
        objects = (acc ++ flat_map s3.Contents (outs ++ [last]))%list ∧
        (length outs < fuel)%nat
  | Fatal msg =>
      ∃ outs err,
        evs = (pages bucket token outs
               ++ [Ev (Call sourceClient
                         (ListObjectsV2 bucket (cursor token outs)))
                     (inr err)])%list ∧
        forallb continues outs = true ∧
        msg = "Failed to list source objects: " +:+ err ∧
        (length outs < fuel)%nat
  | Spinning =>
      ∃ outs,
        evs = pages bucket token outs ∧ forallb continues outs = true ∧
        length outs = fuel
  | Crashed _ => False
  end.
Proof.
  revert token acc evs.
  induction fuel as [| fuel IH]; intros token acc evs H.
  - path_end H. exists []. repeat split.
  - cbn -[listObjects] in H. simpl in H. path_step H.
    destruct r as [out | err].
    2: { path_end H. exists [], err. repeat split. simpl. lia. }
    assert (Hlast : continues out = false →
              path (Ret (Listed (acc ++ s3.Contents out))) evs0 s →
              match s with
              | Listed objects =>
                  ∃ outs last,
                    Ev (Call sourceClient (ListObjectsV2 bucket token)) (inl out)
                    :: evs0 = pages bucket token (outs ++ [last]) ∧
                    forallb continues outs = true ∧ continues last = false ∧
                    objects = (acc ++ flat_map s3.Contents (outs ++ [last]))%list ∧
                    (length outs < S fuel)%nat
              | Fatal _ | Crashed _ => False
              | Spinning => False
              end).
    { intros Hc Hp. path_end Hp. exists [], out. simpl.
      rewrite app_nil_r. repeat split; [exact Hc | lia]. }
    unfold continues in Hlast.
    destruct (s3.NextContinuationToken out) as [t |] eqn:Ht.
    2: { specialize (Hlast eq_refl H). destruct s; try contradiction.
         exact Hlast. }
    destruct (String.eqb t "") eqn:Et.
    { specialize (Hlast eq_refl H). destruct s; try contradiction.
      exact Hlast. }
    clear Hlast. apply IH in H.
    assert (Hc : continues out = true).
    { unfold continues. rewrite Ht, Et. reflexivity. }
    destruct s as [msg | msg | | objects].
    + destruct H as (outs & err & -> & Hall & -> & Hlen).
      exists (out :: outs), err. simpl. rewrite Ht, Hc, Hall.
      repeat split. simpl. lia.
    + contradiction.
    + destruct H as (outs & -> & Hall & <-).
      exists (out :: outs). simpl. rewrite Ht, Hc, Hall. repeat split.
    + destruct H as (outs & last & -> & Hall & Hl & -> & Hlen).
      exists (out :: outs), last. simpl. rewrite Ht, Hc, Hall, Hl.
      rewrite <- app_assoc. repeat split. simpl. lia.
Qed.

Lemma listing_pages_witness :
  path (listObjects 5 "src" None [])
    (snd (run Paging.handler (listObjects 5 "src" None []) O))
    (Listed [Sim.obj "a" 10 "t1"; Sim.obj "b" 20 "t2"; Sim.obj "c" 30 "t3"])
  ∧ ∃ outs last,
      snd (run Paging.handler (listObjects 5 "src" None []) O)
      = pages "src" None (outs ++ [last]) ∧
      forallb continues outs = true ∧ continues last = false ∧
      [Sim.obj "a" 10 "t1"; Sim.obj "b" 20 "t2"; Sim.obj "c" 30 "t3"]
      = ([] ++ flat_map s3.Contents (outs ++ [last]))%list ∧
      (length outs < 5)%nat.
Proof.
  assert (H : path (listObjects 5 "src" None [])
                (snd (run Paging.handler (listObjects 5 "src" None []) O))
                (Listed [Sim.obj "a" 10 "t1"; Sim.obj "b" 20 "t2";
                         Sim.obj "c" 30 "t3"])).
  { eapply (run_path Paging.handler _ O). reflexivity. }
  split; [exact H |].
  exact (listing_pages _ _ _ _ _ _ H).
Defined.

(** ** One direction only *)

Lemma only_bind {A B : Type} (Q : Event → Prop) (p : Prog A) (f : A → Prog B) :
  only Q p → (∀ a, only Q (f a)) → only Q (bind p f).
Proof.
  induction p as [a | o k IH]; intros Hp Hf; simpl in *.
  - apply Hf.
  - intros a. destruct (Hp a) as [Hq Hk]. split; [exact Hq |].
    apply IH; assumption.
Qed.

Lemma only_path {A : Type} (Q : Event → Prop) (p : Prog A) evs (a : A) :
  only Q p → path p evs a → Forall Q evs.
Proof.
  revert evs. induction p as [x | o k IH]; intros evs Hp H; simpl in *.
  - destruct H as [-> _]. constructor.
  - destruct H as (r & evs' & -> & H). destruct (Hp r) as [Hq Hk].
    constructor; [exact Hq |]. eapply IH; eassumption.
Qed.

Lemma only_andThen (Q : Event → Prop) (p q : Prog Flow) :
  only Q p → only Q q → only Q (andThen p q).
Proof.
  intros Hp Hq. unfold andThen. apply only_bind; [exact Hp |].
  intros [| o]; [exact Hq | exact I].
Qed.

(** Solves [only (oneWay sb db) p] for a program written out. *)
Ltac one_way :=
  repeat (cbn -[oneWay]; intros;
          match goal with
          | |- _ ∧ _ => split
          | |- oneWay _ _ _ => repeat split
          | |- True => exact I
          | |- only _ (match ?x with _ => _ end) => destruct x
          | |- only _ (if ?x then _ else _) => destruct x
          end).

Lemma only_syncBucketConfig sb db :
  only (oneWay sb db) (syncBucketConfig sb db).
Proof.
  unfold syncBucketConfig. apply only_bind; [| intros; exact I].
  repeat apply only_andThen.
  - unfold createBucketStep. one_way.
  - unfold policyStep. one_way.
  - unfold versioningStep. one_way.
  - unfold lifecycleStep. one_way.
Qed.

Lemma only_listObjects sb db fuel token acc :
  only (oneWay sb db) (listObjects fuel sb token acc).
Proof.
  revert token acc. induction fuel as [| fuel IH]; intros token acc.
  - exact I.
  - cbn -[oneWay listObjects]. simpl. intros a. split; [repeat split |].
    destruct a as [out | err]; [| exact I].
    destruct (s3.NextContinuationToken out) as [t |]; [| exact I].
    destruct (String.eqb t ""); [exact I | apply IH].
Qed.

Lemma only_startup fuel cfg :
  only (oneWay (Bucket (Source cfg)) (Bucket (Destination cfg)))
    (startup fuel cfg).
Proof.
  unfold startup. apply only_bind; [apply only_syncBucketConfig |].
  intros [[err |] | msg]; try exact I. apply only_listObjects.
Qed.

Lemma only_syncObject cfg obj :
  only (oneWay (Bucket (Source cfg)) (Bucket (Destination cfg)))
    (syncObject cfg obj).
Proof.
  assert (Hcopy : only (oneWay (Bucket (Source cfg)) (Bucket (Destination cfg)))
                    (copyAndCount cfg obj)).
  { unfold copyAndCount. apply only_bind.
    - unfold copyAndVerifyObject. one_way.
    - intros [err |]; [exact I |]. unfold countCopied. one_way. }
  unfold syncObject. cbn -[oneWay defer syncBody]. intros a.
  split; [exact I |]. destruct a as [err |]; [exact I |].
  unfold defer. apply only_bind.
  - unfold syncBody. cbn -[oneWay copyAndCount countSkipped]. intros a.
    split; [reflexivity |]. destruct a as [out | err].
    + destruct (_ || _); [exact Hcopy |]. unfold countSkipped. one_way.
    + destruct (_ || _); [exact Hcopy | exact I].
  - intros r. one_way.
Qed.

Section OneWay.
Context {W : Type} (h : Handler W) (N : Z) (Q : Event → Prop).

Lemma step_only (st st' : Coord W) i :
  Forall Q (events (trace st)) →
  (∀ j p, goroutines st !! j = Some (Running p) → only Q p) →
  step h N i st = Some st' →
  Forall Q (events (trace st'))
  ∧ ∀ j p, goroutines st' !! j = Some (Running p) → only Q p.
Proof.
  intros Hev Hgs Hs. apply step_cases in Hs.
  destruct Hs as [_ [(r & Hi & ->) | (o & k & a & st1 & Hi & He & ->)]].
  - destruct (report_trace st r) as [Htr Hg]. simpl. rewrite Htr, Hg.
    rewrite app_nil_r. split; [exact Hev |]. intros j p Hj.
    destruct (decide (j = i)) as [-> | Hne].
    + apply list_lookup_insert_Some in Hj.
      destruct Hj as [(_ & [=] & _) | (Hne & _)]. congruence.
    + rewrite list_lookup_insert_ne in Hj by congruence. eapply Hgs, Hj.
  - destruct (exec_trace h N _ _ _ _ He) as (Htr & Hg & _).
    simpl. rewrite Htr, Hg. pose proof (Hgs i _ Hi) as Hp. simpl in Hp.
    destruct (Hp a) as [Hq Hk]. split.
    + apply Forall_app. split; [exact Hev |]. constructor; [exact Hq | constructor].
    + intros j p Hj. destruct (decide (j = i)) as [-> | Hne].
      * apply list_lookup_insert_Some in Hj.
        destruct Hj as [(_ & [= <-] & _) | (Hne & _)]; [exact Hk | congruence].
      * rewrite list_lookup_insert_ne in Hj by congruence. eapply Hgs, Hj.
Qed.

Lemma schedule_only (sched : list nat) (st : Coord W) :
  Forall Q (events (trace st)) →
  (∀ j p, goroutines st !! j = Some (Running p) → only Q p) →
  Forall Q (events (trace (schedule h N sched st))).
Proof.
  revert st. induction sched as [| i sched IH]; intros st Hev Hgs; simpl.
  - exact Hev.
  - destruct (step h N i st) as [st' |] eqn:Hs; [| apply IH; assumption].
    destruct (step_only st st' i Hev Hgs Hs) as [Hev' Hgs'].
    apply IH; assumption.
Qed.
End OneWay.

(** X4.  The synchronization goes one way.  In every run of [main],
    under every schedule and whatever the service answers, the source
    client is only sent reads, all of them on the source bucket; every
    request that writes (create bucket, put policy, put versioning,
    put lifecycle, copy object) goes to the destination client; and
    the destination client is only ever asked about the destination
    bucket. *)
Theorem one_way_sync {W : Type} (h : Handler W) (fuel : nat)
    (sched : list nat) (parsed : Config) (w : W) :
  let cfg := withDefaults parsed in
  Forall (oneWay (Bucket (Source cfg)) (Bucket (Destination cfg)))
    (snd (fst (main h fuel sched parsed w))
     ++ events (snd (main h fuel sched parsed w))).
Proof.
  intros cfg. unfold main. fold cfg.
  destruct (run h (startup fuel cfg) w) as [[s w1] evs] eqn:Hrun.
  assert (Hevs : Forall (oneWay (Bucket (Source cfg)) (Bucket (Destination cfg)))
                   evs).
  { eapply only_path; [apply only_startup | eapply run_path, Hrun]. }
  destruct s as [msg | msg | | objects]; simpl;
    try (rewrite app_nil_r; exact Hevs).
  apply Forall_app. split; [exact Hevs |].
  apply schedule_only; simpl; [constructor |].
  intros j p Hj. rewrite list_lookup_fmap in Hj.
  destruct (objects !! j) as [obj |]; [| discriminate].
  injection Hj as <-. exact (only_syncObject cfg obj).
Qed.

(** ** The mutex *)

Section Mutex.
Context {W : Type} (h : Handler W) (N : Z) (n : nat).

(** Who is about to count holds the mutex. *)
Lemma running_locked (st : Coord W) i o k (a : Resp o) :
  Inv N n st → goroutines st !! i = Some (Running (Vis o k)) →
  isCount (Ev o a) = true → locked_by i (trace st) = true.
Proof.
  intros HI Hi Ho. pose proof (inv_gor _ _ _ HI i) as Hd. rewrite Hi in Hd.
  unfold disciplined in Hd; simpl in Hd. specialize (Hd a). unfold phase in Hd.
  destruct (locked_by i (trace st)); [reflexivity |].
  destruct (holds i (trace st)); destruct o; simpl in Hd; try contradiction;
    discriminate.
Qed.

Lemma step_countedLocked (st st' : Coord W) i :
  Inv N n st → countedLocked (trace st) → step h N i st = Some st' →
  countedLocked (trace st').
Proof.
  intros HI Hcl Hs. apply step_cases in Hs.
  destruct Hs as [_ [(r & _ & ->) | (o & k & a & st1 & Hi & He & ->)]];
    simpl; intros later j e earlier Heq He'.
  - rewrite (proj1 (report_trace st r)) in Heq.
    destruct later as [| x later]; [discriminate |].
    injection Heq as _ Heq. eapply Hcl; eassumption.
  - rewrite (proj1 (exec_trace _ _ _ _ _ _ He)) in Heq.
    destruct later as [| x later].
    + injection Heq as <- <- <-. eapply running_locked; eassumption.
    + injection Heq as _ Heq. eapply Hcl; eassumption.
Qed.

Lemma schedule_countedLocked (sched : list nat) (st : Coord W) :
  Inv N n st → countedLocked (trace st) →
  countedLocked (trace (schedule h N sched st)).
Proof.
  revert st. induction sched as [| i sched IH]; intros st HI Hcl; simpl.
  - exact Hcl.
  - destruct (step h N i st) as [st' |] eqn:Hs; [| apply IH; assumption].
    apply IH; [eapply step_inv | eapply step_countedLocked]; eassumption.
Qed.
End Mutex.

(** X6.  The mutex does its work in every run: in every state that
    any schedule reaches, at most one goroutine holds it, it is
    locked exactly when some goroutine holds it, and every increment
    of [copied], [skipped] or the bar that has been made was made by
    the goroutine holding the mutex at that moment.  So no two
    increments ever overlap. *)
Theorem counter_exclusion {W : Type} (h : Handler W) (parsed : Config)
    (objects : list types.Object) (w : W) (sched : list nat) :
  let cfg := withDefaults parsed in
  let st := schedule h (Concurrency cfg) sched (fanout cfg objects w) in
  (∀ i j, locked_by i (trace st) = true → locked_by j (trace st) = true → i = j)
  ∧ (mu st = true ↔ ∃ i, locked_by i (trace st) = true)
  ∧ countedLocked (trace st).
Proof.
  intros cfg st. set (N := Concurrency cfg) in *.
  assert (HN : 1 ≤ N) by apply withDefaults_concurrency.
  assert (HI0 : Inv N (length objects) (fanout cfg objects w)).
  { apply inv_fanout. lia. }
  destruct (schedule_inv h N _ sched _ HI0 served_nil) as [HI _]. fold st in HI.
  split; [| split].
  - intros i j Hi Hj. destruct (mu st) eqn:Hmu.
    + destruct (inv_mu_held _ _ _ HI Hmu) as (i0 & _ & Hu).
      rewrite (Hu i Hi), (Hu j Hj). reflexivity.
    + rewrite (inv_mu_free _ _ _ HI Hmu i) in Hi. discriminate.
  - split.
    + intros Hmu. destruct (inv_mu_held _ _ _ HI Hmu) as (i & Hi & _). eauto.
    + intros [i Hi]. destruct (mu st) eqn:Hmu; [reflexivity |].
      rewrite (inv_mu_free _ _ _ HI Hmu i) in Hi. discriminate.
  - apply (schedule_countedLocked h N (length objects)); [exact HI0 |].
    intros [| x later] i e earlier H; discriminate.
Qed.

(** ** The length of a run *)

Lemma budget_fanout_exact cfg objects :
  Budget (map (fun obj => Running (syncObject cfg obj)) objects)
    (12 * length objects).
Proof.
  induction objects as [| obj objects IH]; simpl.
  - constructor.
  - replace (S (length objects + _))%nat with (S 11 + 12 * length objects)%nat
      by lia.
    apply (Budget_running _ 11); [apply within_syncObject | exact IH].
Qed.

Lemma schedule_bounded {W : Type} (h : Handler W) N (sched : list nat)
    (st : Coord W) (m b : nat) :
  Budget (goroutines st) m → (length (trace st) + m ≤ b)%nat →
  (length (trace (schedule h N sched st)) ≤ b)%nat.
Proof.
  revert st m. induction sched as [| i sched IH]; intros st m HB Hb; simpl.
  - lia.
  - destruct (step h N i st) as [st' |] eqn:Hs; [| eapply IH; eassumption].
    destruct (step_budget h N st st' i m HB Hs) as (m' & Hlt & HB').
    apply (IH st' m' HB').
    assert (Hlen : length (trace st') = S (length (trace st))).
    { apply step_cases in Hs.
      destruct Hs as [_ [(r & _ & ->) | (o & k & a & st1 & _ & He & ->)]]; simpl.
      - rewrite (proj1 (report_trace st r)). reflexivity.
      - rewrite (proj1 (exec_trace _ _ _ _ _ _ He)). reflexivity. }
    lia.
Qed.

(** X10.  The fan-out ends, for every parsed configuration (a
    concurrency of zero or less included, since ten is then used).
    Under every schedule: each move adds one entry to the trace; the
    trace never grows beyond twelve entries per listed object (eleven
    operations and the return); and as long as [Wait] has not
    returned, some goroutine can move.  So a run that keeps moving
    reaches the return of [Wait] within [12 * len(objects)] moves,
    and neither semaphore nor mutex can block it for good. *)
Theorem bounded_run {W : Type} (h : Handler W) (parsed : Config)
    (objects : list types.Object) (w : W) (sched : list nat) :
  let cfg := withDefaults parsed in
  let N := Concurrency cfg in
  let st := schedule h N sched (fanout cfg objects w) in
  (length (trace st) ≤ 12 * length objects)%nat
  ∧ (∀ i st', step h N i st = Some st' →
       length (trace st') = S (length (trace st)))
  ∧ (wait st = None → ∃ i st', step h N i st = Some st').
Proof.
  intros cfg N st.
  assert (HN : 1 ≤ N) by apply withDefaults_concurrency.
  assert (HI0 : Inv N (length objects) (fanout cfg objects w)).
  { apply inv_fanout. lia. }
  destruct (schedule_inv h N _ sched _ HI0 served_nil) as [HI _]. fold st in HI.
  split; [| split].
  - apply (schedule_bounded h N sched _ (12 * length objects)).
    + apply budget_fanout_exact.
    + simpl. lia.
  - intros i st' Hs. apply step_cases in Hs.
    destruct Hs as [_ [(r & _ & ->) | (o & k & a & st1 & _ & He & ->)]]; simpl.
    + rewrite (proj1 (report_trace st r)). reflexivity.
    + rewrite (proj1 (exec_trace _ _ _ _ _ _ He)). reflexivity.
  - intros Hw. eapply no_deadlock; eassumption.
Qed.

(** X2.  The versioning block of [syncBucketConfig], once the blocks
    before it have fallen through: the status read from the source
    bucket is the status written to the destination bucket.  A failed
    read or a failed write makes the function return an error with
    nothing requested after it; after a successful write the function
    goes on with the lifecycle block.  Hence a nil return of
    [syncBucketConfig] means the source's versioning status was read
    and written to the destination with success. *)
Theorem versioning_step_contract (sb db : string) (evs : list Event)
    (o : Outcome) :
  path (syncBucketConfig sb db) evs o →
  ((∃ o', path (beforeVersioning sb db) evs (Exit o') ∧ o = o')
   ∨ ∃ evs0 r rest,
       path (beforeVersioning sb db) evs0 Next ∧
       evs = (evs0 ++ Ev (Call sourceClient (GetBucketVersioning sb)) r
              :: rest)%list ∧
       match r with
       | inr err =>
           rest = [] ∧
           o = Returned (Some ("failed to get source bucket versioning for "
                               +:+ sb +:+ ": " +:+ err))
       | inl out =>
           ∃ r' rest',
             rest = Ev (Call destClient
                          (PutBucketVersioning db (s3.Status out))) r'
                    :: rest' ∧
             match r' with
             | inr err =>
                 rest' = [] ∧
                 o = Returned (Some ("failed to sync bucket versioning for "
                                     +:+ db +:+ ": " +:+ err))
             | inl _ =>
                 ∃ f, path (lifecycleStep sb db) rest' f ∧ o = finish f
             end
       end)
  ∧ (o = Returned None →
     ∃ pre out post,
       evs = (pre ++ Ev (Call sourceClient (GetBucketVersioning sb)) (inl out)
              :: Ev (Call destClient (PutBucketVersioning db (s3.Status out)))
                   (inl tt)
              :: post)%list).
Proof.
  intros H. apply syncBucketConfig_path in H. destruct H as (f & H & ->).
  assert (H' : path (andThen (beforeVersioning sb db)
                       (andThen (versioningStep sb db) (lifecycleStep sb db)))
                 evs f).
  { unfold beforeVersioning.
    apply (proj1 (path_andThen_assoc _ _ _ _ _)), H. }
  clear H. apply path_andThen in H'.
  destruct H' as [(o' & H & ->) | (evs0 & evs1 & H0 & H & ->)].
  { split; [left; eauto |]. simpl. intros ->.
    exfalso. unfold beforeVersioning in H.
    apply (proj1 (path_andThen _ _ _ _)) in H.
    destruct H as [(o' & H & Heq) | (e1 & e2 & H1 & H2 & ->)].
    - simplify_eq. unfold createBucketStep in H. path_step H.
      destruct r as [out | err];
        [cbn [path bind perform fail] in H; destruct H as [_ H]; discriminate |].
      destruct (_ && _); cbn [path bind perform fail] in H;
        destruct H as [_ H]; discriminate.
    - apply policyStep_path in H2. destruct H2 as (r & rest & -> & H2).
      destruct r as [out | err].
      + destruct (s3.Policy out).
        * destruct H2 as (r' & _ & H2). destruct r'; discriminate.
        * destruct H2 as [_ [=]].
      + destruct H2 as [_ H2].
        destruct (Contains err "NoSuchBucketPolicy"); discriminate. }
  apply path_andThen in H.
  destruct H as [(o' & H & ->) | (evs2 & evs3 & H1 & H & ->)].
  - apply versioningStep_path in H. destruct H as (r & rest & -> & H).
    split.
    + right. exists evs0, r, rest. split; [assumption |].
      split; [reflexivity |]. destruct r as [out | err].
      * destruct H as (r' & -> & H). exists r', []. split; [reflexivity |].
        destruct r' as [u | err]; [discriminate |].
        injection H as <-. split; reflexivity.
      * destruct H as [-> [= <-]]. split; reflexivity.
    + simpl. intros ->. exfalso. destruct r as [out | err].
      * destruct H as (r' & _ & H). destruct r'; discriminate.
      * destruct H as [_ [=]].
  - apply versioningStep_path in H1. destruct H1 as (r & rest & -> & H1).
    split.
    + right. exists evs0, r, (rest ++ evs3)%list. split; [assumption |].
      split; [reflexivity |]. destruct r as [out | err].
      * destruct H1 as (r' & -> & H1). exists r', evs3.
        split; [reflexivity |].
        destruct r' as [u | err]; [eauto | discriminate].
      * destruct H1 as [_ [=]].
    + intros _. destruct r as [out | err].
      * destruct H1 as (r' & -> & H1).
        destruct r' as [[] | err]; [| discriminate].
        exists evs0, out, evs3. reflexivity.
      * destruct H1 as [_ [=]].
Qed.

Lemma versioning_step_contract_witness :
  path (syncBucketConfig "src" "dst")
    (snd (run Sim.handler (syncBucketConfig "src" "dst") Sim.abc))
    (Returned None)
  ∧ ∃ pre out post,
      snd (run Sim.handler (syncBucketConfig "src" "dst") Sim.abc)
      = (pre ++ Ev (Call sourceClient (GetBucketVersioning "src")) (inl out)
         :: Ev (Call destClient (PutBucketVersioning "dst" (s3.Status out)))
              (inl tt)
         :: post)%list.
Proof.
  assert (H : path (syncBucketConfig "src" "dst")
                (snd (run Sim.handler (syncBucketConfig "src" "dst") Sim.abc))
                (Returned None)).
  { eapply (run_path Sim.handler _ Sim.abc). reflexivity. }
  split; [exact H |].
  exact (proj2 (versioning_step_contract _ _ _ _ H) eq_refl).
Defined.

(** ** What the errors say *)

Lemma prefix_append (k b : string) : String.prefix k (k +:+ b) = true.
Proof.
  induction k as [| c k IH]; simpl.
  - destruct b; reflexivity.
  - destruct (ascii_dec c c); [exact IH | congruence].
Qed.

Lemma Contains_unfold (s sub : string) :
  Contains s sub =
  String.prefix sub s
  || match s with
     | EmptyString => false
     | String _ s' => Contains s' sub
     end.
Proof. destruct s; reflexivity. Qed.

(** [strings.Contains] finds a string wherever it was put. *)
Lemma Contains_mid (a k b : string) : Contains (a +:+ k +:+ b) k = true.
Proof.
  induction a as [| c a IH].
  - change ("" +:+ k +:+ b) with (k +:+ b).
    rewrite Contains_unfold, prefix_append. reflexivity.
  - change (String c a +:+ k +:+ b) with (String c (a +:+ k +:+ b)).
    rewrite Contains_unfold, IH. apply orb_true_r.
Qed.

Lemma step_error_names sb db (p : Prog Flow) evs err :
  p = createBucketStep db ∨ p = policyStep sb db
  ∨ p = versioningStep sb db ∨ p = lifecycleStep sb db →
  path p evs (Exit (Returned (Some err))) →
  Contains err sb = true ∨ Contains err db = true.
Proof.
  intros [-> | [-> | [-> | ->]]] H.
  - apply createBucketStep_flow in H. destruct H as (r & _ & H).
    destruct r as [out | e]; [discriminate |].
    destruct (_ || _); [discriminate |]. injection H as ->.
    right. apply Contains_mid.
  - apply policyStep_path in H. destruct H as (r & rest & _ & H).
    destruct r as [out | e].
    + destruct (s3.Policy out).
      * destruct H as (r' & _ & H). destruct r' as [u | e]; [discriminate |].
        injection H as ->. right. apply Contains_mid.
      * destruct H as [_ [=]].
    + destruct H as [_ H]. destruct (Contains e "NoSuchBucketPolicy");
        [discriminate |]. injection H as ->. left. apply Contains_mid.
  - apply versioningStep_path in H. destruct H as (r & rest & _ & H).
    destruct r as [out | e].
    + destruct H as (r' & _ & H). destruct r' as [u | e]; [discriminate |].
      injection H as ->. right. apply Contains_mid.
    + destruct H as [_ H]. injection H as ->. left. apply Contains_mid.
  - apply lifecycleStep_path in H. destruct H as (r & rest & _ & H).
    destruct r as [out | e].
    + destruct (s3.Rules out).
      * destruct H as [_ [=]].
      * destruct H as (r' & _ & H). destruct r' as [u | e]; [discriminate |].
        injection H as ->. right. apply Contains_mid.
    + destruct H as [_ H].
      destruct (Contains e "NoSuchLifecycleConfiguration"); [discriminate |].
      injection H as ->. left. apply Contains_mid.
Qed.

(** X7.  Errors name what they are about.  Every error returned by
    the per-object closure, and every error returned by
    [copyAndVerifyObject], contains the key of the object; every
    error returned by [syncBucketConfig] contains the name of the
    source bucket or of the destination bucket. *)
Theorem errors_name_their_subject :
  (∀ cfg obj evs err,
     path (syncObject cfg obj) evs (Some err) →
     Contains err (types.Key obj) = true)
  ∧ (∀ sb db key size tag evs err,
       path (copyAndVerifyObject sb db key size tag) evs (Some err) →
       Contains err key = true)
  ∧ (∀ sb db evs err,
       path (syncBucketConfig sb db) evs (Returned (Some err)) →
       Contains err sb = true ∨ Contains err db = true).
Proof.
  assert (Hcopy : ∀ sb db key size tag evs err,
            path (copyAndVerifyObject sb db key size tag) evs (Some err) →
            Contains err key = true).
  { intros sb db key size tag evs err H.
    apply copyAndVerifyObject_path in H.
    destruct H as [(e & _ & [= ->]) | [(h & e & _ & [= ->])
      | [(h & t & e & _ & [= ->]) | [(h & t & e & _ & [= ->])
      | [(h & t & v & _ & _ & [= ->]) | (h & t & v & _ & _ & _ & [=])]]]]];
      apply Contains_mid. }
  split; [| split; [exact Hcopy |]].
  - intros cfg obj evs err H. apply syncObject_shapes in H.
    destruct H as [(e & _ & [= ->]) | (r & work & _ & H)];
      [apply Contains_mid |].
    destruct (detect obj r) as [[| |] | e].
    + destruct H as (cp & [e |] & Hcp & _ & [=]). subst.
      eapply Hcopy, Hcp.
    + destruct H as (cp & [e |] & Hcp & _ & [=]). subst.
      eapply Hcopy, Hcp.
    + destruct H as [_ [=]].
    + destruct H as [_ [= ->]]. apply Contains_mid.
  - intros sb db evs err H. apply syncBucketConfig_path in H.
    destruct H as (f & H & Hf).
    destruct f as [| o]; [discriminate |]. simpl in Hf. subst o.
    apply (proj1 (path_andThen _ _ _ _)) in H.
    destruct H as [(o & H & [= <-]) | (e1 & e2 & _ & H & _)].
    { eapply (step_error_names sb db); [| exact H]. auto. }
    apply (proj1 (path_andThen _ _ _ _)) in H.
    destruct H as [(o & H & [= <-]) | (e3 & e4 & _ & H & _)].
    { eapply (step_error_names sb db); [| exact H]. auto. }
    apply (proj1 (path_andThen _ _ _ _)) in H.
    destruct H as [(o & H & [= <-]) | (e5 & e6 & _ & H & _)].
    { eapply (step_error_names sb db); [| exact H]. auto. }
    eapply (step_error_names sb db); [| exact H]. auto.
Qed.

(** ** Done means verified *)

Lemma detect_Current obj r :
  detect obj r = inl Current →
  ∃ v, r = inl v ∧ s3.ContentLength v = types.Size obj
       ∧ s3.ETag v = types.ETag obj.
Proof.
  unfold detect. destruct r as [v | err].
  - destruct (decide _) as [H | H]; [discriminate |]. intros _.
    exists v. split; [reflexivity |].
    destruct (decide (s3.ContentLength v = types.Size obj)) as [Hs | Hs];
      [| exfalso; apply H; auto].
    destruct (decide (s3.ETag v = types.ETag obj)) as [Ht | Ht];
      [| exfalso; apply H; auto].
    split; assumption.
  - destruct (decide _); discriminate.
Qed.

Lemma unit_nil_seen cfg obj evs :
  path (syncObject cfg obj) evs None →
  seenAsListed (Bucket (Destination cfg)) obj evs.
Proof.
  intros H. apply syncObject_shapes in H.
  destruct H as [(err & _ & [=]) | (r & work & -> & H)].
  destruct (detect obj r) as [[| |] | err] eqn:Hd.
  1, 2: destruct H as (cp & e & Hcp & H); copy_cases Hcp;
    destruct H as [-> H]; try discriminate;
    exists [Ev SemAcquire None;
            Ev (Call destClient
                  (HeadObject (Bucket (Destination cfg)) (types.Key obj))) r;
            Ev (Call sourceClient
                  (HeadObject (Bucket (Source cfg)) (types.Key obj))) (inl h);
            Ev (Call sourceClient
                  (GetObjectTagging (Bucket (Source cfg)) (types.Key obj)))
              (inl t);
            Ev (Call destClient
                  (CopyObject (Bucket (Destination cfg))
                     (Bucket (Source cfg) +:+ "/" +:+ types.Key obj)
                     (types.Key obj) (s3.StorageClass h) (s3.Metadata h)))
              (inl tt)], v, (countedCopied ++ [Ev SemRelease tt])%list;
    repeat split; assumption.
  - destruct H as [-> _]. apply detect_Current in Hd.
    destruct Hd as (v & -> & Hs & Ht).
    exists [Ev SemAcquire None], v, (countedSkipped ++ [Ev SemRelease tt])%list.
    repeat split; assumption.
  - destruct H as [_ [=]].
Qed.

Section Unfailing.
Context {W : Type} (h : Handler W) (N : Z).

Lemma step_unfailed (st st' : Coord W) i :
  Unfailed st → step h N i st = Some st' → Unfailed st'.
Proof.
  intros HU Hs. apply step_cases in Hs.
  destruct Hs as [_ [(r & Hi & ->) | (o & k & a & st1 & Hi & He & ->)]].
  - unfold Unfailed, report. intros Hg j r' Hj.
    destruct r as [e |], (g_err st) as [e' |] eqn:Hge; simpl in *;
      try rewrite Hge in Hg; try discriminate.
    apply list_lookup_insert_Some in Hj.
    destruct Hj as [(_ & [= <-] & _) | (_ & Hj)]; [reflexivity |].
    eapply HU; eassumption.
  - destruct (exec_trace h N _ _ _ _ He) as (_ & Hgs & Hg' & _).
    unfold Unfailed. simpl. rewrite Hgs, Hg'. intros Hg j r' Hj.
    apply list_lookup_insert_Some in Hj.
    destruct Hj as [(_ & [=] & _) | (_ & Hj)]. eapply HU; eassumption.
Qed.

Lemma schedule_unfailed (sched : list nat) (st : Coord W) :
  Unfailed st → Unfailed (schedule h N sched st).
Proof.
  revert st. induction sched as [| i sched IH]; intros st HU; simpl.
  - exact HU.
  - destruct (step h N i st) as [st' |] eqn:Hs; [| apply IH, HU].
    eapply IH, step_unfailed; eassumption.
Qed.
End Unfailing.

(** X8.  Done means verified, for copies and skips alike.  A unit of
    work returns nil only if the destination was seen, in the last
    request the unit made, to hold the object with the listed size
    and entity tag.  And when [main] reports completion, under
    whatever schedule, this holds of every listed object: its
    goroutine saw the destination hold it as listed. *)
Theorem done_means_verified :
  (∀ cfg obj evs,
     path (syncObject cfg obj) evs None →
     seenAsListed (Bucket (Destination cfg)) obj evs)
  ∧ ∀ (W : Type) (h : Handler W) (parsed : Config)
      (objects : list types.Object) (w : W) (sched : list nat) c s,
      let cfg := withDefaults parsed in
      let st := schedule h (Concurrency cfg) sched (fanout cfg objects w) in
      conclude st = Completed c s →
      ∀ i obj, objects !! i = Some obj →
        seenAsListed (Bucket (Destination cfg)) obj (events_of i (trace st)).
Proof.
  split; [exact unit_nil_seen |].
  intros W h parsed objects w sched c s cfg st Hdone i obj Hobj.
  set (N := Concurrency cfg) in *.
  assert (HN : 1 ≤ N) by apply withDefaults_concurrency.
  assert (HI0 : Inv N (length objects) (fanout cfg objects w)).
  { apply inv_fanout. lia. }
  destruct (schedule_inv h N _ sched _ HI0 served_nil) as [HI _]. fold st in HI.
  assert (HF : Follows cfg objects st).
  { apply (schedule_follows h N cfg objects (length objects));
      [reflexivity | exact HI0 | apply follows_fanout]. }
  assert (HU : Unfailed st).
  { apply schedule_unfailed. intros _ j r Hj. simpl in Hj.
    rewrite list_lookup_fmap in Hj. destruct (objects !! j); discriminate. }
  unfold conclude in Hdone. rewrite (inv_crash _ _ _ HI) in Hdone.
  unfold wait in Hdone.
  destruct (forallb finished (goroutines st)) eqn:Hall; [| discriminate].
  destruct (g_err st) eqn:Hg; [discriminate |].
  destruct (all_finished _ i Hall) as [r Hr].
  { rewrite (inv_len _ _ _ HI). eapply lookup_lt_Some, Hobj. }
  rewrite (HU Hg i r Hr) in Hr.
  destruct HF as [_ HF]. specialize (HF i obj Hobj). rewrite Hr in HF.
  apply unit_nil_seen, HF.
Qed.

(** ** How much is asked of the service *)

Lemma tally_app Q evs1 evs2 :
  tally Q (evs1 ++ evs2) = (tally Q evs1 + tally Q evs2)%nat.
Proof. induction evs1 as [| e evs1 IH]; simpl; [reflexivity | lia]. Qed.

Lemma tally_events n Q (tr : list (nat * Obs)) :
  Forall (fun x => (fst x < n)%nat) tr →
  tally Q (events tr) = sum_upto n (fun i => tally Q (events_of i tr)).
Proof.
  induction 1 as [| [j ob] tr Hj _ IH]; simpl.
  - clear. induction n as [| n IH]; simpl; [reflexivity | exact IH].
  - rewrite tally_app, IH. simpl in Hj.
    rewrite (sum_upto_ext n
               (fun i => tally Q (events_of i tr ++
                                  match ob with
                                  | Did e => if Nat.eqb j i then [e] else []
                                  | Left _ => []
                                  end))
               (fun i => (tally Q (events_of i tr)
                          + (if Nat.eqb j i
                             then tally Q match ob with
                                          | Did e => [e]
                                          | Left _ => []
                                          end
                             else O))%nat)).
    + rewrite sum_upto_add, (sum_upto_at n j) by exact Hj. reflexivity.
    + intros i _. rewrite tally_app.
      destruct ob as [e | r]; destruct (Nat.eqb j i); simpl; lia.
Qed.

Lemma sum_upto_le n f c :
  (∀ i, (i < n)%nat → (f i ≤ c)%nat) → (sum_upto n f ≤ c * n)%nat.
Proof.
  induction n as [| n IH]; intros H; simpl; [lia |].
  assert (f n ≤ c)%nat by (apply H; lia).
  assert (sum_upto n f ≤ c * n)%nat by (apply IH; intros i Hi; apply H; lia).
  lia.
Qed.

(** Every program can run to its end. *)
Lemma exists_path {A : Type} (p : Prog A) : ∃ evs a, path p evs a.
Proof.
  induction p as [a | o k IH]; simpl.
  - exists [], a. split; reflexivity.
  - destruct (IH (anyResp o)) as (evs & a & H).
    exists (Ev o (anyResp o) :: evs), a, (anyResp o), evs.
    split; [reflexivity | exact H].
Qed.

Lemma unit_requests cfg obj evs res :
  path (syncObject cfg obj) evs res →
  (tally isCall evs ≤ 5)%nat ∧ (tally isCopy evs ≤ 1)%nat.
Proof.
  intros H. apply syncObject_shapes in H.
  destruct H as [(err & -> & _) | (r & work & -> & H)]; [simpl; lia |].
  destruct (detect obj r) as [[| |] | err].
  1, 2: destruct H as (cp & e & Hcp & H); copy_cases Hcp;
    destruct H as [-> _]; simpl; lia.
  - destruct H as [-> _]. simpl. lia.
  - destruct H as [-> _]. simpl. lia.
Qed.

(** X5.  What the fan-out asks of the service is bounded.  One unit
    of work makes at most five requests, at most one of them a
    [CopyObject].  So in every state of every run the goroutines have
    made at most five requests per listed object and at most one
    copy per listed object. *)
Theorem requests_bounded :
  (∀ cfg obj evs res,
     path (syncObject cfg obj) evs res →
     (tally isCall evs ≤ 5)%nat ∧ (tally isCopy evs ≤ 1)%nat)
  ∧ ∀ (W : Type) (h : Handler W) (parsed : Config)
      (objects : list types.Object) (w : W) (sched : list nat),
      let cfg := withDefaults parsed in
      let st := schedule h (Concurrency cfg) sched (fanout cfg objects w) in
      (tally isCall (events (trace st)) ≤ 5 * length objects)%nat
      ∧ (tally isCopy (events (trace st)) ≤ 1 * length objects)%nat.
Proof.
  split; [exact unit_requests |].
  intros W h parsed objects w sched cfg st.
  set (N := Concurrency cfg) in *.
  assert (HN : 1 ≤ N) by apply withDefaults_concurrency.
  assert (HI0 : Inv N (length objects) (fanout cfg objects w)).
  { apply inv_fanout. lia. }
  destruct (schedule_inv h N _ sched _ HI0 served_nil) as [HI _]. fold st in HI.
  assert (HF : Follows cfg objects st).
  { apply (schedule_follows h N cfg objects (length objects));
      [reflexivity | exact HI0 | apply follows_fanout]. }
  destruct HF as [Hids HF].
  assert (Hone : ∀ i, (i < length objects)%nat →
            (tally isCall (events_of i (trace st)) ≤ 5)%nat
            ∧ (tally isCopy (events_of i (trace st)) ≤ 1)%nat).
  { intros i Hi.
    destruct (lookup_lt_is_Some_2 objects i Hi) as [obj Hobj].
    specialize (HF i obj Hobj).
    destruct (goroutines st !! i) as [[p | r] |]; [| | contradiction].
    - destruct (exists_path p) as (evs & r & Hp).
      apply HF, unit_requests in Hp. rewrite !tally_app in Hp. lia.
    - apply unit_requests in HF. exact HF. }
  rewrite !(tally_events (length objects)) by exact Hids.
  split; apply sum_upto_le; intros i Hi; apply (Hone i Hi).
Qed.

(** ** The copy request *)

(** X11.  What [copyAndVerifyObject] asks the destination to copy.
    A [CopyObject] is requested at most once, and only after the head
    and the tags of the source object were both fetched with success;
    it names the destination bucket, the same key, the copy source
    [sourceBucket/key], and the storage class and user metadata that
    the head of the source just returned. *)
Theorem copy_request (sb db key : string) (size : Z) (tag : string)
    (evs : list Event) (res : option error) :
  path (copyAndVerifyObject sb db key size tag) evs res →
  (tally isCopy evs ≤ 1)%nat
  ∧ ∀ pre e post,
      evs = (pre ++ e :: post)%list → isCopy e = true →
      ∃ h t r,
        pre = [Ev (Call sourceClient (HeadObject sb key)) (inl h);
               Ev (Call sourceClient (GetObjectTagging sb key)) (inl t)] ∧
        e = Ev (Call destClient
                  (CopyObject db (sb +:+ "/" +:+ key) key
                     (s3.StorageClass h) (s3.Metadata h))) r.
Proof.
  intros H. copy_cases H; (split; [simpl; lia |]);
    intros pre e post Heq He; unfold copyEvents in Heq;
    repeat (destruct pre as [| ? pre]; simplify_eq /=); eauto.
Qed.

Lemma copy_request_witness :
  path (copyAndVerifyObject "src" "dst" "a" 10 "t1")
    (snd (run Sim.handler (copyAndVerifyObject "src" "dst" "a" 10 "t1") Sim.abc))
    None
  ∧ (tally isCopy
       (snd (run Sim.handler (copyAndVerifyObject "src" "dst" "a" 10 "t1")
               Sim.abc)) ≤ 1)%nat.
Proof.
  assert (H : path (copyAndVerifyObject "src" "dst" "a" 10 "t1")
                (snd (run Sim.handler
                        (copyAndVerifyObject "src" "dst" "a" 10 "t1") Sim.abc))
                None).
  { eapply (run_path Sim.handler _ Sim.abc). reflexivity. }
  split; [exact H |].
  exact (proj1 (copy_request _ _ _ _ _ _ _ H)).
Defined.

(** ** Before the fan-out *)

Lemma listObjects_fatal fuel bucket token acc evs msg :
  path (listObjects fuel bucket token acc) evs (Fatal msg) →
  ∃ e, msg = "Failed to list source objects: " +:+ e.
Proof.
  revert token acc evs. induction fuel as [| fuel IH]; intros token acc evs H.
  - cbn in H. destruct H as [_ [=]].
  - cbn -[listObjects] in H. simpl in H. path_step H.
    destruct r as [out | err].
    + destruct (s3.NextContinuationToken out) as [t |].
      * destruct (String.eqb t ""); [cbn in H; destruct H as [_ [=]] |].
        eapply IH, H.
      * cbn in H. destruct H as [_ [=]].
    + cbn in H. destruct H as [_ [= ->]]. eauto.
Qed.

(** X9.  Nothing is done to any object before the list is complete.
    The sequential part of [main] never heads, tags or copies an
    object.  Whenever [main] stops there (an error or a panic of
    [syncBucketConfig], a failed page request, or a listing that is
    still turning) no goroutine has run.  In particular, when a page
    request fails after [syncBucketConfig] returned nil, [main] ends
    in [log.Fatalf("Failed to list source objects")] and the pages
    read before the failure are not used. *)
Theorem no_partial_inventory {W : Type} (h : Handler W) (fuel : nat)
    (sched : list nat) (parsed : Config) (w : W) :
  let cfg := withDefaults parsed in
  let r := main h fuel sched parsed w in
  existsb perObject (snd (fst r)) = false
  ∧ (∀ s, fst (fst r) = Stopped s → snd r = [])
  ∧ (∀ w1 cevs w2 levs err,
       run h (syncBucketConfig (Bucket (Source cfg)) (Bucket (Destination cfg)))
         w = (Returned None, w1, cevs) →
       run h (listObjects fuel (Bucket (Source cfg)) None []) w1
       = (Fatal err, w2, levs) →
       r = (Stopped (Fatal err), (cevs ++ levs)%list, [])
       ∧ ∃ e, err = "Failed to list source objects: " +:+ e).
Proof.
  intros cfg r. unfold r, main. fold cfg.
  destruct (run h (startup fuel cfg) w) as [[s w1] evs] eqn:Hrun.
  assert (Hq : existsb perObject evs = false).
  { eapply startup_quiet; [| eapply run_path, Hrun].
    intros c rq a. unfold perObject, requestOf. simpl.
    destruct rq; try discriminate; auto. }
  split; [destruct s; exact Hq |]. split.
  - intros s'. destruct s as [msg | msg | | objects]; simpl; try reflexivity.
    unfold conclude. destruct (crash _); [discriminate |].
    destruct (wait _) as [[e |] |]; discriminate.
  - intros w1' cevs w2 levs err Hc Hl.
    unfold startup in Hrun. rewrite run_bind, Hc, Hl in Hrun.
    injection Hrun as <- <- <-. split; [reflexivity |].
    apply run_path, listObjects_fatal in Hl. exact Hl.
Qed.

(** ** Each goroutine keeps to its object *)

Ltac about_key :=
  repeat (cbn -[aboutKey]; intros;
          match goal with
          | |- _ ∧ _ => split
          | |- aboutKey _ _ _ => repeat split
          | |- True => exact I
          | |- only _ (match ?x with _ => _ end) => destruct x
          | |- only _ (if ?x then _ else _) => destruct x
          end).

Lemma only_key_syncObject cfg obj :
  only (aboutKey (Bucket (Source cfg)) (types.Key obj)) (syncObject cfg obj).
Proof.
  assert (Hcopy : only (aboutKey (Bucket (Source cfg)) (types.Key obj))
                    (copyAndCount cfg obj)).
  { unfold copyAndCount. apply only_bind.
    - unfold copyAndVerifyObject. about_key.
    - intros [err |]; [exact I |]. unfold countCopied. about_key. }
  unfold syncObject. cbn -[aboutKey defer syncBody]. intros a.
  split; [exact I |]. destruct a as [err |]; [exact I |].
  unfold defer. apply only_bind.
  - unfold syncBody. cbn -[aboutKey copyAndCount countSkipped]. intros a.
    split; [reflexivity |]. destruct a as [out | err].
    + destruct (_ || _); [exact Hcopy |]. unfold countSkipped. about_key.
    + destruct (_ || _); [exact Hcopy | exact I].
  - intros r. about_key.
Qed.

(** X12.  Each goroutine keeps to its own object.  Every request a
    unit of work makes is a head, a tagging or a copy of the key of
    the object it was started for, and a copy is always from
    [sourceBucket/key] to the same key; the unit never lists and
    never touches bucket configuration.  In every state of every run
    this holds of what goroutine [i] has done for the [i]-th listed
    object. *)
Theorem one_key_per_unit :
  (∀ cfg obj evs res,
     path (syncObject cfg obj) evs res →
     Forall (aboutKey (Bucket (Source cfg)) (types.Key obj)) evs)
  ∧ ∀ (W : Type) (h : Handler W) (parsed : Config)
      (objects : list types.Object) (w : W) (sched : list nat),
      let cfg := withDefaults parsed in
      let st := schedule h (Concurrency cfg) sched (fanout cfg objects w) in
      ∀ i obj, objects !! i = Some obj →
        Forall (aboutKey (Bucket (Source cfg)) (types.Key obj))
          (events_of i (trace st)).
Proof.
  assert (Hunit : ∀ cfg obj evs res,
            path (syncObject cfg obj) evs res →
            Forall (aboutKey (Bucket (Source cfg)) (types.Key obj)) evs).
  { intros cfg obj evs res H.
    eapply only_path; [apply only_key_syncObject | exact H]. }
  split; [exact Hunit |].
  intros W h parsed objects w sched cfg st i obj Hobj.
  set (N := Concurrency cfg) in *.
  assert (HN : 1 ≤ N) by apply withDefaults_concurrency.
  assert (HI0 : Inv N (length objects) (fanout cfg objects w)).
  { apply inv_fanout. lia. }
  assert (HF : Follows cfg objects st).
  { apply (schedule_follows h N cfg objects (length objects));
      [reflexivity | exact HI0 | apply follows_fanout]. }
  destruct HF as [_ HF]. specialize (HF i obj Hobj).
  destruct (goroutines st !! i) as [[p | r] |]; [| | contradiction].
  - destruct (exists_path p) as (evs & r & Hp).
    apply HF, Hunit in Hp. apply Forall_app in Hp. apply Hp.
  - eapply Hunit, HF.
Qed.
